(** * The AI-response normalisation and repair pipeline of the repository indexer

    A shallow embedding of the edge function [index-repository]
    (functions [analyzeWithAI], [repairTruncatedJson], [extractPartialData],
    [validateAndNormalize], [fetchGitHubRepo], [fetchGitLabRepo]) and of the
    parsing tail of the review function [analyzeCodeWithAI], together with
    the JavaScript primitives they call: strings of UTF-16 code units,
    backtracking regular expressions, [JSON.parse], [String(...)], [atob]. *)

From Stdlib Require Import String Ascii.
From Stdlib Require Import List Bool Arith NArith ZArith Lia.
Import ListNotations.

Set Implicit Arguments.

(** ** JavaScript strings *)

(** A JavaScript string is a sequence of UTF-16 code units. *)
Definition jstring := list N.

Fixpoint str (s : string) : jstring :=
  match s with
  | EmptyString => []
  | String a s' => N_of_ascii a :: str s'
  end.

Definition jstring_eqb (a b : jstring) : bool :=
  if list_eq_dec N.eq_dec a b then true else false.

Module Ch.
Definition lf : N := 10%N.
Definition quote : N := 34%N.      (* the double quote *)
Definition comma : N := 44%N.
Definition colon : N := 58%N.
Definition lbracket : N := 91%N.
Definition backslash : N := 92%N.
Definition rbracket : N := 93%N.
Definition lbrace : N := 123%N.
Definition rbrace : N := 125%N.
End Ch.

(** WhiteSpace and LineTerminator code units of ECMAScript: what [\s]
    matches and what [String.prototype.trim] removes. *)
Definition is_space (c : N) : bool :=
  (((9 <=? c) && (c <=? 13)) || (c =? 32) || (c =? 160) || (c =? 5760)
   || ((8192 <=? c) && (c <=? 8202)) || (c =? 8232) || (c =? 8233)
   || (c =? 8239) || (c =? 8287) || (c =? 12288) || (c =? 65279))%N.

(** [\d] *)
Definition is_digit (c : N) : bool := ((48 <=? c) && (c <=? 57))%N.

(** LineTerminator: what [.] refuses without the [s] flag. *)
Definition is_line_terminator (c : N) : bool :=
  ((c =? 10) || (c =? 13) || (c =? 8232) || (c =? 8233))%N.

Fixpoint drop_while (p : N -> bool) (s : jstring) : jstring :=
  match s with
  | c :: s' => if p c then drop_while p s' else s
  | [] => []
  end.

(** [s] without the units satisfying [p] at its two ends. *)
Definition strip_both (p : N -> bool) (s : jstring) : jstring :=
  rev (drop_while p (rev (drop_while p s))).

(** [s.trim()] *)
Definition trim (s : jstring) : jstring := strip_both is_space s.

(** [s.indexOf(c)] for a one-unit needle; [None] stands for [-1]. *)
Fixpoint indexOf (c : N) (s : jstring) : option nat :=
  match s with
  | [] => None
  | x :: s' => if (x =? c)%N then Some 0
               else match indexOf c s' with Some i => Some (S i) | None => None end
  end.

(** [s.lastIndexOf(c)] for a one-unit needle. *)
Fixpoint lastIndexOf (c : N) (s : jstring) : option nat :=
  match s with
  | [] => None
  | x :: s' => match lastIndexOf c s' with
               | Some i => Some (S i)
               | None => if (x =? c)%N then Some 0 else None
               end
  end.

(** [s.substring(a, b)] for [a <= b]; [s.substring(a)]. *)
Definition substring (a b : nat) (s : jstring) : jstring := firstn (b - a) (skipn a s).
Definition substring_from (a : nat) (s : jstring) : jstring := skipn a s.

(** ** Regular expressions *)

(** The fragment of ECMAScript patterns the program uses.  A character
    atom carries its class as a predicate on code units; [+] is [r r*],
    [?] is [r|()]; [Star true] is the greedy star, [Star false] the lazy
    one ([*?]); [End] is [$] (no [m] flag anywhere in the program). *)
Inductive regex :=
| Eps
| Chr (p : N -> bool)
| Seq (r1 r2 : regex)
| Alt (r1 r2 : regex)
| Star (greedy : bool) (r : regex)
| End.

Definition lit (c : N) : regex := Chr (N.eqb c).
Definition any : regex := Chr (fun _ => true).                  (* [.] with the [s] flag, [[\s\S]] *)
Definition dot_nl : regex := Chr (fun c => negb (is_line_terminator c)).  (* [.] without it *)
Definition ws : regex := Chr is_space.
Definition digit : regex := Chr is_digit.
Definition none_of (l : list N) : regex := Chr (fun c => negb (existsb (N.eqb c) l)).
Definition plus (r : regex) : regex := Seq r (Star true r).
Definition opt (r : regex) : regex := Alt r Eps.

Fixpoint word (s : jstring) : regex :=
  match s with
  | [] => Eps
  | c :: s' => Seq (lit c) (word s')
  end.

Fixpoint seqs (l : list regex) : regex :=
  match l with
  | [] => Eps
  | [r] => r
  | r :: l' => Seq r (seqs l')
  end.

Section Matcher.
Variable R : Type.

(** One repetition loop.  [mr] matches the body; an iteration that
    consumes nothing is refused, as RepeatMatcher does in ECMAScript, so
    at most [length s] iterations can happen and the counter [n], started
    at [length s], never cuts a match short (see [rmatch_star_greedy]). *)
Fixpoint star_loop (greedy : bool)
         (mr : jstring -> (jstring -> option R) -> option R)
         (k : jstring -> option R) (n : nat) (s : jstring) : option R :=
  let more :=
    match n with
    | 0 => None
    | S n' => mr s (fun s' => if length s' <? length s
                              then star_loop greedy mr k n' s' else None)
    end in
  if greedy
  then match more with Some x => Some x | None => k s end
  else match k s with Some x => Some x | None => more end.

(** The backtracking matcher, in continuation-passing style: [rmatch r s k]
    matches [r] at the front of [s] and hands the rest of the input to [k];
    when [k] fails the next alternative is tried, in ECMAScript's priority
    order. *)
Fixpoint rmatch (r : regex) : jstring -> (jstring -> option R) -> option R :=
  match r with
  | Eps => fun s k => k s
  | Chr p => fun s k => match s with
                        | c :: s' => if p c then k s' else None
                        | [] => None
                        end
  | Seq r1 r2 => fun s k => rmatch r1 s (fun s' => rmatch r2 s' k)
  | Alt r1 r2 => fun s k => match rmatch r1 s k with
                            | Some x => Some x
                            | None => rmatch r2 s k
                            end
  | Star g r1 => fun s k => star_loop g (rmatch r1) k (length s) s
  | End => fun s k => match s with [] => k [] | _ :: _ => None end
  end.
End Matcher.

(** A pattern with one capture group at the top level: [before(group)after].
    Every capturing pattern of the program has this shape. *)
Record pattern := Pattern { p_before : regex; p_group : regex; p_after : regex }.

(** What [exec] reports: where the match starts, the matched text, the
    captured text and the text after the match. *)
Record match_result := MatchResult {
  m_index : nat;
  m_whole : jstring;
  m_group : jstring;
  m_rest : jstring
}.

(** One attempt at the front of [s]: the three parts are matched in sequence
    inside one backtracking search. *)
Definition match_here (p : pattern) (s : jstring) : option (jstring * jstring * jstring) :=
  rmatch (p_before p) s (fun s1 =>
  rmatch (p_group p) s1 (fun s2 =>
  rmatch (p_after p) s2 (fun s3 => Some (s1, s2, s3)))).

(** Leftmost match: attempts at index 0, 1, ..., [length s]. *)
Fixpoint search (p : pattern) (i : nat) (s : jstring) : option match_result :=
  match match_here p s with
  | Some (s1, s2, s3) =>
      Some (MatchResult i (firstn (length s - length s3) s)
                        (firstn (length s1 - length s2) s1) s3)
  | None => match s with
            | [] => None
            | _ :: s' => search p (S i) s'
            end
  end.

(** [s.match(p)] for a pattern without the [g] flag. *)
Definition exec (p : pattern) (s : jstring) : option match_result := search p 0 s.

Definition whole (r : regex) : pattern := Pattern Eps r Eps.

(** [s.replace(r, rep)] without the [g] flag: the leftmost match only. *)
Definition replace_first (r : regex) (rep : jstring) (s : jstring) : jstring :=
  match exec (whole r) s with
  | Some m => firstn (m_index m) s ++ rep ++ m_rest m
  | None => s
  end.

(** Scanning for the [g] flag: the successive matches from left to right,
    the search resuming where the previous match ended (one unit further
    after an empty match).  [skip] counts the code units of the current
    match still to be stepped over. *)
Section Global.
Variable A : Type.
Variable r : regex.
Variable on_match : jstring -> list A.   (* contribution of a matched text *)
Variable on_char : N -> list A.          (* contribution of an unmatched unit *)

Fixpoint scan (skip : nat) (s : jstring) : list A :=
  match skip with
  | S n => match s with
           | [] => []
           | _ :: s' => scan n s'
           end
  | 0 =>
      match rmatch r s (fun s' => Some s') with
      | Some s' =>
          let len := length s - length s' in
          on_match (firstn len s) ++
          match s with
          | [] => []
          | c :: t => (if len =? 0 then on_char c else []) ++ scan (len - 1) t
          end
      | None =>
          match s with
          | [] => []
          | c :: t => on_char c ++ scan 0 t
          end
      end
  end.
End Global.

(** [s.match(r)] with the [g] flag: the matched texts ([None] for [null]). *)
Definition match_all (r : regex) (s : jstring) : option (list jstring) :=
  match scan r (fun m => [m]) (fun _ => []) 0 s with
  | [] => None
  | l => Some l
  end.

(** [(s.match(r) || []).length] *)
Definition count_matches (r : regex) (s : jstring) : nat :=
  match match_all r s with Some l => length l | None => 0 end.

(** [s.replace(r, rep)] with the [g] flag. *)
Definition replace_all (r : regex) (rep : jstring) (s : jstring) : jstring :=
  scan r (fun _ => rep) (fun c => [c]) 0 s.

(** ** JavaScript values *)

(** A Number, kept as an exact decimal: the value is
    [0.d1 d2 ... dk * 10 ^ n_point], with [n_digits = [d1; ...; dk]] free of
    leading and trailing zeros ([[]] for zero).  Rounding to binary64 is
    not modelled: a literal keeps its decimal value where JavaScript
    rounds it, reads it as Infinity or reads it as zero.  The two agree on
    every literal of at most 15 significant digits inside the normal
    binary64 range, and no property proved below depends on the digits of
    a number. *)
Record number := Number { n_neg : bool; n_digits : list N; n_point : Z }.

Unset Elimination Schemes.
Inductive value :=
| VUndefined
| VNull
| VBool (b : bool)
| VNum (x : number)
| VStr (s : jstring)
| VArr (l : list value)
| VObj (props : list (jstring * value)).   (* own properties, in enumeration order *)
Set Elimination Schemes.

(** Exceptions the modelled code can raise. *)
Inductive exn :=
| TypeError
| SyntaxError
| InvalidCharacterError
| Error (msg : jstring).

Inductive outcome (A : Type) :=
| Returned (a : A)
| Thrown (e : exn).
Arguments Returned {A} a.
Arguments Thrown {A} e.

Definition bind {A B} (m : outcome A) (f : A -> outcome B) : outcome B :=
  match m with
  | Returned a => f a
  | Thrown e => Thrown e
  end.

Notation "x <- m ;; f" := (bind m (fun x => f))
  (at level 61, m at next level, right associativity).

(** [try { body } catch { handler }] *)
Definition try_catch {A} (body : outcome A) (handler : exn -> outcome A) : outcome A :=
  match body with
  | Returned a => Returned a
  | Thrown e => handler e
  end.

(** ToBoolean *)
Definition truthy (v : value) : bool :=
  match v with
  | VUndefined | VNull => false
  | VBool b => b
  | VNum x => match n_digits x with [] => false | _ => true end
  | VStr s => match s with [] => false | _ => true end
  | VArr _ | VObj _ => true
  end.

Definition nullish (v : value) : bool :=
  match v with VUndefined | VNull => true | _ => false end.

(** [a || b], with [b] evaluated only when [a] is falsy. *)
Definition or_else (a b : outcome value) : outcome value :=
  x <- a ;; if truthy x then Returned x else b.
Infix "|||" := or_else (at level 50, left associativity).

Fixpoint uint_str (u : Decimal.uint) : jstring :=
  match u with
  | Decimal.Nil => []
  | Decimal.D0 u => 48%N :: uint_str u
  | Decimal.D1 u => 49%N :: uint_str u
  | Decimal.D2 u => 50%N :: uint_str u
  | Decimal.D3 u => 51%N :: uint_str u
  | Decimal.D4 u => 52%N :: uint_str u
  | Decimal.D5 u => 53%N :: uint_str u
  | Decimal.D6 u => 54%N :: uint_str u
  | Decimal.D7 u => 55%N :: uint_str u
  | Decimal.D8 u => 56%N :: uint_str u
  | Decimal.D9 u => 57%N :: uint_str u
  end.

Definition decimal_of_N (n : N) : jstring := uint_str (N.to_uint n).
Definition decimal_of_nat (n : nat) : jstring := decimal_of_N (N.of_nat n).

(** Number::toString, radix 10. *)
Definition number_to_string (x : number) : jstring :=
  match n_digits x with
  | [] => str "0"
  | d1 :: ds =>
      let digits := map (N.add 48) (d1 :: ds) in
      let k := Z.of_nat (length digits) in
      let n := n_point x in
      let zeros (z : Z) := repeat 48%N (Z.to_nat z) in
      let body :=
        if ((k <=? n) && (n <=? 21))%Z then digits ++ zeros (n - k)%Z
        else if ((0 <? n) && (n <=? 21))%Z
        then firstn (Z.to_nat n) digits ++ str "." ++ skipn (Z.to_nat n) digits
        else if ((-6 <? n) && (n <=? 0))%Z
        then str "0." ++ zeros (- n)%Z ++ digits
        else
          let e := (n - 1)%Z in
          let es := (if (e <? 0)%Z then str "-" else str "+") ++ decimal_of_N (Z.abs_N e) in
          match ds with
          | [] => [(48 + d1)%N] ++ str "e" ++ es
          | _ => [(48 + d1)%N] ++ str "." ++ map (N.add 48) ds ++ str "e" ++ es
          end in
      (if n_neg x then str "-" else []) ++ body
  end.

Fixpoint join (sep : jstring) (l : list jstring) : jstring :=
  match l with
  | [] => []
  | [a] => a
  | a :: l' => a ++ sep ++ join sep l'
  end.

(** The text ToString gives where it returns ([ToString] below says where
    it throws instead).  An array prints as its elements joined with
    commas, [null] and [undefined] elements as the empty string; a plain
    object as [[object Object]]. *)
Fixpoint to_string (v : value) : jstring :=
  match v with
  | VUndefined => str "undefined"
  | VNull => str "null"
  | VBool true => str "true"
  | VBool false => str "false"
  | VNum x => number_to_string x
  | VStr s => s
  | VArr l =>
      join (str ",")
           ((fix elems (l : list value) : list jstring :=
               match l with
               | [] => []
               | e :: l' => (if nullish e then [] else to_string e) :: elems l'
               end) l)
  | VObj _ => str "[object Object]"
  end.

(** The value of [String(v)] where it returns. *)
Definition String_ (v : value) : value := VStr (to_string v).

Fixpoint lookup (key : jstring) (props : list (jstring * value)) : option value :=
  match props with
  | [] => None
  | (k, v) :: rest => if jstring_eqb k key then Some v else lookup key rest
  end.

(** [v.key] for the property names the program reads ([projectName],
    [description], [techStack], [features], [structure], [readme], [name],
    [path], [languages], [tree], [content]): none of them is defined on a
    built-in prototype, so the result is the own property of an object,
    [undefined] on any other value, and a TypeError on [null] and
    [undefined]. *)
Definition get (key : string) (v : value) : outcome value :=
  match v with
  | VUndefined | VNull => Thrown TypeError
  | VObj props => Returned (match lookup (str key) props with Some x => x | None => VUndefined end)
  | _ => Returned VUndefined
  end.

Definition isArray (v : value) : bool :=
  match v with VArr _ => true | _ => false end.

(** Is [k] an array index, the canonical decimal form of an integer below
    [2^32 - 1]?  Such keys are enumerated first, in ascending order. *)
Definition digits_value (s : jstring) : N :=
  fold_left (fun acc c => (10 * acc + (c - 48))%N) s 0%N.

Definition array_index (k : jstring) : option N :=
  match k with
  | [] => None
  | c :: rest =>
      if forallb is_digit k && (negb (c =? 48)%N || match rest with [] => true | _ => false end)
         && (length k <=? 10) && (digits_value k <? 4294967295)%N
      then Some (digits_value k) else None
  end.

(** Insertion of a new own property at its place in the enumeration order. *)
Fixpoint insert_index (i : N) (k : jstring) (v : value) (props : list (jstring * value))
  : list (jstring * value) :=
  match props with
  | [] => [(k, v)]
  | (k', v') :: rest =>
      match array_index k' with
      | Some j => if (j <? i)%N then (k', v') :: insert_index i k v rest
                  else (k, v) :: props
      | None => (k, v) :: props
      end
  end.

Fixpoint replace_prop (k : jstring) (v : value) (props : list (jstring * value))
  : list (jstring * value) :=
  match props with
  | [] => []
  | (k', v') :: rest =>
      if jstring_eqb k' k then (k', v) :: rest else (k', v') :: replace_prop k v rest
  end.

(** CreateDataProperty on an ordinary object. *)
Definition set_prop (k : jstring) (v : value) (props : list (jstring * value))
  : list (jstring * value) :=
  match lookup k props with
  | Some _ => replace_prop k v props
  | None => match array_index k with
            | Some i => insert_index i k v props
            | None => props ++ [(k, v)]
            end
  end.

(** [Object.keys(v)] for a value that is neither [null] nor [undefined]. *)
Definition keys (v : value) : list value :=
  match v with
  | VObj props => map (fun kv => VStr (fst kv)) props
  | VArr l => map (fun i => VStr (decimal_of_nat i)) (seq 0 (length l))
  | VStr s => map (fun i => VStr (decimal_of_nat i)) (seq 0 (length s))
  | _ => []
  end.

(** An object literal: its fields in source order. *)
Definition field (k : string) (v : value) : jstring * value := (str k, v).
Definition object (fields : list (jstring * value)) : value := VObj fields.

(** Does ToString return?  An object is printed by its [toString] method:
    the one of [Object.prototype], unless the object has an own property
    of that name.  In a value read by [JSON.parse] that property cannot be
    callable, and [valueOf] gives no primitive either, so ToString throws
    a TypeError.  An array is printed by [join], which prints the elements
    that are neither [null] nor [undefined]. *)
Fixpoint printable (v : value) : bool :=
  match v with
  | VObj props => match lookup (str "toString") props with Some _ => false | None => true end
  | VArr l =>
      (fix all (l : list value) : bool :=
         match l with
         | [] => true
         | e :: l' => printable e && all l'
         end) l
  | _ => true
  end.

(** ToString, as [String(v)], template literals, [join] and [atob] apply
    it. *)
Definition ToString (v : value) : outcome jstring :=
  if printable v then Returned (to_string v) else Thrown TypeError.

(** [String(v)] *)
Definition StringOf (v : value) : outcome value :=
  s <- ToString v ;; Returned (VStr s).

(** [l.map(f)] for a callback that can throw: the first exception ends
    the loop. *)
Fixpoint map_outcome A B (f : A -> outcome B) (l : list A) : outcome (list B) :=
  match l with
  | [] => Returned []
  | x :: l' => y <- f x ;; ys <- map_outcome f l' ;; Returned (y :: ys)
  end.

(** ** JSON.parse *)

Module Json.

(** JSON whitespace: tab, line feed, carriage return, space. *)
Definition is_ws (c : N) : bool := ((c =? 9) || (c =? 10) || (c =? 13) || (c =? 32))%N.

Definition skip_ws (s : jstring) : jstring := drop_while is_ws s.

Inductive presult (A : Type) :=
| POk (a : A) (rest : jstring)
| PErr                       (* SyntaxError *)
| PFuel.                     (* the depth counter ran out: never with [parse]'s choice *)
Arguments POk {A} a rest.
Arguments PErr {A}.
Arguments PFuel {A}.

Definition hex_value (c : N) : option N :=
  if is_digit c then Some (c - 48)%N
  else if ((97 <=? c) && (c <=? 102))%N then Some (c - 87)%N
  else if ((65 <=? c) && (c <=? 70))%N then Some (c - 55)%N
  else None.

Definition escape (c : N) : option N :=
  if (c =? 34)%N then Some 34%N            (* escaped quote *)
  else if (c =? 92)%N then Some 92%N       (* escaped backslash *)
  else if (c =? 47)%N then Some 47%N       (* \/ *)
  else if (c =? 98)%N then Some 8%N        (* \b *)
  else if (c =? 102)%N then Some 12%N      (* \f *)
  else if (c =? 110)%N then Some 10%N      (* \n *)
  else if (c =? 114)%N then Some 13%N      (* \r *)
  else if (c =? 116)%N then Some 9%N       (* \t *)
  else None.

(** The characters of a string literal after its opening quote, up to and
    including the closing quote; [acc] holds the decoded text, reversed. *)
Fixpoint parse_chars (s : jstring) (acc : jstring) : presult jstring :=
  match s with
  | [] => PErr
  | c :: t =>
      if (c =? 34)%N then POk (rev acc) t
      else if (c <? 32)%N then PErr
      else if (c =? 92)%N then
        match t with
        | [] => PErr
        | e :: t1 =>
            if (e =? 117)%N then          (* \uXXXX *)
              match t1 with
              | h1 :: h2 :: h3 :: h4 :: t2 =>
                  match hex_value h1, hex_value h2, hex_value h3, hex_value h4 with
                  | Some a, Some b, Some c', Some d =>
                      parse_chars t2 ((((a * 16 + b) * 16 + c') * 16 + d)%N :: acc)
                  | _, _, _, _ => PErr
                  end
              | _ => PErr
              end
            else match escape e with
                 | Some x => parse_chars t1 (x :: acc)
                 | None => PErr
                 end
        end
      else parse_chars t (c :: acc)
  end.

Fixpoint span (p : N -> bool) (s : jstring) : jstring * jstring :=
  match s with
  | c :: t => if p c then let (a, b) := span p t in (c :: a, b) else ([], s)
  | [] => ([], [])
  end.

Fixpoint strip_leading_zeros (ds : list N) (point : Z) : list N * Z :=
  match ds with
  | d :: ds' => if (d =? 0)%N then strip_leading_zeros ds' (point - 1)%Z else (ds, point)
  | [] => ([], 0%Z)
  end.

Definition strip_trailing_zeros (ds : list N) : list N :=
  rev (drop_while (N.eqb 0) (rev ds)).

Definition make_number (neg : bool) (int frac : jstring) (exp : Z) : number :=
  let ds := map (fun c => (c - 48)%N) (int ++ frac) in
  let (ds', point) := strip_leading_zeros ds (Z.of_nat (length int) + exp)%Z in
  Number neg (strip_trailing_zeros ds') point.

(** A number token: an optional minus sign; a single 0 or a non-zero
    digit followed by digits; an optional fraction, a dot and at least one
    digit; an optional exponent, e or E, an optional sign and at least one
    digit. *)
Definition parse_number (s : jstring) : presult number :=
  let (neg, s1) := match s with
                   | c :: t => if (c =? 45)%N then (true, t) else (false, s)
                   | [] => (false, s)
                   end in
  let (int, s2) := match s1 with
                   | c :: t => if (c =? 48)%N then ([c], t) else span is_digit s1
                   | [] => ([], [])
                   end in
  match int with
  | [] => PErr
  | _ =>
      let frac_part :=
        match s2 with
        | c :: t => if (c =? 46)%N
                    then let (fr, s3) := span is_digit t in
                         match fr with [] => None | _ => Some (fr, s3) end
                    else Some ([], s2)
        | [] => Some ([], s2)
        end in
      match frac_part with
      | None => PErr
      | Some (frac, s3) =>
          let exp_part :=
            match s3 with
            | c :: t =>
                if ((c =? 101) || (c =? 69))%N then
                  let (sign, t1) := match t with
                                    | x :: t' => if (x =? 45)%N then ((-1)%Z, t')
                                                 else if (x =? 43)%N then (1%Z, t')
                                                 else (1%Z, t)
                                    | [] => (1%Z, t)
                                    end in
                  let (ex, s4) := span is_digit t1 in
                  match ex with
                  | [] => None
                  | _ => Some ((sign * Z.of_N (digits_value ex))%Z, s4)
                  end
                else Some (0%Z, s3)
            | [] => Some (0%Z, s3)
            end in
          match exp_part with
          | None => PErr
          | Some (exp, s4) => POk (make_number neg int frac exp) s4
          end
      end
  end.

Fixpoint strip_prefix (w s : jstring) : option jstring :=
  match w, s with
  | [], _ => Some s
  | a :: w', b :: s' => if (a =? b)%N then strip_prefix w' s' else None
  | _ :: _, [] => None
  end.

(** The elements of an array after its opening bracket, up to and
    including the closing bracket; [pv] parses one value.  The counter [m]
    bounds the number of elements by the length of what is left to
    read. *)
Fixpoint elements (pv : jstring -> presult value) (m : nat) (t : jstring)
         (acc : list value) : presult value :=
  match m with
  | 0 => PFuel
  | S m' =>
      match pv t with
      | POk v r =>
          match skip_ws r with
          | c :: r' =>
              if (c =? 44)%N then elements pv m' r' (v :: acc)
              else if (c =? 93)%N then POk (VArr (rev (v :: acc))) r'
              else PErr
          | [] => PErr
          end
      | PErr => PErr
      | PFuel => PFuel
      end
  end.

(** The members of an object after its opening brace, up to and
    including the closing brace.  A repeated key keeps its first place
    and takes the last value. *)
Fixpoint members (pv : jstring -> presult value) (m : nat) (t : jstring)
         (acc : list (jstring * value)) : presult value :=
  match m with
  | 0 => PFuel
  | S m' =>
      match skip_ws t with
      | q :: t1 =>
          if (q =? 34)%N then
            match parse_chars t1 [] with
            | POk key r0 =>
                match skip_ws r0 with
                | c :: r1 =>
                    if (c =? 58)%N then
                      match pv r1 with
                      | POk v r =>
                          let acc' := set_prop key v acc in
                          match skip_ws r with
                          | c' :: r' =>
                              if (c' =? 44)%N then members pv m' r' acc'
                              else if (c' =? 125)%N then POk (VObj acc') r'
                              else PErr
                          | [] => PErr
                          end
                      | PErr => PErr
                      | PFuel => PFuel
                      end
                    else PErr
                | [] => PErr
                end
            | PErr => PErr
            | PFuel => PFuel
            end
          else PErr
      | [] => PErr
      end
  end.

Definition parse_literal (s : jstring) : presult value :=
  match strip_prefix (str "true") s with
  | Some r => POk (VBool true) r
  | None =>
      match strip_prefix (str "false") s with
      | Some r => POk (VBool false) r
      | None =>
          match strip_prefix (str "null") s with
          | Some r => POk VNull r
          | None => PErr
          end
      end
  end.

(** A JSON value at the front of [s], after optional whitespace.  [n]
    bounds the nesting depth. *)
Fixpoint parse_value (n : nat) (s : jstring) : presult value :=
  match n with
  | 0 => PFuel
  | S n' =>
      match skip_ws s with
      | [] => PErr
      | c :: t =>
          if (c =? 34)%N then
            match parse_chars t [] with
            | POk x r => POk (VStr x) r
            | PErr => PErr
            | PFuel => PFuel
            end
          else if (c =? 91)%N then           (* opening bracket *)
            match skip_ws t with
            | [] => PErr
            | c1 :: t1 =>
                if (c1 =? 93)%N then POk (VArr []) t1
                else elements (parse_value n') (S (length t)) (c1 :: t1) []
            end
          else if (c =? 123)%N then          (* opening brace *)
            match skip_ws t with
            | [] => PErr
            | c1 :: t1 =>
                if (c1 =? 125)%N then POk (VObj []) t1
                else members (parse_value n') (S (length t)) (c1 :: t1) []
            end
          else if (c =? 45)%N || is_digit c then
            match parse_number (c :: t) with
            | POk x r => POk (VNum x) r
            | PErr => PErr
            | PFuel => PFuel
            end
          else parse_literal (c :: t)
      end
  end.

(** A parser that, on a text of at most [bound] units, uses up a
    non-empty front of the text and has no counter of its own to exhaust. *)
Definition consumes A (f : jstring -> presult A) (bound : nat) : Prop :=
  forall s, length s <= bound ->
            match f s with
            | POk _ r => exists w, s = w ++ r /\ w <> []
            | PErr => True
            | PFuel => False
            end.

(** [JSON.parse(text)]: a JSON text is one value between optional
    whitespace.  The whitespace at the two ends is dropped, then the value
    must use up the text. *)
Definition parse (text : jstring) : outcome value :=
  let text := strip_both is_ws text in
  match parse_value (S (length text)) text with
  | POk v [] => Returned v
  | _ => Thrown SyntaxError
  end.

End Json.

Definition JSON_parse (text : jstring) : outcome value := Json.parse text.

(** A literal in which the apostrophe stands for the double quote. *)
Definition strq (s : string) : jstring :=
  map (fun c => if (c =? 39)%N then Ch.quote else c) (str s).

Definition quoted (s : string) : jstring := Ch.quote :: str s ++ [Ch.quote].

(** ** The patterns of the program *)

Module Re.

(** The fence pattern of [analyzeWithAI] and [analyzeCodeWithAI]: three
    backticks, an optional [json] tag, whitespace, a lazily matched
    captured body, three backticks. *)
Definition fence : pattern :=
  Pattern (seqs [word (str "```"); opt (word (str "json")); Star true ws])
          (Star false any)
          (word (str "```")).

(** The value alternatives of a complete property: an array without a
    closing bracket inside, a string without a quote inside, [true],
    [false], [null], digits. *)
Definition complete_value : regex :=
  Alt (seqs [lit Ch.lbracket; Star true (none_of [Ch.rbracket]); lit Ch.rbracket])
 (Alt (seqs [lit Ch.quote; Star true (none_of [Ch.quote]); lit Ch.quote])
 (Alt (word (str "true"))
 (Alt (word (str "false"))
 (Alt (word (str "null"))
      (plus digit))))).

(** A complete property: quoted non-empty key, colon, complete value,
    then optional whitespace and an optional comma. *)
Definition complete_pair : regex :=
  seqs [lit Ch.quote; plus (none_of [Ch.quote]); lit Ch.quote; Star true ws;
        lit Ch.colon; Star true ws; complete_value; Star true ws; opt (lit Ch.comma)].

(** The dangling property that runs to the end of the input: whitespace,
    a key with or without its closing quote, colon, and a value free of
    comma, closing brace and closing bracket. *)
Definition dangling : regex :=
  seqs [Star true ws; lit Ch.quote; Star true (none_of [Ch.quote]); opt (lit Ch.quote);
        Star true ws; lit Ch.colon; Star true ws;
        Star true (none_of [Ch.comma; Ch.rbrace; Ch.rbracket]); End].

(** The pattern of [repairTruncatedJson] (flag [s]): group 1 is anything
    followed by a complete property; a dangling property follows it. *)
Definition last_complete : pattern :=
  Pattern Eps (Seq (Star true any) complete_pair) dangling.

(** A comma, whitespace, end of input. *)
Definition trailing_comma : regex := seqs [lit Ch.comma; Star true ws; End].

(** Quoted [key], colon, and a captured non-empty string without quotes. *)
Definition scalar (key : string) : pattern :=
  Pattern (seqs [word (quoted key); Star true ws; lit Ch.colon; Star true ws; lit Ch.quote])
          (plus (none_of [Ch.quote]))
          (lit Ch.quote).

(** Quoted [key], colon, opening bracket, and the captured text up to the
    first closing bracket. *)
Definition array (key : string) : pattern :=
  Pattern (seqs [word (quoted key); Star true ws; lit Ch.colon; Star true ws; lit Ch.lbracket])
          (Star true (none_of [Ch.rbracket]))
          Eps.

(** A quoted non-empty item (flag [g]). *)
Definition item : regex := seqs [lit Ch.quote; plus (none_of [Ch.quote]); lit Ch.quote].

(** Quoted [readme], colon, and a captured string body in which a
    backslash escapes the unit after it. *)
Definition readme : pattern :=
  Pattern (seqs [word (quoted "readme"); Star true ws; lit Ch.colon; Star true ws; lit Ch.quote])
          (Star true (Alt (none_of [Ch.quote; Ch.backslash]) (Seq (lit Ch.backslash) dot_nl)))
          (lit Ch.quote).

Definition escaped_n : regex := word [Ch.backslash; 110%N].
Definition escaped_quote : regex := word [Ch.backslash; Ch.quote].

End Re.

(** ** The indexer: [repairTruncatedJson] *)

(** [for (let i = 0; i < n; i++) repaired += c] *)
Definition append_times (n : Z) (c : N) (repaired : jstring) : jstring :=
  Nat.iter (Z.to_nat n) (fun r => r ++ [c]) repaired.

Definition repairTruncatedJson (jsonStr : jstring) : jstring :=
  let repaired := jsonStr in
  (* Remove trailing incomplete values after last complete property *)
  let repaired := match exec Re.last_complete repaired with
                  | Some lastCompleteMatch => m_group lastCompleteMatch
                  | None => repaired
                  end in
  (* Remove trailing comma if present *)
  let repaired := replace_first Re.trailing_comma [] repaired in
  (* Close any unclosed strings *)
  let quotes := count_matches (lit Ch.quote) repaired in
  let repaired := if negb (quotes mod 2 =? 0) then repaired ++ [Ch.quote] else repaired in
  (* Close any unclosed arrays *)
  let openBrackets := count_matches (lit Ch.lbracket) repaired in
  let closeBrackets := count_matches (lit Ch.rbracket) repaired in
  let repaired := append_times (Z.of_nat openBrackets - Z.of_nat closeBrackets) Ch.rbracket repaired in
  (* Close any unclosed objects *)
  let openBraces := count_matches (lit Ch.lbrace) repaired in
  let closeBraces := count_matches (lit Ch.rbrace) repaired in
  append_times (Z.of_nat openBraces - Z.of_nat closeBraces) Ch.rbrace repaired.

(** ** The indexer: [extractPartialData] *)

Definition extractArray (content : jstring) (key : string) : list value :=
  match exec (Re.array key) content with
  | Some arrayMatch =>
      match match_all Re.item (m_group arrayMatch) with
      | Some items => firstn 5 (map (fun s => VStr (replace_all (lit Ch.quote) [] s)) items)
      | None => []
      end
  | None => []
  end.

Definition extractPartialData (content : jstring) (repoInfo : value) : outcome value :=
  projectName0 <- get "name" repoInfo ||| get "path" repoInfo
                  ||| Returned (VStr (str "Unknown Project")) ;;
  description0 <- get "description" repoInfo
                  ||| Returned (VStr (str "Repository analysis completed.")) ;;
  title <- get "name" repoInfo ||| get "path" repoInfo ||| Returned (VStr (str "Project")) ;;
  title <- ToString title ;;
  blurb <- get "description" repoInfo ||| Returned (VStr (str "A software project.")) ;;
  blurb <- ToString blurb ;;
  let readme0 := VStr (str "# " ++ title ++ [Ch.lf; Ch.lf] ++ blurb) in
  let projectName := match exec (Re.scalar "projectName") content with
                     | Some nameMatch => VStr (m_group nameMatch)
                     | None => projectName0
                     end in
  let description := match exec (Re.scalar "description") content with
                     | Some descMatch => VStr (m_group descMatch)
                     | None => description0
                     end in
  let techStack := extractArray content "techStack" in
  let features := extractArray content "features" in
  let structure := extractArray content "structure" in
  let readme := match exec Re.readme content with
                | Some readmeMatch =>
                    VStr (replace_all Re.escaped_quote [Ch.quote]
                            (replace_all Re.escaped_n [Ch.lf] (m_group readmeMatch)))
                | None => readme0
                end in
  (* Add languages to techStack if empty *)
  techStack <- match techStack with
               | [] => languages <- get "languages" repoInfo ;;
                       Returned (if truthy languages then firstn 4 (keys languages) else techStack)
               | _ => Returned techStack
               end ;;
  Returned (object [field "projectName" projectName; field "description" description;
                    field "techStack" (VArr techStack); field "features" (VArr features);
                    field "structure" (VArr structure); field "readme" readme]).

(** ** The indexer: [validateAndNormalize] *)

(** The value of [Array.isArray(x) ? x.slice(0, 5).map(String) : []]
    where no [String] throws. *)
Definition bounded_strings (x : value) : value :=
  match x with
  | VArr l => VArr (map String_ (firstn 5 l))
  | _ => VArr []
  end.

(** [Array.isArray(x) ? x.slice(0, 5).map(String) : []] *)
Definition slice_strings (x : value) : outcome value :=
  match x with
  | VArr l => strings <- map_outcome StringOf (firstn 5 l) ;; Returned (VArr strings)
  | _ => Returned (VArr [])
  end.

(** The fields of the object literal are evaluated in source order. *)
Definition validateAndNormalize (parsed repoInfo : value) : outcome value :=
  projectName <- get "projectName" parsed ||| get "name" repoInfo ||| get "path" repoInfo
                 ||| Returned (VStr (str "Unknown")) ;;
  projectName <- StringOf projectName ;;
  description <- get "description" parsed ||| get "description" repoInfo
                 ||| Returned (VStr (str "A software project.")) ;;
  description <- StringOf description ;;
  techStack <- get "techStack" parsed ;;
  techStack <- slice_strings techStack ;;
  features <- get "features" parsed ;;
  features <- slice_strings features ;;
  structure <- get "structure" parsed ;;
  structure <- slice_strings structure ;;
  readme <- get "readme" parsed
            ||| (title <- get "projectName" parsed ||| get "name" repoInfo ;;
                 title <- ToString title ;;
                 blurb <- get "description" parsed ||| Returned (VStr []) ;;
                 blurb <- ToString blurb ;;
                 Returned (VStr (str "# " ++ title ++ [Ch.lf; Ch.lf] ++ blurb))) ;;
  readme <- StringOf readme ;;
  Returned (object [field "projectName" projectName;
                    field "description" description;
                    field "techStack" techStack;
                    field "features" features;
                    field "structure" structure;
                    field "readme" readme]).

(** ** The indexer: the normalisation funnel of [analyzeWithAI] *)

(** Stage 1 of [analyzeWithAI]: trim, take the body of the first fenced
    block if there is one, slice from the first opening brace to the last
    closing brace. *)
Definition strip_fence (jsonStr : jstring) : jstring :=
  match exec Re.fence jsonStr with
  | Some jsonMatch => trim (m_group jsonMatch)
  | None => jsonStr
  end.

Definition object_boundaries (jsonStr : jstring) : jstring :=
  match indexOf Ch.lbrace jsonStr, lastIndexOf Ch.rbrace jsonStr with
  | Some jsonStart, Some jsonEnd =>
      if jsonStart <? jsonEnd then substring jsonStart (jsonEnd + 1) jsonStr
      else substring_from jsonStart jsonStr
  | Some jsonStart, None => substring_from jsonStart jsonStr
  | None, _ => jsonStr
  end.

(** [analyzeWithAI] from the point where the gateway's completion [content]
    has been read (the request itself is the caller's Completion Client).
    The enclosing [try] only rethrows, so it is the identity here. *)
Definition analyzeWithAI (content : jstring) (repoInfo : value) : outcome value :=
  match content with
  | [] => Thrown (Error (str "No response from AI"))
  | _ =>
      let jsonStr := object_boundaries (strip_fence (trim content)) in
      (* First attempt: direct parse *)
      try_catch (parsed <- JSON_parse jsonStr ;; validateAndNormalize parsed repoInfo)
        (fun _ =>
      (* Second attempt: repair truncated JSON *)
      try_catch (parsed <- JSON_parse (repairTruncatedJson jsonStr) ;;
                 validateAndNormalize parsed repoInfo)
        (fun _ =>
      (* Third attempt: extract partial data using regex *)
      extractPartialData jsonStr repoInfo))
  end.

(** ** The review function: the parsing tail of [analyzeCodeWithAI] *)

Definition review_boundaries (jsonStr : jstring) : jstring :=
  match indexOf Ch.lbrace jsonStr, lastIndexOf Ch.rbrace jsonStr with
  | Some jsonStart, Some jsonEnd =>
      if jsonStart <? jsonEnd then substring jsonStart (jsonEnd + 1) jsonStr else jsonStr
  | _, _ => jsonStr
  end.

Definition invalid_json_message : jstring :=
  str "AI returned invalid JSON response. Please try again.".

Definition analyzeCodeWithAI (content : jstring) : outcome value :=
  match content with
  | [] => Thrown (Error (str "No response from AI"))
  | _ =>
      let jsonStr := review_boundaries (strip_fence (trim content)) in
      try_catch (JSON_parse jsonStr) (fun _ => Thrown (Error invalid_json_message))
  end.

(** ** The fetchers: [fetchGitHubRepo] and [fetchGitLabRepo] *)

(** What [fetch] resolves to, as far as the fetchers look at it. *)
Record response := Response { ok : bool; status : N; body : jstring }.

(** [await res.json()] and [await res.text()] *)
Definition res_json (res : response) : outcome value := JSON_parse (body res).
Definition res_text (res : response) : jstring := body res.

(** The provider's answers to the four requests of a fetcher, in the order
    they are sent: repository metadata, tree, languages, package.json. *)
Record provider := Provider {
  metadata : response;
  tree : response;
  languages : response;
  manifest : response
}.

Module Base64.

Definition is_ascii_ws (c : N) : bool :=
  ((c =? 9) || (c =? 10) || (c =? 12) || (c =? 13) || (c =? 32))%N.

Definition sextet (c : N) : option N :=
  if ((65 <=? c) && (c <=? 90))%N then Some (c - 65)%N
  else if ((97 <=? c) && (c <=? 122))%N then Some (c - 71)%N
  else if ((48 <=? c) && (c <=? 57))%N then Some (c + 4)%N
  else if (c =? 43)%N then Some 62%N
  else if (c =? 47)%N then Some 63%N
  else None.

Fixpoint sextets (s : jstring) : option (list N) :=
  match s with
  | [] => Some []
  | c :: t => match sextet c, sextets t with
              | Some v, Some l => Some (v :: l)
              | _, _ => None
              end
  end.

Fixpoint octets (l : list N) : jstring :=
  match l with
  | a :: b :: c :: d :: rest =>
      [(a * 4 + b / 16)%N; ((b mod 16) * 16 + c / 4)%N; ((c mod 4) * 64 + d)%N] ++ octets rest
  | [a; b; c] => [(a * 4 + b / 16)%N; ((b mod 16) * 16 + c / 4)%N]
  | [a; b] => [(a * 4 + b / 16)%N]
  | _ => []
  end.

Definition strip_padding (s : jstring) : jstring :=
  if length s mod 4 =? 0 then
    match rev s with
    | a :: b :: r => if (a =? 61)%N then (if (b =? 61)%N then rev r else rev (b :: r)) else s
    | _ => s
    end
  else s.

(** [atob(data)]: the forgiving-base64 decode of the HTML standard. *)
Definition atob (data : jstring) : outcome jstring :=
  let data := filter (fun c => negb (is_ascii_ws c)) data in
  let data := strip_padding data in
  if length data mod 4 =? 1 then Thrown InvalidCharacterError
  else match sextets data with
       | Some l => Returned (octets l)
       | None => Thrown InvalidCharacterError
       end.

End Base64.

(** [x.slice(0, n)]: defined on arrays and strings; on any other value
    that is not nullish [slice] is [undefined] and the call is a TypeError. *)
Definition slice_to (n : nat) (x : value) : outcome value :=
  match x with
  | VArr l => Returned (VArr (firstn n l))
  | VStr s => Returned (VStr (firstn n s))
  | _ => Thrown TypeError
  end.

Definition api_error (platform : string) (res : response) : exn :=
  Error (str platform ++ str " API error: " ++ decimal_of_N (status res) ++ str " - " ++ res_text res).

Definition fetchGitHubRepo (p : provider) : outcome value :=
  (* Fetch repo info *)
  let repoRes := metadata p in
  if negb (ok repoRes) then Thrown (api_error "GitHub" repoRes) else
  repoData <- res_json repoRes ;;
  (* Fetch directory tree (root level) *)
  let treeRes := tree p in
  tree <- (if ok treeRes then
             treeData <- res_json treeRes ;;
             t <- get "tree" treeData ;;
             sliced <- (if nullish t then Returned VUndefined else slice_to 100 t) ;;
             Returned (if truthy sliced then sliced else VArr [])
           else Returned (VArr [])) ;;
  (* Fetch languages *)
  let langRes := languages p in
  languages <- (if ok langRes then res_json langRes else Returned (VObj [])) ;;
  (* Try to fetch package.json for additional info *)
  let pkgRes := manifest p in
  packageJson <- (if ok pkgRes then
                    pkgData <- res_json pkgRes ;;
                    content <- get "content" pkgData ;;
                    if truthy content
                    then data <- ToString content ;;
                         decoded <- Base64.atob data ;; JSON_parse decoded
                    else Returned VNull
                  else Returned VNull) ;;
  Returned (object [field "repoData" repoData; field "tree" tree;
                    field "languages" languages; field "packageJson" packageJson]).

Definition fetchGitLabRepo (p : provider) : outcome value :=
  (* Fetch project info *)
  let projectRes := metadata p in
  if negb (ok projectRes) then Thrown (api_error "GitLab" projectRes) else
  projectData <- res_json projectRes ;;
  (* Fetch repository tree *)
  let treeRes := tree p in
  tree <- (if ok treeRes then res_json treeRes else Returned (VArr [])) ;;
  (* Fetch languages *)
  let langRes := languages p in
  languages <- (if ok langRes then res_json langRes else Returned (VObj [])) ;;
  (* Try to fetch package.json *)
  let pkgRes := manifest p in
  packageJson <- (if ok pkgRes then
                    let pkgText := res_text pkgRes in
                    try_catch (JSON_parse pkgText) (fun _ => Returned VNull)
                  else Returned VNull) ;;
  Returned (object [field "projectData" projectData; field "tree" tree;
                    field "languages" languages; field "packageJson" packageJson]).

(** ** Patterns with several capture groups *)

(** A pattern as the sequence of its pieces, the captured ones marked:
    [match_pieces] matches them one after the other inside one backtracking
    search and hands the captured texts, in order, to [k]. *)
Fixpoint match_pieces R (ps : list (bool * regex)) (s : jstring)
         (k : list jstring -> jstring -> option R) : option R :=
  match ps with
  | [] => k [] s
  | (captured, r) :: ps' =>
      rmatch r s (fun s1 =>
      match_pieces ps' s1 (fun groups s2 =>
      k (if captured then firstn (length s - length s1) s :: groups else groups) s2))
  end.

(** [s.match(pattern)] without the [g] flag: the groups of the leftmost
    match. *)
Fixpoint search_groups (ps : list (bool * regex)) (s : jstring) : option (list jstring) :=
  match match_pieces ps s (fun groups _ => Some groups) with
  | Some groups => Some groups
  | None => match s with
            | [] => None
            | _ :: s' => search_groups ps s'
            end
  end.

(** [match[n]] *)
Definition group (n : nat) (groups : list jstring) : jstring := nth (n - 1) groups [].

(** [s.split(c)] for a one-unit separator. *)
Fixpoint split_on (c : N) (s : jstring) : list jstring :=
  match s with
  | [] => [[]]
  | x :: s' =>
      if (x =? c)%N then [] :: split_on c s'
      else match split_on c s' with
           | p :: ps => (x :: p) :: ps
           | [] => [[x]]
           end
  end.

Module UrlRe.
Definition slash : N := 47%N.
Definition segment : regex := plus (none_of [slash]).

(** github.com, a slash, and two captured segments separated by a slash. *)
Definition github_repo : list (bool * regex) :=
  [(false, word (str "github.com/")); (true, segment); (false, lit slash); (true, segment)].

(** gitlab.com, a slash, and the captured rest of the line. *)
Definition gitlab_repo : list (bool * regex) :=
  [(false, word (str "gitlab.com/")); (true, plus dot_nl)].

(** A final [.git]. *)
Definition dot_git_end : regex := Seq (word (str ".git")) End.

(** The repository pattern followed by [/pull/] and captured digits. *)
Definition github_pr : list (bool * regex) :=
  [(false, word (str "github.com/")); (true, segment); (false, lit slash); (true, segment);
   (false, word (str "/pull/")); (true, plus digit)].

(** gitlab.com, a captured path, [/-/merge_requests/] and captured digits. *)
Definition gitlab_mr : list (bool * regex) :=
  [(false, word (str "gitlab.com/")); (true, plus dot_nl);
   (false, word (str "/-/merge_requests/")); (true, plus digit)].
End UrlRe.

(** ** The indexer: [parseRepoUrl] *)

Inductive platform := github | gitlab.

Record RepoInfo := { r_platform : platform; r_owner : jstring; r_repo : jstring }.

Definition parseRepoUrl (url : jstring) : option RepoInfo :=
  match search_groups UrlRe.github_repo url with
  | Some githubMatch =>
      Some {| r_platform := github;
              r_owner := group 1 githubMatch;
              r_repo := replace_first UrlRe.dot_git_end [] (group 2 githubMatch) |}
  | None =>
      match search_groups UrlRe.gitlab_repo url with
      | Some gitlabMatch =>
          let path := replace_first UrlRe.dot_git_end [] (group 1 gitlabMatch) in
          let parts := split_on UrlRe.slash path in
          if 2 <=? length parts then
            Some {| r_platform := gitlab;
                    r_owner := join [UrlRe.slash] (removelast parts);
                    r_repo := last parts [] |}
          else None
      | None => None
      end
  end.

(** ** The review function: [parseMRUrl] *)

Record MRInfo := { m_platform : platform; m_owner : jstring; m_repo : jstring;
                   m_number : jstring }.

Definition parseMRUrl (url : jstring) : option MRInfo :=
  match search_groups UrlRe.github_pr url with
  | Some githubMatch =>
      Some {| m_platform := github; m_owner := group 1 githubMatch;
              m_repo := group 2 githubMatch; m_number := group 3 githubMatch |}
  | None =>
      match search_groups UrlRe.gitlab_mr url with
      | Some gitlabMatch =>
          let path := group 1 gitlabMatch in
          let parts := split_on UrlRe.slash path in
          Some {| m_platform := gitlab;
                  m_owner := join [UrlRe.slash] (removelast parts);
                  m_repo := last parts [];
                  m_number := group 2 gitlabMatch |}
      | None => None
      end
  end.


(** ** The review function: [fetchGitHubPR] and [fetchGitLabMR] *)

(** The provider's answers to the three requests of a review fetcher, in
    the order they are sent: the merge request, its changes, its commits.
    The two fetchers below are the code from the point where each request
    has been answered with a response: what can go wrong before that
    (printing the token into a header, [encodeURIComponent], a [fetch]
    that rejects) is not part of them, and nothing is stated below about
    the exceptions the fetchers cannot raise. *)
Record review_provider := ReviewProvider {
  mr_info : response;
  mr_changes : response;
  mr_commits : response
}.

Definition fetchGitHubPR (p : review_provider) : outcome value :=
  (* Fetch PR info *)
  let prRes := mr_info p in
  if negb (ok prRes) then Thrown (api_error "GitHub" prRes) else
  prData <- res_json prRes ;;
  (* Fetch PR files/diff *)
  let filesRes := mr_changes p in
  files <- (if ok filesRes then res_json filesRes else Returned (VArr [])) ;;
  (* Fetch commits *)
  let commitsRes := mr_commits p in
  commits <- (if ok commitsRes then res_json commitsRes else Returned (VArr [])) ;;
  Returned (object [field "prData" prData; field "files" files; field "commits" commits]).

Definition fetchGitLabMR (p : review_provider) : outcome value :=
  (* Fetch MR info *)
  let mrRes := mr_info p in
  if negb (ok mrRes) then Thrown (api_error "GitLab" mrRes) else
  mrData <- res_json mrRes ;;
  (* Fetch MR changes/diff *)
  let changesRes := mr_changes p in
  changes <- (if ok changesRes then res_json changesRes else Returned (VObj [])) ;;
  (* Fetch commits *)
  let commitsRes := mr_commits p in
  commits <- (if ok commitsRes then res_json commitsRes else Returned (VArr [])) ;;
  Returned (object [field "mrData" mrData; field "changes" changes; field "commits" commits]).

(** ** The indexer: the request of [analyzeWithAI] and the handler *)

(** [v?.key], for the property names [message] and [content], which no
    built-in prototype defines. *)
Definition opt_get (key : string) (v : value) : outcome value :=
  if nullish v then Returned VUndefined else get key v.

(** [v?.[0]] *)
Definition opt_first (v : value) : value :=
  match v with
  | VArr l => nth 0 l VUndefined
  | VStr (c :: _) => VStr [c]
  | VObj props => match lookup (str "0") props with Some x => x | None => VUndefined end
  | _ => VUndefined
  end.

(** [l.join(sep)] on an array: [null] and [undefined] elements print as
    the empty string, the others by ToString. *)
Definition join_values (sep : jstring) (l : list value) : outcome jstring :=
  texts <- map_outcome (fun e => if nullish e then Returned [] else ToString e) l ;;
  Returned (join sep texts).

(** A template literal of several lines. *)
Definition lines (l : list jstring) : jstring := join [Ch.lf] l.

(** What the gateway call comes to: a response, a rejected [fetch], or the
    abort of the fifty-second timer. *)
Inductive reply :=
| Answer (res : response)
| NetworkError
| TimedOut.

Module Indexer.

(** The user prompt, from [const limitedTree] to the end of the template;
    the substitutions of the template are evaluated and printed from left
    to right. *)
Definition prompt (repoInfo : value) (platform : jstring) : outcome jstring :=
  (* Limit tree to prevent overly large prompts *)
  tree <- get "tree" repoInfo ;;
  sliced <- (if nullish tree then Returned VUndefined else slice_to 15 tree) ;;
  let limitedTree := if truthy sliced then sliced else VArr [] in
  name <- get "name" repoInfo ||| get "path" repoInfo ;;
  name <- ToString name ;;
  description <- get "description" repoInfo ||| Returned (VStr (str "No description")) ;;
  description <- ToString description ;;
  languages <- get "languages" repoInfo ||| Returned (VObj []) ;;
  languageNames <- join_values (str ", ") (firstn 5 (keys languages)) ;;
  files <- match limitedTree with
           | VArr l => map_outcome (fun f => get "path" f ||| get "name" f) l
           | _ => Thrown TypeError
           end ;;
  fileNames <- join_values (str ", ") (firstn 10 files) ;;
  Returned (lines
    [str "Analyze this repository and return a JSON object.";
     [];
     str "Repository: " ++ name;
     str "Platform: " ++ platform;
     str "Description: " ++ description;
     str "Languages: " ++ match languageNames with [] => str "Unknown" | _ => languageNames end;
     str "Files: " ++ match fileNames with [] => str "N/A" | _ => fileNames end;
     [];
     str "CRITICAL: Return ONLY a valid JSON object with these exact fields:";
     str "- projectName: string (project name)";
     str "- description: string (one short sentence, max 100 chars)";
     str "- techStack: array of max 4 strings";
     str "- features: array of max 4 strings  ";
     str "- structure: array of max 4 strings (main directories)";
     str "- readme: string (brief markdown, max 800 chars, no code blocks)";
     [];
     str "Keep ALL values SHORT to avoid truncation."]).

(** [data.choices?.[0]?.message?.content] *)
Definition completion (data : value) : outcome value :=
  choices <- get "choices" data ;;
  message <- opt_get "message" (opt_first choices) ;;
  opt_get "content" message.

(** The message for a response that is not [ok]. *)
Definition gateway_error (status : N) : exn :=
  if (status =? 429)%N then Error (str "Rate limit exceeded. Please try again later.")
  else if (status =? 402)%N then Error (str "Payment required. Please add credits to continue.")
  else Error (str "AI analysis failed: " ++ decimal_of_N status).

(** The whole of [analyzeWithAI].  [LOVABLE_API_KEY] is what
    [Deno.env.get] returns ([None] for [undefined]); [gateway] maps the key
    and the prompt, the two parts of the request that vary, to what the
    call comes to.  The outer [catch] turns the abort into an Error and
    rethrows everything else. *)
Definition analyzeWithAI (LOVABLE_API_KEY : option jstring)
           (gateway : jstring -> jstring -> reply)
           (repoInfo : value) (platform : jstring) : outcome value :=
  match LOVABLE_API_KEY with
  | None | Some [] => Thrown (Error (str "LOVABLE_API_KEY is not configured"))
  | Some key =>
      prompt <- prompt repoInfo platform ;;
      match gateway key prompt with
      | TimedOut => Thrown (Error (str "AI analysis timed out. Repository may be too large."))
      | NetworkError => Thrown TypeError
      | Answer response =>
          if negb (ok response) then Thrown (gateway_error (status response)) else
          data <- res_json response ;;
          content <- completion data ;;
          if negb (truthy content) then Thrown (Error (str "No response from AI")) else
          match content with
          | VStr content => analyzeWithAI content repoInfo
          | _ => Thrown TypeError   (* [content.trim] is not a function *)
          end
      end
  end.

Record request := Request { method : jstring; payload : jstring }.

(** The body of a response: none, the JSON text of a value, or the JSON
    text of [{ error: error.message }] for a caught exception. *)
Inductive http_body :=
| NoBody
| JsonBody (v : value)
| ErrorBody (e : exn).

Record http_response := HttpResponse { http_status : N; http_body_of : http_body }.

(** What the handler depends on outside the request. *)
Record world := World {
  api_key : option jstring;
  repository : RepoInfo -> value -> provider;   (* by repository and access token *)
  gateway : jstring -> jstring -> reply
}.

Definition platform_name (p : platform) : jstring :=
  match p with github => str "github" | gitlab => str "gitlab" end.

Definition bad_request (message : string) : http_response :=
  HttpResponse 400 (JsonBody (object [field "error" (VStr (str message))])).

(** The body of the handler's [try]. *)
Definition handle (w : world) (req : request) : outcome http_response :=
    (body <- JSON_parse (payload req) ;;
     repoUrl <- get "repoUrl" body ;;
     accessToken <- get "accessToken" body ;;
     if negb (truthy repoUrl) then Returned (bad_request "Repository URL is required") else
     match repoUrl with
     | VStr url =>
         match parseRepoUrl url with
         | None => Returned (bad_request "Invalid repository URL. Supported: GitHub, GitLab")
         | Some repoInfo =>
             fetchedData <-
               match r_platform repoInfo with
               | github =>
                   data <- fetchGitHubRepo (repository w repoInfo accessToken) ;;
                   repoData <- get "repoData" data ;;
                   name <- get "name" repoData ;;
                   description <- get "description" repoData ;;
                   default_branch <- get "default_branch" repoData ;;
                   stargazers_count <- get "stargazers_count" repoData ;;
                   forks_count <- get "forks_count" repoData ;;
                   tree <- get "tree" data ;;
                   languages <- get "languages" data ;;
                   packageJson <- get "packageJson" data ;;
                   Returned (object [field "name" name; field "description" description;
                                     field "default_branch" default_branch;
                                     field "stargazers_count" stargazers_count;
                                     field "forks_count" forks_count; field "tree" tree;
                                     field "languages" languages;
                                     field "packageJson" packageJson])
               | gitlab =>
                   data <- fetchGitLabRepo (repository w repoInfo accessToken) ;;
                   projectData <- get "projectData" data ;;
                   name <- get "name" projectData ;;
                   path <- get "path_with_namespace" projectData ;;
                   description <- get "description" projectData ;;
                   default_branch <- get "default_branch" projectData ;;
                   star_count <- get "star_count" projectData ;;
                   forks_count <- get "forks_count" projectData ;;
                   tree <- get "tree" data ;;
                   languages <- get "languages" data ;;
                   packageJson <- get "packageJson" data ;;
                   Returned (object [field "name" name; field "path" path;
                                     field "description" description;
                                     field "default_branch" default_branch;
                                     field "star_count" star_count;
                                     field "forks_count" forks_count; field "tree" tree;
                                     field "languages" languages;
                                     field "packageJson" packageJson])
               end ;;
             (* Analyze with AI *)
             analysis <- analyzeWithAI (api_key w) (gateway w) fetchedData
                                       (platform_name (r_platform repoInfo)) ;;
             Returned (HttpResponse 200 (JsonBody analysis))
         end
     | _ => Thrown TypeError   (* [url.match] is not a function *)
     end).

Definition serve (w : world) (req : request) : http_response :=
  if jstring_eqb (method req) (str "OPTIONS") then HttpResponse 200 NoBody else
  match handle w req with
  | Returned res => res
  | Thrown error => HttpResponse 500 (ErrorBody error)
  end.

End Indexer.

(** ** The Telegram notifier: [escapeMarkdown] *)

(** The class of the pattern of [escapeMarkdown]: the punctuation that
    MarkdownV2 reserves, the backslash included. *)
Definition markdown_special (c : N) : bool :=
  existsb (N.eqb c) (str "_*[]()~`>#+-=|{}.!" ++ [Ch.backslash]).

(** [text.replace(class, backslash + match)] with the [g] flag. *)
Definition escapeMarkdown (text : jstring) : jstring :=
  scan (Chr markdown_special) (fun m => Ch.backslash :: m) (fun c => [c]) 0 text.

(** ** The review history of [useTokenStorage] *)

Record StoredReview := {
  id : jstring;
  mrUrl : jstring;
  mrTitle : jstring;
  author : jstring;
  status_of : jstring;
  issueCount : number;
  reviewedAt : jstring;
  summary : jstring
}.

(** The state update of [addReviewToHistory]: the new review in front of
    the earlier ones with another id, the first fifty kept. *)
Definition addReviewToHistory (review : StoredReview) (prev : list StoredReview)
  : list StoredReview :=
  (* Keep only last 50 reviews *)
  firstn 50 (review :: filter (fun r => negb (jstring_eqb (id r) (id review))) prev).

(** ** Specification-level notions *)

(** What a pattern denotes, without any search order: [matches r s s']
    says that [r] matches the part of [s] in front of [s']. *)
Inductive matches : regex -> jstring -> jstring -> Prop :=
| M_Eps s : matches Eps s s
| M_Chr (p : N -> bool) c s : p c = true -> matches (Chr p) (c :: s) s
| M_Seq r1 r2 s s1 s2 : matches r1 s s1 -> matches r2 s1 s2 -> matches (Seq r1 r2) s s2
| M_AltL r1 r2 s s' : matches r1 s s' -> matches (Alt r1 r2) s s'
| M_AltR r1 r2 s s' : matches r2 s s' -> matches (Alt r1 r2) s s'
| M_StarNil g r s : matches (Star g r) s s
| M_StarCons g r s s1 s2 :
    matches r s s1 -> length s1 < length s -> matches (Star g r) s1 s2 ->
    matches (Star g r) s s2
| M_End : matches End [] [].

(** [p] is a prefix of [s]. *)
Definition prefix (p s : jstring) : Prop := exists d, s = p ++ d.

(** A match of the trailing-properties pattern: [s] splits into [pre], a
    text [kv] matched by the complete-property part and a text [d] matched
    by the dangling part up to the end. *)
Definition heuristic_match (s pre kv d : jstring) : Prop :=
  s = pre ++ kv ++ d /\ matches Re.complete_pair (kv ++ d) d /\ matches Re.dangling d [].

Definition cut_at_last_match (s p : jstring) : Prop :=
  (exists pre kv d,
      heuristic_match s pre kv d /\ p = pre ++ kv /\
      forall pre' kv' d', heuristic_match s pre' kv' d' -> length pre' <= length pre)
  \/ (p = s /\ forall pre kv d, ~ heuristic_match s pre kv d).

Definition all_space (w : jstring) : Prop := forallb is_space w = true.
Definition all_digits (w : jstring) : Prop := forallb is_digit w = true.
Definition free_of (l : list N) (w : jstring) : Prop :=
  forallb (fun c => negb (existsb (N.eqb c) l)) w = true.

(** The text of a complete value, as the heuristic sees it. *)
Inductive complete_value : jstring -> Prop :=
| CV_array body :
    free_of [Ch.rbracket] body -> complete_value ([Ch.lbracket] ++ body ++ [Ch.rbracket])
| CV_string body :
    free_of [Ch.quote] body -> complete_value ([Ch.quote] ++ body ++ [Ch.quote])
| CV_true : complete_value (str "true")
| CV_false : complete_value (str "false")
| CV_null : complete_value (str "null")
| CV_digits w : w <> [] -> all_digits w -> complete_value w.

(** The text of a complete property: a quoted non-empty key, a colon, a
    complete value, then whitespace and at most one comma. *)
Definition complete_property (kv : jstring) : Prop :=
  exists key w1 w2 val w3 c,
    kv = [Ch.quote] ++ key ++ [Ch.quote] ++ w1 ++ [Ch.colon] ++ w2 ++ val ++ w3 ++ c /\
    key <> [] /\ free_of [Ch.quote] key /\ all_space w1 /\ all_space w2 /\
    complete_value val /\ all_space w3 /\ (c = [] \/ c = [Ch.comma]).

(** The text of a dangling property: whitespace, a key with or without its
    closing quote, a colon, and a value free of comma, closing brace and
    closing bracket. *)
Definition dangling_property (d : jstring) : Prop :=
  exists w0 key q w1 w2 v,
    d = w0 ++ [Ch.quote] ++ key ++ q ++ w1 ++ [Ch.colon] ++ w2 ++ v /\
    all_space w0 /\ free_of [Ch.quote] key /\ (q = [] \/ q = [Ch.quote]) /\
    all_space w1 /\ all_space w2 /\ free_of [Ch.comma; Ch.rbrace; Ch.rbracket] v.


(** A place where the trailing-properties heuristic applies: [s] splits
    into [pre], a complete property [kv] and a dangling property [d] that
    runs to the end. *)
Definition heuristic_split (s pre kv d : jstring) : Prop :=
  s = pre ++ kv ++ d /\ complete_property kv /\ dangling_property d.

(** Step (a) of the repair: [p] is [s] cut after the last complete property
    the heuristic finds (the one that starts latest), or [s] itself when
    the heuristic finds none. *)
Definition cut_at_last_complete (s p : jstring) : Prop :=
  (exists pre kv d,
      heuristic_split s pre kv d /\ p = pre ++ kv /\
      forall pre' kv' d', heuristic_split s pre' kv' d' -> length pre' <= length pre)
  \/ (p = s /\ forall pre kv d, ~ heuristic_split s pre kv d).

(** Step (b): cut at a comma that only whitespace follows. *)
Fixpoint strip_trailing_comma (s : jstring) : jstring :=
  match s with
  | [] => []
  | c :: s' => if (c =? Ch.comma)%N && forallb is_space s' then []
               else c :: strip_trailing_comma s'
  end.

Fixpoint occurrences (c : N) (s : jstring) : nat :=
  match s with
  | [] => 0
  | x :: s' => (if (x =? c)%N then 1 else 0) + occurrences c s'
  end.

(** Step (c): one closing quote when the number of quotes is odd. *)
Definition close_string (s : jstring) : jstring :=
  if Nat.odd (occurrences Ch.quote s) then s ++ [Ch.quote] else s.

(** Steps (d) and (e): one closer per opener in excess. *)
Definition close_excess (opener closer : N) (s : jstring) : jstring :=
  s ++ repeat closer (occurrences opener s - occurrences closer s).

Definition is_closer (c : N) : Prop := c = Ch.quote \/ c = Ch.rbracket \/ c = Ch.rbrace.

(** The own property [key] of an object, [undefined] elsewhere. *)
Definition prop (key : string) (v : value) : value :=
  match v with
  | VObj props => match lookup (str key) props with Some x => x | None => VUndefined end
  | _ => VUndefined
  end.

Definition the_fields : list string :=
  ["projectName"; "description"; "techStack"; "features"; "structure"; "readme"]%string.

(** A result with the six fields, none of them [null] or [undefined]. *)
Definition fully_populated (v : value) : Prop :=
  exists projectName description techStack features structure readme,
    v = object [field "projectName" projectName; field "description" description;
                field "techStack" techStack; field "features" features;
                field "structure" structure; field "readme" readme]
    /\ Forall (fun x => nullish x = false)
              [projectName; description; techStack; features; structure; readme].

Definition is_string (v : value) : bool :=
  match v with VStr _ => true | _ => false end.

Definition nonempty_string (v : value) : bool :=
  match v with VStr (_ :: _) => true | _ => false end.

(** An array of at most five strings. *)
Definition bounded_string_array (v : value) : bool :=
  match v with
  | VArr l => (length l <=? 5) && forallb is_string l
  | _ => false
  end.

Definition own_keys (v : value) : list jstring :=
  match v with VObj props => map fst props | _ => [] end.

(** The indexer schema, met exactly: an object with the six fields and no
    other, non-empty strings and arrays of at most five strings. *)
Definition matches_schema (v : value) : bool :=
  match v with
  | VObj _ =>
      forallb (fun k => existsb (jstring_eqb k) (map str the_fields)) (own_keys v)
      && nonempty_string (prop "projectName" v)
      && nonempty_string (prop "description" v)
      && bounded_string_array (prop "techStack" v)
      && bounded_string_array (prop "features" v)
      && bounded_string_array (prop "structure" v)
      && nonempty_string (prop "readme" v)
  | _ => false
  end.

(** Two objects with the same own properties, whatever their order. *)
Definition same_object (a b : value) : Prop :=
  match a, b with
  | VObj pa, VObj pb => forall k, lookup k pa = lookup k pb
  | _, _ => False
  end.

(** The bounds the prompt of [analyzeWithAI] declares for the string
    fields: description max 100 chars, readme max 800 chars. *)
Definition description_max : nat := 100.
Definition readme_max : nat := 800.

Definition string_length (v : value) : nat :=
  match v with VStr s => length s | _ => 0 end.

Definition array_length (v : value) : nat :=
  match v with VArr l => length l | _ => 0 end.

(** The three string fields of a result are non-empty strings. *)
Definition strings_nonempty (v : value) : bool :=
  nonempty_string (prop "projectName" v) && nonempty_string (prop "description" v)
  && nonempty_string (prop "readme" v).

(** [a || b || ... || d] on values already computed. *)
Fixpoint first_truthy (l : list value) (d : value) : value :=
  match l with
  | [] => d
  | x :: l' => if truthy x then x else first_truthy l' d
  end.

(** What [validateAndNormalize] returns when no property read throws. *)
Definition normalized (parsed repoInfo : value) : value :=
  object
    [field "projectName"
       (String_ (first_truthy [prop "projectName" parsed; prop "name" repoInfo;
                               prop "path" repoInfo] (VStr (str "Unknown"))));
     field "description"
       (String_ (first_truthy [prop "description" parsed; prop "description" repoInfo]
                              (VStr (str "A software project."))));
     field "techStack" (bounded_strings (prop "techStack" parsed));
     field "features" (bounded_strings (prop "features" parsed));
     field "structure" (bounded_strings (prop "structure" parsed));
     field "readme"
       (String_ (first_truthy [prop "readme" parsed]
          (VStr (str "# "
                 ++ to_string (first_truthy [prop "projectName" parsed] (prop "name" repoInfo))
                 ++ [Ch.lf; Ch.lf]
                 ++ to_string (first_truthy [prop "description" parsed] (VStr []))))))].

(** The two values [extractPartialData] prints into its default readme
    can be printed. *)
Definition printable_context (repoInfo : value) : bool :=
  printable (first_truthy [prop "name" repoInfo; prop "path" repoInfo] (VStr (str "Project")))
  && printable (first_truthy [prop "description" repoInfo] (VStr (str "A software project."))).

(** What the prompt prints for a tree entry: its path, or else its name. *)
Definition entry_name (f : value) : value :=
  first_truthy [prop "path" f] (prop "name" f).

(** The defaults [extractPartialData] starts from. *)
Definition default_name (repoInfo : value) : value :=
  first_truthy [prop "name" repoInfo; prop "path" repoInfo] (VStr (str "Unknown Project")).

Definition default_description (repoInfo : value) : value :=
  first_truthy [prop "description" repoInfo] (VStr (str "Repository analysis completed.")).

Definition default_readme (repoInfo : value) : value :=
  VStr (str "# "
        ++ to_string (first_truthy [prop "name" repoInfo; prop "path" repoInfo]
                                   (VStr (str "Project")))
        ++ [Ch.lf; Ch.lf]
        ++ to_string (first_truthy [prop "description" repoInfo]
                                   (VStr (str "A software project.")))).

(** The first four language names of the context, when it has languages. *)
Definition language_names (repoInfo : value) : list value :=
  if truthy (prop "languages" repoInfo)
  then firstn 4 (keys (prop "languages" repoInfo)) else [].

(** What [extractPartialData] returns when no property read throws. *)
Definition extracted (content : jstring) (repoInfo : value) : value :=
  object [field "projectName"
            (match exec (Re.scalar "projectName") content with
             | Some m => VStr (m_group m)
             | None => default_name repoInfo
             end);
          field "description"
            (match exec (Re.scalar "description") content with
             | Some m => VStr (m_group m)
             | None => default_description repoInfo
             end);
          field "techStack"
            (VArr (match extractArray content "techStack" with
                   | [] => language_names repoInfo
                   | l => l
                   end));
          field "features" (VArr (extractArray content "features"));
          field "structure" (VArr (extractArray content "structure"));
          field "readme"
            (match exec Re.readme content with
             | Some m => VStr (replace_all Re.escaped_quote [Ch.quote]
                                 (replace_all Re.escaped_n [Ch.lf] (m_group m)))
             | None => default_readme repoInfo
             end)].

(** ** Specification-level notions for the parsers, the request and the notifier *)

(** The pieces of a pattern matched one after the other, without any
    search order: [pieces_match ps s groups s'] says that [ps] matches the
    part of [s] in front of [s'] and captures [groups]. *)
Inductive pieces_match : list (bool * regex) -> jstring -> list jstring -> jstring -> Prop :=
| PM_nil s : pieces_match [] s [] s
| PM_cons (captured : bool) r ps w s s1 groups s2 :
    s = w ++ s1 -> matches r s s1 -> pieces_match ps s1 groups s2 ->
    pieces_match ((captured, r) :: ps) s (if captured then w :: groups else groups) s2.

(** [s] without a final [.git]. *)
Fixpoint strip_dot_git (s : jstring) : jstring :=
  match s with
  | [] => []
  | c :: s' => if jstring_eqb s (str ".git") then [] else c :: strip_dot_git s'
  end.

(** A text that stops a run of [p]: empty, or starting outside [p]. *)
Definition stops (p : N -> bool) (s : jstring) : Prop :=
  match s with
  | [] => True
  | c :: _ => p c = false
  end.

Definition g_letter : N := 103%N.

(** The host a parsed URL names. *)
Definition host (p : platform) : jstring :=
  match p with
  | github => str "github.com/"
  | gitlab => str "gitlab.com/"
  end.

(** What separates the project from the number in a merge-request URL. *)
Definition mr_separator (p : platform) : jstring :=
  match p with
  | github => str "/pull/"
  | gitlab => str "/-/merge_requests/"
  end.

(** The three array fields of a result are arrays of at most five
    strings. *)
Definition arrays_bounded (v : value) : bool :=
  bounded_string_array (prop "techStack" v)
  && bounded_string_array (prop "features" v)
  && bounded_string_array (prop "structure" v).

(** An item as the item pattern matches it: a non-empty text free of
    quotes between two quotes. *)
Definition quoted_item (m : jstring) : Prop :=
  exists body, m = [Ch.quote] ++ body ++ [Ch.quote] /\ body <> [] /\ free_of [Ch.quote] body.

(** A string the regex stage took out of an array text. *)
Definition extracted_item (v : value) : Prop :=
  exists body, v = VStr body /\ body <> [] /\ free_of [Ch.quote] body.

(** The exceptions [analyzeWithAI] raises by itself, apart from the one
    for the status of the gateway. *)
Definition analysis_errors : list exn :=
  [Error (str "LOVABLE_API_KEY is not configured");
   Error (str "AI analysis timed out. Repository may be too large.");
   Error (str "No response from AI");
   TypeError; SyntaxError].

(** A text in which every reserved unit stands behind a backslash that
    escapes it. *)
Inductive well_escaped : jstring -> Prop :=
| WE_nil : well_escaped []
| WE_plain c s : markdown_special c = false -> well_escaped s -> well_escaped (c :: s)
| WE_escaped c s : well_escaped s -> well_escaped (Ch.backslash :: c :: s).

(** ** Concrete inputs *)

Module Sample.

Definition five : value := VNum (Number false [5%N] 1).

(** A context as [serve] builds it for a GitHub repository. *)
Definition context : value :=
  object [field "name" (VStr (str "repo")); field "description" VNull;
          field "tree" (VArr []);
          field "languages" (object [field "TypeScript" five; field "CSS" five]);
          field "packageJson" VNull].

(** The same repository when the languages call did not succeed. *)
Definition bare_context : value :=
  object [field "name" (VStr (str "repo")); field "description" VNull;
          field "tree" (VArr []); field "languages" (VObj []);
          field "packageJson" VNull].

Definition scenario_A : jstring :=
  strq "{'projectName':'Foo','description':'A tool','techStack':['TS'],'features':[],'structure':[],'readme':'# Foo'}".

Definition scenario_A_parsed : value :=
  object [field "projectName" (VStr (str "Foo")); field "description" (VStr (str "A tool"));
          field "techStack" (VArr [VStr (str "TS")]); field "features" (VArr []);
          field "structure" (VArr []); field "readme" (VStr (str "# Foo"))].

Definition scenario_C : jstring :=
  strq "{'projectName':'Foo','description':'incomplete string with no clos".

Definition scenario_D : jstring :=
  strq "Here is your analysis: projectName is 'Foo' and techStack includes 'TS', 'React'".

(** A well-formed completion that matches the schema and whose readme
    holds a fenced block. *)
Definition fenced_readme : jstring :=
  strq "{'projectName':'Foo','description':'A tool','techStack':[],'features':[],'structure':[],'readme':'```sh```'}".

Definition fenced_readme_parsed : value :=
  object [field "projectName" (VStr (str "Foo")); field "description" (VStr (str "A tool"));
          field "techStack" (VArr []); field "features" (VArr []);
          field "structure" (VArr []); field "readme" (VStr (str "```sh```"))].

(** A parsed completion whose description is one unit over the declared
    maximum. *)
Definition long_description : value :=
  object [field "projectName" (VStr (str "Foo"));
          field "description" (VStr (repeat 97%N (S description_max)))].

(** The parsed completion [{description: []}]. *)
Definition empty_array_description : value :=
  object [field "description" (VArr [])].

(** The parsed completion [{projectName: Foo}]: the model produced no
    tech stack. *)
Definition no_tech_stack : value :=
  object [field "projectName" (VStr (str "Foo"))].

Definition ok_response (text : jstring) : response := Response true 200 text.

(** GitHub answers every call with 200; the manifest, base64 for the
    four units of an opening brace followed by bad, is not JSON. *)
Definition github_bad_manifest : provider :=
  Provider (ok_response (strq "{'name':'repo','description':null}"))
           (ok_response (strq "{'tree':[]}"))
           (ok_response (strq "{'TypeScript':5}"))
           (ok_response (strq "{'content':'e2JhZA=='}")).

(** GitLab answers every call with 200; the raw manifest is the same
    four units. *)
Definition gitlab_bad_manifest : provider :=
  Provider (ok_response (strq "{'name':'repo','path_with_namespace':'group/repo'}"))
           (ok_response (strq "[]"))
           (ok_response (strq "{'TypeScript':100}"))
           (ok_response (str "{bad")).

(** A provider whose secondary calls all fail with 404. *)
Definition secondary_down : provider :=
  Provider (ok_response (strq "{'name':'repo'}"))
           (Response false 404 (str "Not Found"))
           (Response false 404 (str "Not Found"))
           (Response false 404 (str "Not Found")).

(** A provider whose metadata call fails with 404. *)
Definition primary_down : provider :=
  Provider (Response false 404 (str "Not Found"))
           (ok_response (strq "[]")) (ok_response (strq "{}")) (ok_response (strq "{}")).

End Sample.

(** ** Concrete inputs for the URL parsers, the fetchers and the handler *)

Module Cases.

Definition scheme : jstring := str "https://".

(** A context whose tree holds a [null] entry. *)
Definition tree_with_null : value :=
  object [field "name" (VStr (str "repo"));
          field "tree" (VArr [object [field "path" (VStr (str "src"))]; VNull])].

(** A context whose name is an object with an own [toString] property,
    as the JSON text [{name:{toString:1}}] gives it. *)
Definition unprintable_context : value :=
  object [field "name" (object [field "toString" (VNum (Number false [1%N] 1))])].

(** A truncated completion with a tech stack and no other array. *)
Definition partial_completion : jstring := strq "{'techStack':['TS','React'],'features':['a".

(** The gateway answers with a completion that holds the project name. *)
Definition completion_response : response :=
  Sample.ok_response (strq "{'choices':[{'message':{'content':'{\'projectName\':\'Foo\'}'}}]}").

Definition gateway_up : jstring -> jstring -> reply := fun _ _ => Answer completion_response.

(** The gateway answers every request with status 429. *)
Definition gateway_busy : jstring -> jstring -> reply :=
  fun _ _ => Answer (Response false 429 []).

Definition world_up : Indexer.world :=
  Indexer.World (Some (str "key")) (fun _ _ => Sample.secondary_down) gateway_up.

(** No key, a provider whose first call fails, a busy gateway. *)
Definition world_down : Indexer.world :=
  Indexer.World None (fun _ _ => Sample.primary_down) gateway_busy.

Definition post (text : jstring) : Indexer.request := Indexer.Request (str "POST") text.

Definition index_request : Indexer.request :=
  post (strq "{'repoUrl':'https://github.com/owner/repo'}").

Definition index_request_body : value :=
  object [field "repoUrl" (VStr (str "https://github.com/owner/repo"))].

Definition empty_request : Indexer.request := post (strq "{}").

(** A review provider whose first call fails with 404. *)
Definition review_down : review_provider :=
  ReviewProvider (Response false 404 (str "Not Found"))
                 (Sample.ok_response (strq "[]")) (Sample.ok_response (strq "[]")).

(** A review provider whose secondary calls fail with 404. *)
Definition review_secondary_down : review_provider :=
  ReviewProvider (Sample.ok_response (strq "{'title':'T'}"))
                 (Response false 404 (str "Not Found"))
                 (Response false 404 (str "Not Found")).

Definition review_of (name : string) (summary : string) : StoredReview :=
  {| id := str name; mrUrl := str "https://github.com/owner/repo/pull/1";
     mrTitle := str "T"; author := str "A"; status_of := str "passed";
     issueCount := Number false [] 0; reviewedAt := str "2024-01-01";
     summary := str summary |}.

End Cases.

(** * Properties *)

Lemma jstring_eqb_eq a b : jstring_eqb a b = true <-> a = b.
Proof. unfold jstring_eqb. destruct (list_eq_dec N.eq_dec a b); split; congruence. Qed.

Lemma jstring_eqb_refl a : jstring_eqb a a = true.
Proof. apply jstring_eqb_eq. reflexivity. Qed.

(** ** The matcher against the declarative semantics *)

Lemma matches_suffix r s s' : matches r s s' -> exists w, s = w ++ s'.
Proof.
  induction 1.
  - exists []. reflexivity.
  - exists [c]. reflexivity.
  - destruct IHmatches1 as [w1 ->]. destruct IHmatches2 as [w2 ->].
    exists (w1 ++ w2). now rewrite app_assoc.
  - assumption.
  - assumption.
  - exists []. reflexivity.
  - destruct IHmatches1 as [w1 ->]. destruct IHmatches2 as [w2 ->].
    exists (w1 ++ w2). now rewrite app_assoc.
  - exists []. reflexivity.
Qed.

Section MatcherFacts.
Variable R : Type.
Implicit Types (k : jstring -> option R) (s : jstring).

Lemma star_loop_ext g (mr : jstring -> (jstring -> option R) -> option R) :
  (forall s k1 k2, (forall s', k1 s' = k2 s') -> mr s k1 = mr s k2) ->
  forall n s k1 k2, (forall s', k1 s' = k2 s') ->
    star_loop g mr k1 n s = star_loop g mr k2 n s.
Proof.
  intros Hmr n. induction n as [|n IH]; intros s k1 k2 Hk; simpl.
  - rewrite (Hk s). reflexivity.
  - rewrite (Hk s).
    rewrite (Hmr s _ (fun s' => if length s' <? length s
                                then star_loop g mr k2 n s' else None)).
    + reflexivity.
    + intros s'. destruct (length s' <? length s); [apply IH; assumption | reflexivity].
Qed.

Lemma rmatch_ext r : forall s k1 k2,
    (forall s', k1 s' = k2 s') -> rmatch r s k1 = rmatch r s k2.
Proof.
  induction r as [|p|r1 IH1 r2 IH2|r1 IH1 r2 IH2|g r IH|]; intros s k1 k2 Hk; simpl.
  - apply Hk.
  - destruct s as [|c s]; [reflexivity|]. destruct (p c); [apply Hk | reflexivity].
  - apply IH1. intros s'. apply IH2. assumption.
  - rewrite (IH1 s _ _ Hk), (IH2 s _ _ Hk). reflexivity.
  - apply star_loop_ext; assumption.
  - destruct s; [apply Hk | reflexivity].
Qed.

Lemma rmatch_sound r : forall s k x,
    rmatch r s k = Some x -> exists s', matches r s s' /\ k s' = Some x.
Proof.
  induction r as [|p|r1 IH1 r2 IH2|r1 IH1 r2 IH2|g r IH|]; intros s k x H; simpl in H.
  - exists s. split; [constructor | assumption].
  - destruct s as [|c s]; [discriminate|]. destruct (p c) eqn:E; [|discriminate].
    exists s. split; [constructor; assumption | assumption].
  - apply IH1 in H. destruct H as (s1 & M1 & H). apply IH2 in H. destruct H as (s2 & M2 & H).
    exists s2. split; [econstructor; eassumption | assumption].
  - destruct (rmatch r1 s k) eqn:E.
    + injection H as ->. apply IH1 in E. destruct E as (s' & M & E').
      exists s'. split; [apply M_AltL; assumption | assumption].
    + apply IH2 in H. destruct H as (s' & M & E').
      exists s'. split; [apply M_AltR; assumption | assumption].
  - remember (length s) as n eqn:Hn. clear Hn. revert s x H.
    induction n as [|n IHn]; intros s x H; simpl in H.
    + exists s. split; [constructor|]. destruct g; [assumption|].
      destruct (k s); [assumption | discriminate].
    + assert (Hmore : forall y,
                 rmatch r s (fun s' => if length s' <? length s
                                       then star_loop g (rmatch r) k n s' else None) = Some y ->
                 exists s', matches (Star g r) s s' /\ k s' = Some y).
      { intros y Hy. apply IH in Hy. destruct Hy as (s1 & M1 & Hy).
        destruct (length s1 <? length s) eqn:E; [|discriminate].
        apply Nat.ltb_lt in E. apply IHn in Hy. destruct Hy as (s2 & M2 & Hy).
        exists s2. split; [eapply M_StarCons; eassumption | assumption]. }
      destruct g.
      * destruct (rmatch r s _) eqn:E.
        -- injection H as ->. apply Hmore. reflexivity.
        -- exists s. split; [constructor | assumption].
      * destruct (k s) eqn:Ek.
        -- injection H as ->. exists s. split; [constructor | assumption].
        -- apply Hmore. assumption.
  - destruct s; [|discriminate]. exists []. split; [constructor | assumption].
Qed.

Lemma rmatch_fail r s k : (forall s', k s' = None) -> rmatch r s k = None.
Proof.
  intros Hk. destruct (rmatch r s k) eqn:E; [|reflexivity].
  apply rmatch_sound in E. destruct E as (s' & _ & E). rewrite Hk in E. discriminate.
Qed.

(** The counter of a repetition is never what stops it. *)
Lemma star_loop_fuel g r k : forall n m s,
    length s <= n -> length s <= m ->
    star_loop g (rmatch (R:=R) r) k n s = star_loop g (rmatch r) k m s.
Proof.
  induction n as [|n IH]; intros m s Hn Hm.
  - destruct s; [|simpl in Hn; lia]. destruct m; simpl.
    + reflexivity.
    + rewrite rmatch_fail; [reflexivity | reflexivity].
  - destruct m as [|m].
    + destruct s; [|simpl in Hm; lia]. simpl.
      rewrite rmatch_fail; [reflexivity | reflexivity].
    + simpl.
      rewrite (@rmatch_ext r s _ (fun s' => if length s' <? length s
                                           then star_loop g (rmatch r) k m s' else None)).
      * reflexivity.
      * intros s'. destruct (length s' <? length s) eqn:E; [|reflexivity].
        apply Nat.ltb_lt in E. apply IH; lia.
Qed.

Lemma rmatch_complete r s s' : matches r s s' ->
  forall k, k s' <> None -> rmatch r s k <> None.
Proof.
  induction 1; intros k Hk; simpl.
  - assumption.
  - rewrite H. assumption.
  - apply IHmatches1. apply IHmatches2. assumption.
  - specialize (IHmatches k Hk). destruct (rmatch r1 s k); [discriminate | contradiction].
  - destruct (rmatch r1 s k); [discriminate | apply IHmatches; assumption].
  - destruct (length s); simpl.
    + destruct g; [assumption | destruct (k s); [discriminate | contradiction]].
    + destruct g.
      * destruct (rmatch r s _); [discriminate | assumption].
      * destruct (k s); [discriminate | contradiction].
  - destruct (length s) as [|n] eqn:En; [lia|]. simpl.
    assert (Hmore : rmatch r s (fun s' => if length s' <? length s
                                 then star_loop g (rmatch r) k n s' else None) <> None).
    { apply IHmatches1. rewrite En.
      destruct (length s1 <? S n) eqn:E; [|apply Nat.ltb_ge in E; lia].
      rewrite (@star_loop_fuel g r k n (length s1) s1); [|lia|lia].
      apply (IHmatches2 k Hk). }
    destruct g.
    + destruct (rmatch r s _); [discriminate | contradiction].
    + destruct (k s); [discriminate | assumption].
  - assumption.
Qed.

(** The greedy star as ECMAScript defines it: one more iteration that
    makes progress, else the continuation. *)
Lemma rmatch_star_greedy r s k :
  rmatch (Star true r) s k =
  match rmatch r s (fun s' => if length s' <? length s
                              then rmatch (Star true r) s' k else None) with
  | Some x => Some x
  | None => k s
  end.
Proof.
  simpl. destruct (length s) as [|n] eqn:En; simpl.
  - destruct (rmatch r s _) eqn:E; [|reflexivity].
    apply rmatch_sound in E. destruct E as (s' & _ & E). discriminate.
  - rewrite En.
    rewrite (@rmatch_ext r s _ (fun s' => if length s' <? S n
                                        then star_loop true (rmatch r) k (length s') s'
                                        else None)); [reflexivity|].
    intros s'. destruct (length s' <? S n) eqn:E; [|reflexivity].
    apply Nat.ltb_lt in E. apply star_loop_fuel; lia.
Qed.

Lemma rmatch_star_lazy r s k :
  rmatch (Star false r) s k =
  match k s with
  | Some x => Some x
  | None => rmatch r s (fun s' => if length s' <? length s
                                  then rmatch (Star false r) s' k else None)
  end.
Proof.
  simpl. destruct (length s) as [|n] eqn:En; simpl.
  - destruct (k s); [reflexivity|].
    destruct (rmatch r s _) eqn:E; [|reflexivity].
    apply rmatch_sound in E. destruct E as (s' & _ & E). discriminate.
  - rewrite En. destruct (k s); [reflexivity|].
    apply rmatch_ext.
    intros s'. destruct (length s' <? S n) eqn:E; [|reflexivity].
    apply Nat.ltb_lt in E. apply star_loop_fuel; lia.
Qed.
End MatcherFacts.

(** ** The heuristic of [repairTruncatedJson] *)

Lemma matches_any_star g pre t : matches (Star g any) (pre ++ t) t.
Proof.
  induction pre as [|c pre IH]; simpl.
  - constructor.
  - eapply M_StarCons; [constructor; reflexivity | simpl; lia | exact IH].
Qed.

Lemma dotstar_cons R c s (k : jstring -> option R) :
  rmatch (Star true any) (c :: s) k =
  match rmatch (Star true any) s k with Some x => Some x | None => k (c :: s) end.
Proof.
  rewrite rmatch_star_greedy. cbn [rmatch any]. cbv beta.
  replace (length s <? length (c :: s)) with true; [reflexivity|].
  symmetry. apply Nat.ltb_lt. simpl. lia.
Qed.

Lemma dotstar_nil R (k : jstring -> option R) : rmatch (Star true any) [] k = k [].
Proof. reflexivity. Qed.

(** The greedy [.*] hands over the shortest rest that lets the
    continuation succeed. *)
Lemma dotstar_priority R (k : jstring -> option R) : forall s x,
    rmatch (Star true any) s k = Some x ->
    exists pre rest, s = pre ++ rest /\ k rest = Some x /\
      forall pre' rest', s = pre' ++ rest' -> length pre < length pre' -> k rest' = None.
Proof.
  induction s as [|c s IH]; intros x H.
  - rewrite dotstar_nil in H. exists [], []. repeat split; [assumption|].
    intros pre' rest' E L. destruct pre'; [simpl in L; lia | discriminate].
  - rewrite dotstar_cons in H. destruct (rmatch (Star true any) s k) eqn:E.
    + injection H as ->. destruct (IH x eq_refl) as (pre & rest & -> & Hk & Hmax).
      exists (c :: pre), rest. repeat split; [assumption|].
      intros pre' rest' E' L. destruct pre' as [|c' pre']; [simpl in L; lia|].
      injection E' as -> E'. apply (Hmax pre' rest' E'). simpl in L. lia.
    + exists [], (c :: s). repeat split; [assumption|].
      intros pre' rest' E' L. destruct pre' as [|c' pre']; [simpl in L; lia|].
      injection E' as -> E'.
      destruct (k rest') eqn:Ek; [|reflexivity].
      exfalso. subst s.
      apply (rmatch_complete (matches_any_star true pre' rest') k); [|exact E].
      rewrite Ek. discriminate.
Qed.

Lemma matches_seq_inv r1 r2 s s2 :
  matches (Seq r1 r2) s s2 -> exists s1, matches r1 s s1 /\ matches r2 s1 s2.
Proof. inversion 1; subst. eauto. Qed.

Lemma matches_end_inv s s' : matches End s s' -> s = [] /\ s' = [].
Proof. inversion 1; subst. split; reflexivity. Qed.

Lemma matches_dangling_end s s' : matches Re.dangling s s' -> s' = [].
Proof.
  unfold Re.dangling, seqs. intros H.
  repeat (apply matches_seq_inv in H; destruct H as (? & _ & H)).
  apply matches_end_inv in H. apply H.
Qed.

Lemma match_here_last_complete s :
  match_here Re.last_complete s =
  rmatch (Star true any) s (fun t =>
  rmatch Re.complete_pair t (fun s2 =>
  rmatch Re.dangling s2 (fun s3 => Some (s, s2, s3)))).
Proof. reflexivity. Qed.

Lemma split_matches_here s pre kv d :
  heuristic_match s pre kv d -> match_here Re.last_complete s <> None.
Proof.
  intros (-> & Hkv & Hd). rewrite match_here_last_complete.
  apply (rmatch_complete (matches_any_star true pre (kv ++ d))).
  apply (rmatch_complete Hkv). apply (rmatch_complete Hd). discriminate.
Qed.

Lemma match_here_split s s1 s2 s3 :
  match_here Re.last_complete s = Some (s1, s2, s3) ->
  exists pre kv,
    s1 = s /\ s3 = [] /\ heuristic_match s pre kv s2 /\
    (forall pre' kv' d', heuristic_match s pre' kv' d' -> length pre' <= length pre).
Proof.
  rewrite match_here_last_complete. intros H.
  apply dotstar_priority in H. destruct H as (pre & rest & -> & H & Hmax).
  apply rmatch_sound in H. destruct H as (s2' & Hkv & H).
  apply rmatch_sound in H. destruct H as (s3' & Hd & H).
  injection H as <- <- <-.
  destruct (matches_suffix Hkv) as (kv & ->).
  pose proof (matches_dangling_end Hd) as ->.
  exists pre, kv. repeat split; try assumption.
  intros pre' kv' d' (E & Hkv' & Hd').
  destruct (Nat.le_gt_cases (length pre') (length pre)) as [L|L]; [assumption|].
  exfalso. specialize (Hmax pre' (kv' ++ d') E L). revert Hmax.
  apply (rmatch_complete Hkv'). apply (rmatch_complete Hd'). discriminate.
Qed.

Lemma search_unfold p i s :
  search p i s =
  match match_here p s with
  | Some (s1, s2, s3) =>
      Some (MatchResult i (firstn (length s - length s3) s)
                        (firstn (length s1 - length s2) s1) s3)
  | None => match s with
            | [] => None
            | _ :: s' => search p (S i) s'
            end
  end.
Proof. destruct s; reflexivity. Qed.

Lemma search_none p s i : search p i s = None -> match_here p s = None.
Proof.
  rewrite search_unfold. destruct (match_here p s) as [[[? ?] ?]|]; [discriminate | reflexivity].
Qed.

Lemma search_some_split : forall s i m,
    search Re.last_complete i s = Some m -> exists pre kv d, heuristic_match s pre kv d.
Proof.
  induction s as [|c s IH]; intros i m H; rewrite search_unfold in H;
    destruct (match_here Re.last_complete _) as [[[s1 s2] s3]|] eqn:E.
  - apply match_here_split in E. destruct E as (pre & kv & _ & _ & Hs & _). eauto.
  - discriminate.
  - apply match_here_split in E. destruct E as (pre & kv & _ & _ & Hs & _). eauto.
  - apply IH in H. destruct H as (pre & kv & d & -> & Hkv & Hd).
    exists (c :: pre), kv, d. repeat split; assumption.
Qed.

(** Step (a): what [repairTruncatedJson] keeps after its first pattern. *)
Lemma exec_last_complete s :
  cut_at_last_match s
    (match exec Re.last_complete s with Some m => m_group m | None => s end).
Proof.
  unfold exec. destruct (search Re.last_complete 0 s) as [m|] eqn:E.
  - left. pose proof (search_some_split _ _ E) as (pre0 & kv0 & d0 & Hs0).
    pose proof (split_matches_here Hs0) as Hne.
    rewrite search_unfold in E.
    destruct (match_here Re.last_complete s) as [[[s1 s2] s3]|] eqn:Eh; [|contradiction].
    injection E as <-.
    apply match_here_split in Eh. destruct Eh as (pre & kv & -> & -> & Hs & Hmax).
    exists pre, kv, s2. split; [exact Hs|]. split; [|exact Hmax].
    cbn [m_group]. destruct Hs as (-> & _ & _).
    rewrite !length_app.
    replace (length pre + (length kv + length s2) - length s2) with (length (pre ++ kv))
      by (rewrite length_app; lia).
    rewrite app_assoc. rewrite firstn_app, firstn_all, Nat.sub_diag. simpl.
    now rewrite app_nil_r.
  - right. split; [reflexivity|]. intros pre kv d Hs.
    apply (split_matches_here Hs). eapply search_none. eassumption.
Qed.

(** ** The heuristic in terms of texts *)

Lemma matches_eps_iff s s' : matches Eps s s' <-> s = s'.
Proof. split; [inversion 1; reflexivity | intros ->; constructor]. Qed.

Lemma matches_chr_iff p s s' : matches (Chr p) s s' <-> exists c, s = c :: s' /\ p c = true.
Proof.
  split.
  - inversion 1; subst. eauto.
  - intros (c & -> & H). constructor. assumption.
Qed.

Lemma matches_lit_iff c s s' : matches (lit c) s s' <-> s = c :: s'.
Proof.
  unfold lit. rewrite matches_chr_iff. split.
  - intros (x & -> & H). apply N.eqb_eq in H. now subst.
  - intros ->. exists c. split; [reflexivity | apply N.eqb_refl].
Qed.

Lemma matches_seq_iff r1 r2 s s2 :
  matches (Seq r1 r2) s s2 <-> exists s1, matches r1 s s1 /\ matches r2 s1 s2.
Proof.
  split.
  - inversion 1; subst. eauto.
  - intros (s1 & H1 & H2). econstructor; eassumption.
Qed.

Lemma matches_alt_iff r1 r2 s s' :
  matches (Alt r1 r2) s s' <-> matches r1 s s' \/ matches r2 s s'.
Proof.
  split.
  - inversion 1; subst; tauto.
  - intros [H|H]; [apply M_AltL | apply M_AltR]; assumption.
Qed.

Lemma matches_end_iff s s' : matches End s s' <-> s = [] /\ s' = [].
Proof. split; [inversion 1; auto | intros [-> ->]; constructor]. Qed.

Lemma matches_star_chr_iff g p s s' :
  matches (Star g (Chr p)) s s' <-> exists w, s = w ++ s' /\ forallb p w = true.
Proof.
  split.
  - intros H. remember (Star g (Chr p)) as r eqn:Er.
    induction H; try discriminate.
    + exists []. split; reflexivity.
    + injection Er as -> ->. apply matches_chr_iff in H. destruct H as (c & -> & Hc).
      destruct (IHmatches2 eq_refl) as (w & -> & Hw).
      exists (c :: w). split; [reflexivity|]. simpl. now rewrite Hc, Hw.
  - intros (w & -> & Hw). induction w as [|c w IH]; simpl in *.
    + constructor.
    + apply andb_prop in Hw. destruct Hw as [Hc Hw].
      eapply M_StarCons; [constructor; exact Hc | simpl; lia | exact (IH Hw)].
Qed.

Lemma matches_plus_chr_iff p s s' :
  matches (plus (Chr p)) s s' <-> exists w, s = w ++ s' /\ w <> [] /\ forallb p w = true.
Proof.
  unfold plus. rewrite matches_seq_iff. split.
  - intros (s1 & H1 & H2). apply matches_chr_iff in H1. destruct H1 as (c & -> & Hc).
    apply matches_star_chr_iff in H2. destruct H2 as (w & -> & Hw).
    exists (c :: w). split; [reflexivity|]. split; [discriminate|]. simpl. now rewrite Hc, Hw.
  - intros (w & -> & Hne & Hw). destruct w as [|c w]; [contradiction|].
    simpl in Hw. apply andb_prop in Hw. destruct Hw as [Hc Hw].
    exists (w ++ s'). split; [constructor; exact Hc|].
    apply matches_star_chr_iff. exists w. split; [reflexivity | exact Hw].
Qed.

Lemma matches_word_iff w s s' : matches (word w) s s' <-> s = w ++ s'.
Proof.
  revert s. induction w as [|c w IH]; intros s; simpl.
  - apply matches_eps_iff.
  - rewrite matches_seq_iff. split.
    + intros (s1 & H1 & H2). apply matches_lit_iff in H1. apply IH in H2. now subst.
    + intros ->. exists (w ++ s'). split; [now apply matches_lit_iff | now apply IH].
Qed.

Lemma matches_opt_lit_iff c s s' :
  matches (opt (lit c)) s s' <-> exists q, s = q ++ s' /\ (q = [] \/ q = [c]).
Proof.
  unfold opt. rewrite matches_alt_iff, matches_lit_iff, matches_eps_iff. split.
  - intros [-> | ->]; [exists [c] | exists []]; auto.
  - intros (q & -> & [-> | ->]); auto.
Qed.

Ltac list_eq := repeat (progress (cbn [app]; rewrite <- ?app_assoc)); reflexivity.

Lemma complete_value_matches s s' :
  matches Re.complete_value s s' <-> exists val, s = val ++ s' /\ complete_value val.
Proof.
  unfold Re.complete_value, seqs.
  rewrite !matches_alt_iff. split.
  - intros [H|[H|[H|[H|[H|H]]]]].
    + apply matches_seq_iff in H. destruct H as (s1 & H1 & H).
      apply matches_seq_iff in H. destruct H as (s2 & H2 & H3).
      apply matches_lit_iff in H1, H3. apply matches_star_chr_iff in H2.
      destruct H2 as (body & -> & Hb). subst.
      exists ([Ch.lbracket] ++ body ++ [Ch.rbracket]). split.
      * list_eq.
      * constructor. exact Hb.
    + apply matches_seq_iff in H. destruct H as (s1 & H1 & H).
      apply matches_seq_iff in H. destruct H as (s2 & H2 & H3).
      apply matches_lit_iff in H1, H3. apply matches_star_chr_iff in H2.
      destruct H2 as (body & -> & Hb). subst.
      exists ([Ch.quote] ++ body ++ [Ch.quote]). split.
      * list_eq.
      * constructor. exact Hb.
    + apply matches_word_iff in H. eexists. split; [exact H | constructor].
    + apply matches_word_iff in H. eexists. split; [exact H | constructor].
    + apply matches_word_iff in H. eexists. split; [exact H | constructor].
    + apply matches_plus_chr_iff in H. destruct H as (w & -> & Hne & Hw).
      exists w. split; [reflexivity | now constructor].
  - intros (val & -> & Hv). destruct Hv as [body Hb|body Hb| | | |w Hne Hw].
    + left. apply matches_seq_iff. exists (body ++ Ch.rbracket :: s').
      split; [apply matches_lit_iff; list_eq|].
      apply matches_seq_iff. exists (Ch.rbracket :: s'). split.
      * apply matches_star_chr_iff. exists body. split; [reflexivity | exact Hb].
      * now apply matches_lit_iff.
    + right. left. apply matches_seq_iff. exists (body ++ Ch.quote :: s').
      split; [apply matches_lit_iff; list_eq|].
      apply matches_seq_iff. exists (Ch.quote :: s'). split.
      * apply matches_star_chr_iff. exists body. split; [reflexivity | exact Hb].
      * now apply matches_lit_iff.
    + right. right. left. now apply matches_word_iff.
    + right. right. right. left. now apply matches_word_iff.
    + right. right. right. right. left. now apply matches_word_iff.
    + right. right. right. right. right. apply matches_plus_chr_iff. eauto.
Qed.

Ltac seq_inv H s1 H1 :=
  apply matches_seq_iff in H; destruct H as (s1 & H1 & H).

Lemma complete_pair_matches s d :
  matches Re.complete_pair s d <-> exists kv, s = kv ++ d /\ complete_property kv.
Proof.
  unfold Re.complete_pair, seqs. split.
  - intros H.
    seq_inv H s1 H1. seq_inv H s2 H2. seq_inv H s3 H3. seq_inv H s4 H4.
    seq_inv H s5 H5. seq_inv H s6 H6. seq_inv H s7 H7. seq_inv H s8 H8.
    apply matches_lit_iff in H1, H3, H5.
    apply matches_plus_chr_iff in H2. destruct H2 as (key & E2 & Hne & Hkey).
    apply matches_star_chr_iff in H4, H6, H8.
    destruct H4 as (w1 & E4 & Hw1), H6 as (w2 & E6 & Hw2), H8 as (w3 & E8 & Hw3).
    apply complete_value_matches in H7. destruct H7 as (val & E7 & Hval).
    apply matches_opt_lit_iff in H. destruct H as (c & E9 & Hc).
    exists ([Ch.quote] ++ key ++ [Ch.quote] ++ w1 ++ [Ch.colon] ++ w2 ++ val ++ w3 ++ c).
    split.
    + subst. list_eq.
    + exists key, w1, w2, val, w3, c. repeat split; assumption.
  - intros (kv & -> & key & w1 & w2 & val & w3 & c & -> & Hne & Hkey & Hw1 & Hw2 & Hval & Hw3 & Hc).
    apply M_Seq with (s1 := key ++ Ch.quote :: w1 ++ Ch.colon :: w2 ++ val ++ w3 ++ c ++ d).
    { apply matches_lit_iff. list_eq. }
    apply M_Seq with (s1 := Ch.quote :: w1 ++ Ch.colon :: w2 ++ val ++ w3 ++ c ++ d).
    { apply matches_plus_chr_iff. exists key. auto. }
    apply M_Seq with (s1 := w1 ++ Ch.colon :: w2 ++ val ++ w3 ++ c ++ d).
    { now apply matches_lit_iff. }
    apply M_Seq with (s1 := Ch.colon :: w2 ++ val ++ w3 ++ c ++ d).
    { apply matches_star_chr_iff. exists w1. auto. }
    apply M_Seq with (s1 := w2 ++ val ++ w3 ++ c ++ d).
    { now apply matches_lit_iff. }
    apply M_Seq with (s1 := val ++ w3 ++ c ++ d).
    { apply matches_star_chr_iff. exists w2. auto. }
    apply M_Seq with (s1 := w3 ++ c ++ d).
    { apply complete_value_matches. exists val. auto. }
    apply M_Seq with (s1 := c ++ d).
    { apply matches_star_chr_iff. exists w3. auto. }
    apply matches_opt_lit_iff. exists c. auto.
Qed.

Lemma dangling_matches d : matches Re.dangling d [] <-> dangling_property d.
Proof.
  unfold Re.dangling, seqs. split.
  - intros H.
    seq_inv H s1 H1. seq_inv H s2 H2. seq_inv H s3 H3. seq_inv H s4 H4.
    seq_inv H s5 H5. seq_inv H s6 H6. seq_inv H s7 H7. seq_inv H s8 H8.
    apply matches_end_iff in H. destruct H as [-> _].
    apply matches_lit_iff in H2, H6.
    apply matches_star_chr_iff in H1, H3, H5, H7, H8.
    destruct H1 as (w0 & E1 & Hw0), H3 as (key & E3 & Hkey), H5 as (w1 & E5 & Hw1),
             H7 as (w2 & E7 & Hw2), H8 as (v & E8 & Hv).
    apply matches_opt_lit_iff in H4. destruct H4 as (q & E4 & Hq).
    exists w0, key, q, w1, w2, v. split; [|repeat split; assumption].
    subst. rewrite app_nil_r. list_eq.
  - intros (w0 & key & q & w1 & w2 & v & -> & Hw0 & Hkey & Hq & Hw1 & Hw2 & Hv).
    apply M_Seq with (s1 := Ch.quote :: key ++ q ++ w1 ++ Ch.colon :: w2 ++ v).
    { apply matches_star_chr_iff. exists w0. auto. }
    apply M_Seq with (s1 := key ++ q ++ w1 ++ Ch.colon :: w2 ++ v).
    { now apply matches_lit_iff. }
    apply M_Seq with (s1 := q ++ w1 ++ Ch.colon :: w2 ++ v).
    { apply matches_star_chr_iff. exists key. auto. }
    apply M_Seq with (s1 := w1 ++ Ch.colon :: w2 ++ v).
    { apply matches_opt_lit_iff. exists q. auto. }
    apply M_Seq with (s1 := Ch.colon :: w2 ++ v).
    { apply matches_star_chr_iff. exists w1. auto. }
    apply M_Seq with (s1 := w2 ++ v).
    { now apply matches_lit_iff. }
    apply M_Seq with (s1 := v).
    { apply matches_star_chr_iff. exists w2. auto. }
    apply M_Seq with (s1 := []).
    { apply matches_star_chr_iff. exists v. split; [now rewrite app_nil_r | assumption]. }
    constructor.
Qed.

Lemma heuristic_split_match s pre kv d :
  heuristic_split s pre kv d <-> heuristic_match s pre kv d.
Proof.
  unfold heuristic_split, heuristic_match. rewrite complete_pair_matches, dangling_matches.
  split.
  - intros (E & Hkv & Hd). repeat split; try assumption. exists kv. auto.
  - intros (E & (kv' & E' & Hkv) & Hd). apply app_inv_tail in E'. subst kv'.
    repeat split; assumption.
Qed.

Lemma cut_match_complete s p : cut_at_last_match s p -> cut_at_last_complete s p.
Proof.
  intros [(pre & kv & d & Hs & -> & Hmax) | [-> Hnone]].
  - left. exists pre, kv, d. split; [now apply heuristic_split_match|].
    split; [reflexivity|]. intros pre' kv' d' H'. apply heuristic_split_match in H'.
    eapply Hmax. eassumption.
  - right. split; [reflexivity|]. intros pre kv d H. apply heuristic_split_match in H.
    eapply Hnone. eassumption.
Qed.

(** ** The other steps of the repair *)

Lemma rmatch_chr R p c s (k : jstring -> option R) :
  rmatch (Chr p) (c :: s) k = if p c then k s else None.
Proof. reflexivity. Qed.

Lemma length_tail_ltb (c : N) s : (length s <? length (c :: s)) = true.
Proof. apply Nat.ltb_lt. simpl. lia. Qed.

Lemma star_ws_end R (k : jstring -> option R) : forall s,
    rmatch (Star true ws) s (fun s' => rmatch End s' k) =
    if forallb is_space s then k [] else None.
Proof.
  induction s as [|c s IH].
  - reflexivity.
  - rewrite rmatch_star_greedy. unfold ws at 1. rewrite rmatch_chr.
    cbn [forallb]. destruct (is_space c); cbn [andb]; [|reflexivity].
    rewrite length_tail_ltb. fold ws. rewrite IH.
    destruct (forallb is_space s); [destruct (k []) |]; reflexivity.
Qed.

Lemma match_here_trailing_comma s :
  match_here (whole Re.trailing_comma) s =
  match s with
  | [] => None
  | c :: s' => if (c =? Ch.comma)%N && forallb is_space s' then Some (s, [], []) else None
  end.
Proof.
  destruct s as [|c s']; [reflexivity|].
  change (match_here (whole Re.trailing_comma) (c :: s'))
    with (if (Ch.comma =? c)%N
          then rmatch (Star true ws) s'
                      (fun t => rmatch End t (fun s2 => Some (c :: s', s2, s2)))
          else None).
  rewrite (N.eqb_sym Ch.comma c). destruct (c =? Ch.comma)%N; cbn [andb]; [|reflexivity].
  apply star_ws_end.
Qed.

Lemma search_trailing_comma : forall s i,
    match search (whole Re.trailing_comma) i s with
    | Some m => firstn (m_index m - i) s ++ m_rest m = strip_trailing_comma s /\ i <= m_index m
    | None => strip_trailing_comma s = s
    end.
Proof.
  induction s as [|c s IH]; intros i; rewrite search_unfold, match_here_trailing_comma.
  - reflexivity.
  - cbn [strip_trailing_comma].
    destruct ((c =? Ch.comma)%N && forallb is_space s).
    + cbn [m_index m_rest]. rewrite Nat.sub_diag. split; [reflexivity | lia].
    + specialize (IH (S i)). destruct (search (whole Re.trailing_comma) (S i) s) as [m|].
      * destruct IH as [IH L]. split; [|lia].
        replace (m_index m - i) with (S (m_index m - S i)) by lia.
        cbn [firstn app]. now rewrite IH.
      * now rewrite IH.
Qed.

(** Step (b) *)
Lemma replace_trailing_comma s :
  replace_first Re.trailing_comma [] s = strip_trailing_comma s.
Proof.
  unfold replace_first, exec. pose proof (search_trailing_comma s 0) as H.
  destruct (search (whole Re.trailing_comma) 0 s) as [m|].
  - destruct H as [H _]. rewrite Nat.sub_0_r in H. exact H.
  - symmetry. exact H.
Qed.

Lemma scan_lit c : forall s,
    length (scan (lit c) (fun m => [m]) (fun _ => []) 0 s) = occurrences c s.
Proof.
  induction s as [|x s IH]; [reflexivity|].
  cbn [scan rmatch lit occurrences]. rewrite (N.eqb_sym c x).
  destruct (x =? c)%N.
  - replace (length (x :: s) - length s) with 1 by (cbn [length]; lia).
    cbn [Nat.eqb Nat.sub app length firstn]. rewrite IH. reflexivity.
  - cbn [app]. exact IH.
Qed.

Lemma count_matches_lit c s : count_matches (lit c) s = occurrences c s.
Proof.
  unfold count_matches, match_all. rewrite <- scan_lit.
  destruct (scan (lit c) _ _ 0 s); reflexivity.
Qed.

Lemma append_times_excess a b c s :
  append_times (Z.of_nat a - Z.of_nat b) c s = s ++ repeat c (a - b).
Proof.
  unfold append_times.
  replace (Z.to_nat (Z.of_nat a - Z.of_nat b)) with (a - b) by lia.
  induction (a - b) as [|n IH]; simpl.
  - now rewrite app_nil_r.
  - rewrite IH, <- app_assoc. f_equal. symmetry. apply repeat_cons.
Qed.

Lemma odd_mod2 n : negb (n mod 2 =? 0) = Nat.odd n.
Proof.
  rewrite <- Nat.bit0_mod, Nat.bit0_odd. destruct (Nat.odd n); reflexivity.
Qed.

(** The code of [repairTruncatedJson] in terms of the five steps. *)
Lemma repair_steps s :
  repairTruncatedJson s =
  close_excess Ch.lbrace Ch.rbrace
    (close_excess Ch.lbracket Ch.rbracket
       (close_string
          (strip_trailing_comma
             (match exec Re.last_complete s with Some m => m_group m | None => s end)))).
Proof.
  unfold repairTruncatedJson, close_excess, close_string.
  rewrite replace_trailing_comma.
  rewrite !count_matches_lit, odd_mod2.
  rewrite !append_times_excess. reflexivity.
Qed.

Lemma strip_trailing_comma_prefix : forall s, prefix (strip_trailing_comma s) s.
Proof.
  induction s as [|c s [d IH]]; simpl.
  - exists []. reflexivity.
  - destruct ((c =? Ch.comma)%N && forallb is_space s).
    + exists (c :: s). reflexivity.
    + exists d. simpl. now rewrite <- IH.
Qed.

Lemma cut_prefix s p : cut_at_last_match s p -> prefix p s.
Proof.
  intros [(pre & kv & d & (-> & _) & -> & _) | [-> _]].
  - exists d. now rewrite app_assoc.
  - exists []. now rewrite app_nil_r.
Qed.

Lemma prefix_trans a b c : prefix a b -> prefix b c -> prefix a c.
Proof. intros [d ->] [e ->]. exists (d ++ e). now rewrite app_assoc. Qed.

(** C4: for every input string, [repairTruncatedJson] applies the five
    steps in order: (a) it cuts the input after the last complete property
    that the trailing-properties heuristic finds, dropping the dangling
    property that follows, and leaves the input alone when the heuristic
    finds none; (b) it strips a trailing comma; (c) it appends one quote
    when the number of quotes is odd; (d) it appends one closing bracket per
    opening bracket in excess; (e) it appends one closing brace per opening
    brace in excess. *)
Theorem repair_applies_steps_in_order s :
  exists p,
    cut_at_last_complete s p /\
    repairTruncatedJson s =
    close_excess Ch.lbrace Ch.rbrace
      (close_excess Ch.lbracket Ch.rbracket (close_string (strip_trailing_comma p))).
Proof.
  eexists. split; [apply cut_match_complete, exec_last_complete | apply repair_steps].
Qed.

(** C10: the repair never fabricates data: its result is a prefix of the
    input followed by closers only (quote, closing bracket, closing
    brace). *)
Theorem repair_never_fabricates s :
  exists p t, repairTruncatedJson s = p ++ t /\ prefix p s /\ Forall is_closer t.
Proof.
  rewrite repair_steps.
  set (cut := match exec Re.last_complete s with Some m => m_group m | None => s end).
  set (p := strip_trailing_comma cut).
  exists p.
  unfold close_excess, close_string.
  destruct (Nat.odd (occurrences Ch.quote p)).
  - eexists. rewrite <- !app_assoc. split; [reflexivity|]. split.
    + eapply prefix_trans; [apply strip_trailing_comma_prefix|].
      apply cut_prefix, exec_last_complete.
    + rewrite !Forall_app. repeat split.
      * constructor; [left; reflexivity | constructor].
      * apply Forall_forall. intros x Hx. apply repeat_spec in Hx. right. left. exact Hx.
      * apply Forall_forall. intros x Hx. apply repeat_spec in Hx. right. right. exact Hx.
  - eexists. rewrite <- !app_assoc. split; [reflexivity|]. split.
    + eapply prefix_trans; [apply strip_trailing_comma_prefix|].
      apply cut_prefix, exec_last_complete.
    + rewrite !Forall_app. split.
      * apply Forall_forall. intros x Hx. apply repeat_spec in Hx. right. left. exact Hx.
      * apply Forall_forall. intros x Hx. apply repeat_spec in Hx. right. right. exact Hx.
Qed.

(** ** Trimming *)

Lemma drop_while_split p s :
  exists a, s = a ++ drop_while p s /\ forallb p a = true.
Proof.
  induction s as [|c s (a & E & Ha)]; simpl.
  - exists []. split; reflexivity.
  - destruct (p c) eqn:Hc.
    + exists (c :: a). split; [simpl; now rewrite <- E | simpl; now rewrite Hc].
    + exists []. split; reflexivity.
Qed.

Lemma drop_while_head p s x t : drop_while p s = x :: t -> p x = false.
Proof.
  induction s as [|c s IH]; simpl; [discriminate|].
  destruct (p c) eqn:Hc; [exact IH|]. intros [= <- _]. exact Hc.
Qed.

Lemma drop_while_skip p a x rest :
  forallb p a = true -> p x = false -> drop_while p (a ++ x :: rest) = x :: rest.
Proof.
  intros Ha Hx. induction a as [|c a IH]; simpl.
  - now rewrite Hx.
  - simpl in Ha. apply andb_prop in Ha. destruct Ha as [Hc Ha]. rewrite Hc. auto.
Qed.

Lemma drop_while_snoc p l x :
  p x = false -> drop_while p (l ++ [x]) = drop_while p l ++ [x].
Proof.
  intros Hx. induction l as [|c l IH]; simpl.
  - now rewrite Hx.
  - destruct (p c); [exact IH | reflexivity].
Qed.

Lemma forallb_rev (p : N -> bool) l : forallb p (rev l) = forallb p l.
Proof.
  induction l as [|c l IH]; simpl; [reflexivity|].
  rewrite forallb_app, IH. simpl. rewrite andb_true_r. apply andb_comm.
Qed.

Lemma strip_both_split p s :
  exists a c, s = a ++ strip_both p s ++ c /\ forallb p a = true /\ forallb p c = true.
Proof.
  unfold strip_both. destruct (drop_while_split p s) as (a & Es & Ha).
  destruct (drop_while_split p (rev (drop_while p s))) as (c & Ec & Hc).
  exists a, (rev c). split; [|split; [assumption | now rewrite forallb_rev]].
  rewrite <- rev_app_distr, <- Ec, rev_involutive. exact Es.
Qed.

Lemma strip_both_head p s x t : strip_both p s = x :: t -> p x = false.
Proof.
  unfold strip_both. destruct (drop_while p s) as [|x0 X] eqn:EX; [discriminate|].
  apply drop_while_head in EX. cbn [rev]. rewrite (@drop_while_snoc p (rev X) x0 EX).
  rewrite rev_app_distr. cbn [rev app]. intros [= <- _]. exact EX.
Qed.

Lemma strip_both_surrounded p a b x inner y :
  forallb p a = true -> forallb p b = true -> p x = false -> p y = false ->
  strip_both p (a ++ (x :: inner ++ [y]) ++ b) = x :: inner ++ [y].
Proof.
  intros Ha Hb Hx Hy. unfold strip_both.
  change (a ++ (x :: inner ++ [y]) ++ b) with (a ++ x :: ((inner ++ [y]) ++ b)).
  rewrite drop_while_skip by assumption.
  assert (E : rev (x :: (inner ++ [y]) ++ b) = rev b ++ y :: (rev inner ++ [x])).
  { simpl. rewrite !rev_app_distr. simpl. rewrite <- !app_assoc. reflexivity. }
  rewrite E, drop_while_skip by (rewrite ?forallb_rev; assumption).
  simpl. rewrite rev_app_distr. simpl. rewrite rev_involutive. reflexivity.
Qed.

Lemma json_ws_is_space c : Json.is_ws c = true -> is_space c = true.
Proof.
  unfold Json.is_ws. rewrite !orb_true_iff.
  intros [[[H|H]|H]|H]; apply N.eqb_eq in H; subst c; reflexivity.
Qed.

Lemma json_ws_all_space a : forallb Json.is_ws a = true -> forallb is_space a = true.
Proof.
  induction a as [|c a IH]; simpl; [reflexivity|]. intros H.
  apply andb_prop in H. destruct H as [Hc Ha]. now rewrite (@json_ws_is_space c Hc), IH.
Qed.

(** ** [JSON.parse]: what is read, and the counters never run out *)

Module JsonFacts.
Import Json.

Lemma skip_ws_cons s c t :
  skip_ws s = c :: t -> exists a, s = a ++ c :: t /\ forallb is_ws a = true.
Proof. intros H. destruct (drop_while_split is_ws s) as (a & E & Ha). exists a. now rewrite <- H. Qed.

Lemma consumed_length (s w r : jstring) : s = w ++ r -> w <> [] -> length r < length s.
Proof. intros -> H. rewrite length_app. destruct w; [contradiction | simpl; lia]. Qed.

Lemma parse_chars_consumes : forall n s acc,
    length s <= n ->
    match parse_chars s acc with
    | POk _ r => exists w, s = w ++ r /\ w <> []
    | PErr => True
    | PFuel => False
    end.
Proof.
  induction n as [|n IH]; intros s acc L.
  - destruct s; [exact I | simpl in L; lia].
  - destruct s as [|c t]; [exact I|]. cbn [parse_chars].
    destruct (c =? 34)%N; [exists [c]; split; [reflexivity | discriminate]|].
    destruct (c <? 32)%N; [exact I|].
    destruct (c =? 92)%N.
    + destruct t as [|e t1]; [exact I|].
      destruct (e =? 117)%N.
      * destruct t1 as [|h1 [|h2 [|h3 [|h4 t2]]]]; try exact I.
        destruct (hex_value h1), (hex_value h2), (hex_value h3), (hex_value h4); try exact I.
        specialize (IH t2 ((((n0 * 16 + n1) * 16 + n2) * 16 + n3)%N :: acc)).
        simpl in L. specialize (IH ltac:(lia)).
        destruct (parse_chars t2 _); [| exact I | contradiction].
        destruct IH as (w & -> & _).
        exists (c :: e :: h1 :: h2 :: h3 :: h4 :: w). split; [reflexivity | discriminate].
      * destruct (escape e); [|exact I].
        specialize (IH t1 (n0 :: acc)). simpl in L. specialize (IH ltac:(lia)).
        destruct (parse_chars t1 _); [| exact I | contradiction].
        destruct IH as (w & -> & _). exists (c :: e :: w). split; [reflexivity | discriminate].
    + specialize (IH t (c :: acc)). simpl in L. specialize (IH ltac:(lia)).
      destruct (parse_chars t _); [| exact I | contradiction].
      destruct IH as (w & -> & _). exists (c :: w). split; [reflexivity | discriminate].
Qed.

Lemma span_split p s : s = fst (span p s) ++ snd (span p s).
Proof.
  induction s as [|c s IH]; simpl; [reflexivity|].
  destruct (p c); [|reflexivity]. destruct (span p s); simpl in *. now rewrite <- IH.
Qed.

Lemma parse_number_consumes s :
  match parse_number s with
  | POk _ r => exists w, s = w ++ r /\ w <> []
  | PErr => True
  | PFuel => False
  end.
Proof.
  unfold parse_number.
  set (sign := match s with
               | c :: t => if (c =? 45)%N then (true, t) else (false, s)
               | [] => (false, s)
               end).
  assert (Hs : exists a, s = a ++ snd sign).
  { subst sign. destruct s as [|c t]; simpl; [exists []; reflexivity|].
    destruct (c =? 45)%N; simpl; [exists [c] | exists []]; reflexivity. }
  destruct sign as [neg s1]. simpl in Hs.
  set (ip := match s1 with
             | c :: t => if (c =? 48)%N then ([c], t) else span is_digit s1
             | [] => ([], [])
             end).
  assert (Hi : s1 = fst ip ++ snd ip).
  { subst ip. destruct s1 as [|c t]; [reflexivity|].
    destruct (c =? 48)%N; [reflexivity | apply span_split]. }
  destruct ip as [int s2]. simpl in Hi.
  destruct int as [|d ds]; [exact I|].
  set (fp := match s2 with
             | c :: t => if (c =? 46)%N
                         then let (fr, s3) := span is_digit t in
                              match fr with [] => None | _ => Some (fr, s3) end
                         else Some ([], s2)
             | [] => Some ([], s2)
             end).
  assert (Hf : forall frac s3, fp = Some (frac, s3) -> exists a, s2 = a ++ s3).
  { subst fp. intros frac s3. destruct s2 as [|c t]; [intros [= _ <-]; exists []; reflexivity|].
    destruct (c =? 46)%N; [|intros [= _ <-]; exists []; reflexivity].
    pose proof (span_split is_digit t) as E. destruct (span is_digit t) as [fr r].
    destruct fr; [discriminate|]. intros [= _ <-]. simpl in E. exists (c :: n :: fr).
    simpl. now rewrite E. }
  destruct fp as [[frac s3]|]; [|exact I]. destruct (Hf _ _ eq_refl) as (a2 & E2).
  set (ep := match s3 with
             | c :: t =>
                 if ((c =? 101) || (c =? 69))%N then
                   let (sign, t1) := match t with
                                     | x :: t' => if (x =? 45)%N then ((-1)%Z, t')
                                                  else if (x =? 43)%N then (1%Z, t')
                                                  else (1%Z, t)
                                     | [] => (1%Z, t)
                                     end in
                   let (ex, s4) := span is_digit t1 in
                   match ex with
                   | [] => None
                   | _ => Some ((sign * Z.of_N (digits_value ex))%Z, s4)
                   end
                 else Some (0%Z, s3)
             | [] => Some (0%Z, s3)
             end).
  assert (He : forall e s4, ep = Some (e, s4) -> exists a, s3 = a ++ s4).
  { subst ep. intros e s4. destruct s3 as [|c t]; [intros [= _ <-]; exists []; reflexivity|].
    destruct ((c =? 101) || (c =? 69))%N; [|intros [= _ <-]; exists []; reflexivity].
    set (sg := match t with
               | x :: t' => if (x =? 45)%N then ((-1)%Z, t')
                            else if (x =? 43)%N then (1%Z, t')
                            else (1%Z, t)
               | [] => (1%Z, t)
               end).
    assert (Hg : exists a, t = a ++ snd sg).
    { subst sg. destruct t as [|x t']; simpl; [exists []; reflexivity|].
      destruct (x =? 45)%N; simpl; [exists [x]; reflexivity|].
      destruct (x =? 43)%N; simpl; [exists [x] | exists []]; reflexivity. }
    destruct sg as [sgn t1]. simpl in Hg. destruct Hg as (ag & Eg).
    pose proof (span_split is_digit t1) as E. destruct (span is_digit t1) as [ex r].
    destruct ex; [discriminate|]. intros [= _ <-]. simpl in E.
    exists (c :: ag ++ n :: ex). subst t. rewrite E. simpl. now rewrite <- app_assoc. }
  destruct ep as [[e s4]|]; [|exact I]. destruct (He _ _ eq_refl) as (a3 & E3).
  destruct Hs as (a0 & E0).
  exists (a0 ++ (d :: ds) ++ a2 ++ a3). split.
  - subst. rewrite <- !app_assoc. reflexivity.
  - destruct a0; discriminate.
Qed.

Lemma strip_prefix_split : forall w s r, strip_prefix w s = Some r -> s = w ++ r.
Proof.
  induction w as [|a w IH]; intros s r H; simpl in H.
  - injection H as ->. reflexivity.
  - destruct s as [|b s]; [discriminate|]. destruct (a =? b)%N eqn:E; [|discriminate].
    apply N.eqb_eq in E. subst b. apply IH in H. now subst.
Qed.

Lemma parse_literal_consumes s :
  match parse_literal s with
  | POk _ r => exists w, s = w ++ r /\ w <> []
  | PErr => True
  | PFuel => False
  end.
Proof.
  unfold parse_literal.
  destruct (strip_prefix (str "true") s) eqn:E1.
  { apply strip_prefix_split in E1. eexists. split; [exact E1 | discriminate]. }
  destruct (strip_prefix (str "false") s) eqn:E2.
  { apply strip_prefix_split in E2. eexists. split; [exact E2 | discriminate]. }
  destruct (strip_prefix (str "null") s) eqn:E3; [|exact I].
  apply strip_prefix_split in E3. eexists. split; [exact E3 | discriminate].
Qed.

Lemma elements_consumes pv bound : consumes pv bound ->
  forall m t acc, length t <= bound -> length t < m ->
    match elements pv m t acc with
    | POk v r => exists w, t = w ++ r /\ w <> [] /\ isArray v = true
    | PErr => True
    | PFuel => False
    end.
Proof.
  intros Hpv. induction m as [|m IH]; intros t acc Lb Lm; [lia|].
  cbn [elements]. specialize (Hpv t Lb).
  destruct (pv t) as [v r| |]; [| exact I | contradiction].
  destruct Hpv as (wv & -> & Hne).
  destruct (skip_ws r) as [|c r'] eqn:Er; [exact I|].
  apply skip_ws_cons in Er. destruct Er as (a & -> & _).
  rewrite !length_app in *. cbn [length] in *.
  destruct (c =? 44)%N.
  - specialize (IH r' (v :: acc) ltac:(lia) ltac:(lia)).
    destruct (elements pv m r' (v :: acc)); [| exact I | contradiction].
    destruct IH as (w & -> & _ & Hv).
    exists (wv ++ a ++ c :: w). split; [now rewrite <- !app_assoc|].
    split; [destruct wv; [contradiction | discriminate] | exact Hv].
  - destruct (c =? 93)%N; [|exact I].
    exists (wv ++ a ++ [c]). split; [now rewrite <- !app_assoc|].
    split; [destruct wv; [contradiction | discriminate] | reflexivity].
Qed.

(** The text of the members of an object ends with the closing brace. *)
Lemma members_consumes pv bound : consumes pv bound ->
  forall m t acc, length t <= bound -> length t < m ->
    match members pv m t acc with
    | POk _ r => exists w, t = (w ++ [Ch.rbrace]) ++ r
    | PErr => True
    | PFuel => False
    end.
Proof.
  intros Hpv. induction m as [|m IH]; intros t acc Lb Lm; [lia|].
  cbn [members].
  destruct (skip_ws t) as [|q t1] eqn:Et; [exact I|].
  apply skip_ws_cons in Et. destruct Et as (a0 & -> & _).
  destruct (q =? 34)%N; [|exact I].
  pose proof (@parse_chars_consumes (length t1) t1 [] (le_n _)) as Hk.
  destruct (parse_chars t1 []) as [key r0| |]; [| exact I | contradiction].
  destruct Hk as (wk & -> & _).
  destruct (skip_ws r0) as [|c r1] eqn:E0; [exact I|].
  apply skip_ws_cons in E0. destruct E0 as (a1 & -> & _).
  destruct (c =? 58)%N; [|exact I].
  rewrite !length_app in *. cbn [length] in *. rewrite !length_app in *. cbn [length] in *.
  specialize (Hpv r1 ltac:(lia)).
  destruct (pv r1) as [v r| |]; [| exact I | contradiction].
  destruct Hpv as (wv & -> & _).
  destruct (skip_ws r) as [|c' r'] eqn:Er; [exact I|].
  apply skip_ws_cons in Er. destruct Er as (a2 & -> & _).
  rewrite !length_app in *. cbn [length] in *.
  destruct (c' =? 44)%N.
  - specialize (IH r' (set_prop key v acc) ltac:(lia) ltac:(lia)).
    destruct (members pv m r' _); [| exact I | contradiction].
    destruct IH as (w & ->).
    exists (a0 ++ q :: wk ++ a1 ++ c :: wv ++ a2 ++ c' :: w).
    repeat (progress (cbn [app]; rewrite <- ?app_assoc)). reflexivity.
  - destruct (c' =? 125)%N eqn:E125; [|exact I]. apply N.eqb_eq in E125. subst c'.
    exists (a0 ++ q :: wk ++ a1 ++ c :: wv ++ a2).
    repeat (progress (cbn [app]; rewrite <- ?app_assoc)). reflexivity.
Qed.

(** With a depth counter above the length of the text, [parse_value]
    answers with a value or a syntax error, never for want of fuel; what
    it reads is a non-empty front of the text. *)
Lemma parse_value_consumes : forall n, consumes (parse_value (S n)) n.
Proof.
  induction n as [|n IH]; intros s L.
  - destruct s; [exact I | simpl in L; lia].
  - cbn [parse_value].
    destruct (skip_ws s) as [|c t] eqn:Es; [exact I|].
    apply skip_ws_cons in Es. destruct Es as (a & -> & _).
    rewrite length_app in L. cbn [length] in L.
    assert (Hfront : forall w r, t = w ++ r ->
                                exists w', a ++ c :: t = w' ++ r /\ w' <> []).
    { intros w r ->. exists (a ++ c :: w). split; [now rewrite <- app_assoc|].
      destruct a; discriminate. }
    destruct (c =? 34)%N.
    { pose proof (@parse_chars_consumes (length t) t [] (le_n _)) as Hk.
      destruct (parse_chars t []); [| exact I | contradiction].
      destruct Hk as (w & E & _). eapply Hfront. exact E. }
    destruct (c =? 91)%N.
    { destruct (skip_ws t) as [|c1 t1] eqn:Et; [exact I|].
      apply skip_ws_cons in Et. destruct Et as (a1 & Et & _).
      assert (Lt : length (c1 :: t1) <= length t)
        by (rewrite Et, length_app; lia).
      destruct (c1 =? 93)%N.
      { apply (Hfront (a1 ++ [c1]) t1). now rewrite <- app_assoc. }
      pose proof (@elements_consumes _ _ IH (S (length t)) (c1 :: t1) []
                    ltac:(lia) ltac:(lia)) as He.
      destruct (elements _ _ _ _); [| exact I | contradiction].
      destruct He as (w & E & _). apply (Hfront (a1 ++ w) rest).
      rewrite Et, E. now rewrite <- app_assoc. }
    destruct (c =? 123)%N.
    { destruct (skip_ws t) as [|c1 t1] eqn:Et; [exact I|].
      apply skip_ws_cons in Et. destruct Et as (a1 & Et & _).
      assert (Lt : length (c1 :: t1) <= length t)
        by (rewrite Et, length_app; lia).
      destruct (c1 =? 125)%N.
      { apply (Hfront (a1 ++ [c1]) t1). now rewrite <- app_assoc. }
      pose proof (@members_consumes _ _ IH (S (length t)) (c1 :: t1) []
                    ltac:(lia) ltac:(lia)) as He.
      destruct (members _ _ _ _); [| exact I | contradiction].
      destruct He as (w & E). apply (Hfront (a1 ++ w ++ [Ch.rbrace]) rest).
      rewrite Et, E. now rewrite <- !app_assoc. }
    destruct ((c =? 45)%N || is_digit c).
    { pose proof (parse_number_consumes (c :: t)) as Hn.
      destruct (parse_number (c :: t)); [| exact I | contradiction].
      destruct Hn as (w & E & Hne). exists (a ++ w). split.
      + rewrite E. now rewrite <- app_assoc.
      + destruct a; [exact Hne | discriminate]. }
    pose proof (parse_literal_consumes (c :: t)) as Hl.
    destruct (parse_literal (c :: t)); [| exact I | contradiction].
    destruct Hl as (w & E & Hne). exists (a ++ w). split.
    + rewrite E. now rewrite <- app_assoc.
    + destruct a; [exact Hne | discriminate].
Qed.

Lemma parse_never_out_of_fuel text : parse_value (S (length text)) text <> PFuel.
Proof.
  pose proof (@parse_value_consumes (length text) text (le_n _)) as H.
  destruct (parse_value (S (length text)) text); [discriminate | discriminate | contradiction].
Qed.

Lemma parse_value_S n s :
  parse_value (S n) s =
  match skip_ws s with
  | [] => PErr
  | c :: t =>
      if (c =? 34)%N then
        match parse_chars t [] with
        | POk x r => POk (VStr x) r
        | PErr => PErr
        | PFuel => PFuel
        end
      else if (c =? 91)%N then
        match skip_ws t with
        | [] => PErr
        | c1 :: t1 =>
            if (c1 =? 93)%N then POk (VArr []) t1
            else elements (parse_value n) (S (length t)) (c1 :: t1) []
        end
      else if (c =? 123)%N then
        match skip_ws t with
        | [] => PErr
        | c1 :: t1 =>
            if (c1 =? 125)%N then POk (VObj []) t1
            else members (parse_value n) (S (length t)) (c1 :: t1) []
        end
      else if (c =? 45)%N || is_digit c then
        match parse_number (c :: t) with
        | POk x r => POk (VNum x) r
        | PErr => PErr
        | PFuel => PFuel
        end
      else parse_literal (c :: t)
  end.
Proof. reflexivity. Qed.

(** The text of a parsed object runs from an opening brace to a closing
    brace, after optional whitespace. *)
Lemma object_text n s props r :
  length s <= n -> parse_value (S n) s = POk (VObj props) r ->
  exists a inner,
    s = a ++ (Ch.lbrace :: inner ++ [Ch.rbrace]) ++ r /\ forallb is_ws a = true.
Proof.
  intros L H. destruct n as [|n].
  { destruct s; [discriminate | simpl in L; lia]. }
  rewrite parse_value_S in H.
  destruct (skip_ws s) as [|c t] eqn:Es; [discriminate|].
  apply skip_ws_cons in Es. destruct Es as (a & -> & Ha).
  rewrite length_app in L. cbn [length] in L.
  destruct (c =? 34)%N.
  { destruct (parse_chars t []); discriminate. }
  destruct (c =? 91)%N.
  { destruct (skip_ws t) as [|c1 t1] eqn:Et; [discriminate|].
    apply skip_ws_cons in Et. destruct Et as (a1 & Et & _).
    assert (Lt : length (c1 :: t1) <= length t)
      by (rewrite Et, length_app; lia).
    destruct (c1 =? 93)%N; [discriminate|].
    pose proof (@elements_consumes _ _ (@parse_value_consumes n) (S (length t)) (c1 :: t1) []
                  ltac:(lia) ltac:(lia)) as He.
    rewrite H in He. destruct He as (_ & _ & _ & Hv). discriminate. }
  destruct (c =? 123)%N eqn:Ec.
  { apply N.eqb_eq in Ec. subst c.
    destruct (skip_ws t) as [|c1 t1] eqn:Et; [discriminate|].
    apply skip_ws_cons in Et. destruct Et as (a1 & Et & _).
    assert (Lt : length (c1 :: t1) <= length t)
      by (rewrite Et, length_app; lia).
    destruct (c1 =? 125)%N eqn:Ec1.
    { apply N.eqb_eq in Ec1. subst c1. injection H as _ <-.
      exists a, a1. split; [|assumption]. rewrite Et. cbn [app].
      now rewrite <- app_assoc. }
    pose proof (@members_consumes _ _ (@parse_value_consumes n) (S (length t)) (c1 :: t1) []
                  ltac:(lia) ltac:(lia)) as He.
    rewrite H in He. destruct He as (w & E).
    exists a, (a1 ++ w). split; [|assumption]. rewrite Et, E. cbn [app].
    now rewrite <- !app_assoc. }
  destruct ((c =? 45)%N || is_digit c).
  { destruct (parse_number (c :: t)); discriminate. }
  unfold parse_literal in H.
  destruct (strip_prefix (str "true") (c :: t)); [discriminate|].
  destruct (strip_prefix (str "false") (c :: t)); [discriminate|].
  destruct (strip_prefix (str "null") (c :: t)); discriminate.
Qed.

End JsonFacts.

(** ** Stage 5 and the regex stage *)

Lemma get_prop key v : nullish v = false -> get key v = Returned (prop key v).
Proof. destruct v; simpl; intros H; try discriminate; reflexivity. Qed.

Lemma get_nullish key v : nullish v = true -> get key v = Thrown TypeError.
Proof. destruct v; simpl; intros H; try discriminate; reflexivity. Qed.

Lemma or_ret x m : Returned x ||| m = if truthy x then Returned x else m.
Proof. reflexivity. Qed.

Lemma bind_ret A B (x : A) (f : A -> outcome B) : bind (Returned x) f = f x.
Proof. reflexivity. Qed.

Lemma bind_returned A B (m : outcome A) (f : A -> outcome B) r :
  bind m f = Returned r -> exists x, m = Returned x /\ f x = Returned r.
Proof. destruct m; simpl; [eauto | discriminate]. Qed.

Lemma truthy_not_nullish v : truthy v = true -> nullish v = false.
Proof. destruct v; simpl; intros H; try discriminate; reflexivity. Qed.

Lemma first_truthy_truthy l d : truthy d = true -> truthy (first_truthy l d) = true.
Proof.
  intros Hd. induction l as [|x l IH]; simpl; [assumption|].
  destruct (truthy x) eqn:E; assumption.
Qed.

Ltac split_truthy :=
  repeat (rewrite ?or_ret; cbn [bind first_truthy];
          match goal with
          | H : truthy ?x = _ |- context [truthy ?x] => rewrite H
          | |- context [if truthy ?x then _ else _] => destruct (truthy x) eqn:?
          end).

(** ToString returns the text of a printable value and throws a TypeError
    on any other. *)
Lemma ToString_printable v : printable v = true -> ToString v = Returned (to_string v).
Proof. intros H. unfold ToString. now rewrite H. Qed.

Lemma ToString_returned v s :
  ToString v = Returned s -> s = to_string v /\ printable v = true.
Proof. unfold ToString. destruct (printable v); intros H; [|discriminate]. now injection H as <-. Qed.

Lemma ToString_thrown v e :
  ToString v = Thrown e -> e = TypeError /\ printable v = false.
Proof. unfold ToString. destruct (printable v); intros H; [discriminate|]. now injection H as <-. Qed.

Lemma StringOf_printable v : printable v = true -> StringOf v = Returned (String_ v).
Proof. intros H. unfold StringOf. now rewrite (ToString_printable _ H). Qed.

Lemma StringOf_returned v x : StringOf v = Returned x -> x = String_ v /\ printable v = true.
Proof.
  unfold StringOf. intros H. apply bind_returned in H. destruct H as (s & Hs & H).
  apply ToString_returned in Hs. destruct Hs as [-> Hp]. now injection H as <-.
Qed.

Lemma StringOf_string v : is_string v = true -> StringOf v = Returned v.
Proof. destruct v; try discriminate. reflexivity. Qed.

Lemma map_StringOf_returned : forall l l',
    map_outcome StringOf l = Returned l' -> l' = map String_ l.
Proof.
  induction l as [|x l IH]; intros l' H; cbn [map_outcome] in H.
  - now injection H as <-.
  - apply bind_returned in H. destruct H as (y & Hy & H).
    apply bind_returned in H. destruct H as (ys & Hys & H).
    injection H as <-. apply StringOf_returned in Hy. destruct Hy as [-> _].
    cbn [map]. now rewrite (IH _ Hys).
Qed.

Lemma map_StringOf_strings : forall l,
    forallb is_string l = true -> map_outcome StringOf l = Returned l.
Proof.
  induction l as [|x l IH]; intros H; [reflexivity|].
  cbn [forallb] in H. apply andb_prop in H. destruct H as [Hx Hl].
  cbn [map_outcome]. now rewrite (StringOf_string _ Hx), (IH Hl).
Qed.

(** Where [slice_strings] returns, it returns [bounded_strings]. *)
Lemma slice_strings_returned x y : slice_strings x = Returned y -> y = bounded_strings x.
Proof.
  destruct x; cbn [slice_strings bounded_strings]; intros H; try (now injection H as <-).
  apply bind_returned in H. destruct H as (strings & Hs & H). injection H as <-.
  now rewrite (map_StringOf_returned _ Hs).
Qed.

Lemma slice_strings_fixed x : bounded_string_array x = true -> slice_strings x = Returned x.
Proof.
  destruct x; cbn [bounded_string_array slice_strings]; try discriminate.
  intros H. apply andb_prop in H. destruct H as [Hl Hs].
  apply Nat.leb_le in Hl. rewrite firstn_all2 by assumption.
  now rewrite (map_StringOf_strings _ Hs).
Qed.

Lemma validate_nullish parsed repoInfo :
  nullish parsed = true -> validateAndNormalize parsed repoInfo = Thrown TypeError.
Proof.
  intros Hp. unfold validateAndNormalize. rewrite (get_nullish _ _ Hp). reflexivity.
Qed.

Lemma nonempty_string_fixed x : nonempty_string x = true -> String_ x = x /\ truthy x = true.
Proof. destruct x as [| | | |[|c s]| |]; simpl; try discriminate. split; reflexivity. Qed.

Lemma nonempty_string_is_string x : nonempty_string x = true -> is_string x = true.
Proof. destruct x as [| | | |[|c s]| |]; simpl; try discriminate. reflexivity. Qed.

(** An input whose six fields are non-empty strings and arrays of at most
    five strings comes out as it is, and the context is never read. *)
Lemma validate_self_sufficient parsed repoInfo :
  nullish parsed = false ->
  nonempty_string (prop "projectName" parsed) = true ->
  nonempty_string (prop "description" parsed) = true ->
  nonempty_string (prop "readme" parsed) = true ->
  bounded_string_array (prop "techStack" parsed) = true ->
  bounded_string_array (prop "features" parsed) = true ->
  bounded_string_array (prop "structure" parsed) = true ->
  validateAndNormalize parsed repoInfo =
  Returned (object [field "projectName" (prop "projectName" parsed);
                    field "description" (prop "description" parsed);
                    field "techStack" (prop "techStack" parsed);
                    field "features" (prop "features" parsed);
                    field "structure" (prop "structure" parsed);
                    field "readme" (prop "readme" parsed)]).
Proof.
  intros Hp H1 H2 H3 A1 A2 A3. unfold validateAndNormalize.
  rewrite !(get_prop _ _ Hp).
  destruct (nonempty_string_fixed _ H1) as [_ T1].
  destruct (nonempty_string_fixed _ H2) as [_ T2].
  destruct (nonempty_string_fixed _ H3) as [_ T3].
  repeat (first [rewrite or_ret | rewrite T1 | progress cbn [bind]]).
  rewrite (StringOf_string _ (nonempty_string_is_string _ H1)).
  repeat (first [rewrite or_ret | rewrite T2 | progress cbn [bind]]).
  rewrite (StringOf_string _ (nonempty_string_is_string _ H2)). cbn [bind].
  rewrite (slice_strings_fixed _ A1), (slice_strings_fixed _ A2), (slice_strings_fixed _ A3).
  repeat (first [rewrite or_ret | rewrite T3 | progress cbn [bind]]).
  rewrite (StringOf_string _ (nonempty_string_is_string _ H3)). reflexivity.
Qed.

Lemma normalized_populated parsed repoInfo : fully_populated (normalized parsed repoInfo).
Proof.
  unfold normalized, fully_populated. do 6 eexists. split; [reflexivity|].
  repeat constructor; unfold bounded_strings; destruct (prop _ parsed); reflexivity.
Qed.

(** ** Shape of a successful validation *)

Lemma lookup_field_result a b c d e f :
  let out := object [field "projectName" a; field "description" b; field "techStack" c;
                     field "features" d; field "structure" e; field "readme" f] in
  prop "projectName" out = a /\ prop "description" out = b /\ prop "techStack" out = c /\
  prop "features" out = d /\ prop "structure" out = e /\ prop "readme" out = f.
Proof. repeat split; reflexivity. Qed.

Lemma or_truthy key parsed m :
  nullish parsed = false -> truthy (prop key parsed) = true ->
  get key parsed ||| m = Returned (prop key parsed).
Proof. intros Hp Ht. rewrite (@get_prop key parsed Hp), or_ret, Ht. reflexivity. Qed.

Lemma validate_shape parsed repoInfo out :
  validateAndNormalize parsed repoInfo = Returned out ->
  nullish parsed = false /\
  exists pn d rd,
    out = object [field "projectName" (String_ pn); field "description" (String_ d);
                  field "techStack" (bounded_strings (prop "techStack" parsed));
                  field "features" (bounded_strings (prop "features" parsed));
                  field "structure" (bounded_strings (prop "structure" parsed));
                  field "readme" (String_ rd)]
    /\ (truthy (prop "projectName" parsed) = true -> pn = prop "projectName" parsed)
    /\ (truthy (prop "description" parsed) = true -> d = prop "description" parsed)
    /\ (truthy (prop "readme" parsed) = true -> rd = prop "readme" parsed).
Proof.
  intros H. destruct (nullish parsed) eqn:Hp.
  { rewrite (@validate_nullish parsed repoInfo Hp) in H. discriminate. }
  split; [reflexivity|]. unfold validateAndNormalize in H.
  apply bind_returned in H. destruct H as (pn & Hpn & H).
  apply bind_returned in H. destruct H as (pn' & Hpn' & H).
  apply bind_returned in H. destruct H as (d & Hd & H).
  apply bind_returned in H. destruct H as (d' & Hd' & H).
  rewrite !(@get_prop _ parsed Hp) in H. cbn [bind] in H.
  apply bind_returned in H. destruct H as (ts & Hts & H).
  apply bind_returned in H. destruct H as (fs & Hfs & H).
  apply bind_returned in H. destruct H as (st & Hst & H).
  apply bind_returned in H. destruct H as (rd & Hrd & H).
  apply bind_returned in H. destruct H as (rd' & Hrd' & H).
  injection H as <-.
  apply StringOf_returned in Hpn', Hd', Hrd'.
  destruct Hpn' as [-> _]. destruct Hd' as [-> _]. destruct Hrd' as [-> _].
  apply slice_strings_returned in Hts, Hfs, Hst. subst ts fs st.
  exists pn, d, rd. split; [reflexivity|]. repeat split; intros Ht.
  - unfold or_else at 1 2 in Hpn. rewrite (@or_truthy _ parsed _ Hp Ht) in Hpn.
    cbn [bind] in Hpn. rewrite Ht in Hpn. cbn [bind] in Hpn. rewrite Ht in Hpn. congruence.
  - unfold or_else at 1 in Hd. rewrite (@or_truthy _ parsed _ Hp Ht) in Hd.
    cbn [bind] in Hd. rewrite Ht in Hd. congruence.
  - rewrite or_ret, Ht in Hrd. congruence.
Qed.

(** What [validateAndNormalize] returns is fully populated. *)
Lemma validated_populated parsed repoInfo out :
  validateAndNormalize parsed repoInfo = Returned out -> fully_populated out.
Proof.
  intros H. apply validate_shape in H. destruct H as (_ & pn & d & rd & -> & _).
  unfold fully_populated. do 6 eexists. split; [reflexivity|].
  repeat constructor; unfold bounded_strings; destruct (prop _ parsed); reflexivity.
Qed.

(** ** The regex stage *)

Lemma printable_context_split repoInfo :
  printable_context repoInfo = true ->
  printable (first_truthy [prop "name" repoInfo; prop "path" repoInfo] (VStr (str "Project")))
  = true /\
  printable (first_truthy [prop "description" repoInfo] (VStr (str "A software project.")))
  = true.
Proof. unfold printable_context. intros H. now apply andb_prop in H. Qed.

(** [extractPartialData] reads the context and prints its name, or path,
    and its description into the default readme: it throws a TypeError
    when the context is [null] or [undefined] or one of the two cannot be
    printed, and returns in every other case. *)
Lemma extract_front content repoInfo :
  nullish repoInfo = false ->
  extractPartialData content repoInfo =
  (title <- ToString (first_truthy [prop "name" repoInfo; prop "path" repoInfo]
                                   (VStr (str "Project"))) ;;
   blurb <- ToString (first_truthy [prop "description" repoInfo]
                                   (VStr (str "A software project."))) ;;
   Returned (extracted content repoInfo)).
Proof.
  intros Hr. unfold extractPartialData, extracted, default_name, default_description,
    default_readme, language_names.
  rewrite !(get_prop _ _ Hr). unfold ToString.
  destruct (extractArray content "techStack") eqn:Ets; split_truthy;
    repeat match goal with
           | |- context [if printable ?x then _ else _] => destruct (printable x); cbn [bind]
           end; reflexivity.
Qed.

Lemma extract_pure content repoInfo :
  nullish repoInfo = false -> printable_context repoInfo = true ->
  extractPartialData content repoInfo = Returned (extracted content repoInfo).
Proof.
  intros Hr Hp. rewrite (@extract_front content repoInfo Hr).
  destruct (@printable_context_split repoInfo Hp) as [P1 P2].
  now rewrite (ToString_printable _ P1), (ToString_printable _ P2).
Qed.

Lemma extract_nullish content repoInfo :
  nullish repoInfo = true -> extractPartialData content repoInfo = Thrown TypeError.
Proof.
  intros H. unfold extractPartialData. rewrite (@get_nullish "name" repoInfo H). reflexivity.
Qed.

Lemma extract_unprintable content repoInfo :
  nullish repoInfo = false -> printable_context repoInfo = false ->
  extractPartialData content repoInfo = Thrown TypeError.
Proof.
  intros Hr Hp. rewrite (@extract_front content repoInfo Hr). unfold printable_context in Hp. unfold ToString.
  destruct (printable (first_truthy [prop "name" repoInfo; prop "path" repoInfo] _));
    [|reflexivity].
  cbn [andb] in Hp. rewrite Hp. reflexivity.
Qed.

Lemma extract_returned content repoInfo out :
  extractPartialData content repoInfo = Returned out ->
  nullish repoInfo = false /\ printable_context repoInfo = true /\
  out = extracted content repoInfo.
Proof.
  intros H. destruct (nullish repoInfo) eqn:E.
  { rewrite (@extract_nullish content repoInfo E) in H. discriminate. }
  destruct (printable_context repoInfo) eqn:P.
  - rewrite (@extract_pure content repoInfo E P) in H. injection H as <-. now repeat split.
  - rewrite (@extract_unprintable content repoInfo E P) in H. discriminate.
Qed.

Lemma extract_thrown content repoInfo e :
  extractPartialData content repoInfo = Thrown e ->
  e = TypeError /\ (nullish repoInfo = true \/ printable_context repoInfo = false).
Proof.
  intros H. destruct (nullish repoInfo) eqn:E.
  { rewrite (@extract_nullish content repoInfo E) in H. injection H as <-. split; auto. }
  destruct (printable_context repoInfo) eqn:P.
  - rewrite (@extract_pure content repoInfo E P) in H. discriminate.
  - rewrite (@extract_unprintable content repoInfo E P) in H. injection H as <-. split; auto.
Qed.

Lemma extracted_populated content repoInfo : fully_populated (extracted content repoInfo).
Proof.
  unfold extracted, fully_populated. do 6 eexists. split; [reflexivity|].
  repeat constructor.
  - destruct (exec (Re.scalar "projectName") content); [reflexivity|].
    apply truthy_not_nullish, first_truthy_truthy. reflexivity.
  - destruct (exec (Re.scalar "description") content); [reflexivity|].
    apply truthy_not_nullish, first_truthy_truthy. reflexivity.
  - destruct (exec Re.readme content); reflexivity.
Qed.

(** ** The funnel *)

(** One parsing attempt of the funnel either returns a populated result or
    falls through to the next stage. *)
Lemma attempt_total text repoInfo (next : outcome value) :
  (exists v, next = Returned v /\ fully_populated v) ->
  exists v,
    try_catch (parsed <- JSON_parse text ;; validateAndNormalize parsed repoInfo)
              (fun _ => next) = Returned v
    /\ fully_populated v.
Proof.
  intros Hnext. destruct (JSON_parse text) as [parsed|e]; cbn [bind try_catch];
    [|exact Hnext].
  destruct (validateAndNormalize parsed repoInfo) as [out|e] eqn:E; cbn [try_catch];
    [|exact Hnext].
  exists out. split; [reflexivity | exact (@validated_populated _ _ _ E)].
Qed.

(** C1: the indexer Normalizer is total: for every non-empty completion
    string and every context that is an object whose name, or path, and
    description can be printed, the funnel (boundary strip, direct parse,
    truncation repair, regex extraction) returns an object with the six
    fields projectName, description, techStack, features, structure and
    readme, none of them null or undefined; it never throws. *)
Theorem normalizer_total content repoInfo :
  content <> [] -> nullish repoInfo = false -> printable_context repoInfo = true ->
  exists v, analyzeWithAI content repoInfo = Returned v /\ fully_populated v.
Proof.
  intros Hc Hr Hp. unfold analyzeWithAI. destruct content as [|c content]; [contradiction|].
  apply attempt_total. apply attempt_total.
  rewrite (@extract_pure _ repoInfo Hr Hp). eexists.
  split; [reflexivity | apply extracted_populated].
Qed.

Lemma normalizer_total_witness :
  Sample.scenario_C <> [] /\ nullish Sample.context = false /\
  printable_context Sample.context = true /\
  exists v, analyzeWithAI Sample.scenario_C Sample.context = Returned v /\ fully_populated v.
Proof.
  split; [discriminate|]. split; [reflexivity|]. split; [reflexivity|].
  apply (@normalizer_total Sample.scenario_C Sample.context);
    [discriminate | reflexivity | reflexivity].
Defined.

Lemma bounded_strings_length x : array_length (bounded_strings x) <= 5.
Proof.
  destruct x; cbn [bounded_strings array_length length]; try lia.
  rewrite length_map. apply firstn_le_length.
Qed.

Lemma map_String_strings l : forallb is_string l = true -> map String_ l = l.
Proof.
  induction l as [|x l IH]; simpl; [reflexivity|]. intros H.
  apply andb_prop in H. destruct H as [Hx Hl]. rewrite (IH Hl).
  destruct x; try discriminate. reflexivity.
Qed.

Lemma bounded_strings_fixed x : bounded_string_array x = true -> bounded_strings x = x.
Proof.
  destruct x; cbn [bounded_string_array bounded_strings]; try discriminate.
  intros H. apply andb_prop in H. destruct H as [Hl Hs].
  apply Nat.leb_le in Hl. rewrite firstn_all2 by assumption. now rewrite map_String_strings.
Qed.

Lemma forallb_is_string_map l : forallb is_string (map String_ l) = true.
Proof. induction l; simpl; [reflexivity | assumption]. Qed.

Lemma bounded_strings_bounded x : bounded_string_array (bounded_strings x) = true.
Proof.
  destruct x; try reflexivity. cbn [bounded_string_array bounded_strings].
  rewrite forallb_is_string_map, andb_true_r.
  apply Nat.leb_le. rewrite length_map. apply firstn_le_length.
Qed.

(** C3, counterexample: a description of 101 units comes out with its 101
    units, over the declared maximum of 100. *)
Lemma description_not_truncated :
  exists out,
    validateAndNormalize Sample.long_description Sample.context = Returned out /\
    string_length (prop "description" out) = S description_max.
Proof. eexists. split; [vm_compute; reflexivity | vm_compute; reflexivity]. Qed.

(** No bound at all holds for the description: every length is reached. *)
Lemma description_of_any_length n :
  exists out,
    validateAndNormalize (object [field "description" (VStr (repeat 97%N (S n)))])
                         Sample.context = Returned out /\
    string_length (prop "description" out) = S n.
Proof.
  eexists. split.
  - cbn. reflexivity.
  - change (length (repeat 97%N (S n)) = S n). apply repeat_length.
Qed.

(** C3, amended: for every parsed input, each array field of the stage-5
    output is the first five elements of the input array, stringified (the
    empty array when the input field is not an array), hence has at most 5
    elements; the string fields are coerced but never truncated: a
    non-empty string description or readme comes out unchanged, whatever
    its length. *)
Theorem validate_bounds parsed repoInfo out :
  validateAndNormalize parsed repoInfo = Returned out ->
  (prop "techStack" out = bounded_strings (prop "techStack" parsed) /\
   prop "features" out = bounded_strings (prop "features" parsed) /\
   prop "structure" out = bounded_strings (prop "structure" parsed)) /\
  (array_length (prop "techStack" out) <= 5 /\
   array_length (prop "features" out) <= 5 /\
   array_length (prop "structure" out) <= 5) /\
  (nonempty_string (prop "description" parsed) = true ->
   prop "description" out = prop "description" parsed) /\
  (nonempty_string (prop "readme" parsed) = true ->
   prop "readme" out = prop "readme" parsed).
Proof.
  intros H. apply validate_shape in H.
  destruct H as (_ & pn & d & rd & -> & _ & Hd & Hrd).
  match goal with
  | |- context [prop _ (object [field _ ?a; field _ ?b; field _ ?c; field _ ?d0; field _ ?e;
                                 field _ ?f])] =>
      destruct (lookup_field_result a b c d0 e f) as (_ & E2 & E3 & E4 & E5 & E6)
  end.
  rewrite E2, E3, E4, E5, E6.
  split; [repeat split|]. split; [repeat split; apply bounded_strings_length|].
  split; intros Hn; apply nonempty_string_fixed in Hn; destruct Hn as [Hs Ht].
  - rewrite (Hd Ht). exact Hs.
  - rewrite (Hrd Ht). exact Hs.
Qed.

Lemma validate_bounds_witness :
  validateAndNormalize Sample.long_description Sample.context
  = Returned (normalized Sample.long_description Sample.context) /\
  prop "description" (normalized Sample.long_description Sample.context)
  = prop "description" Sample.long_description.
Proof.
  assert (H : validateAndNormalize Sample.long_description Sample.context
              = Returned (normalized Sample.long_description Sample.context))
    by (vm_compute; reflexivity).
  split; [exact H|].
  apply (@validate_bounds _ _ _ H). vm_compute. reflexivity.
Defined.

(** C8, counterexample: the parsed completion whose description is the
    empty array validates to an empty description, which a second
    validation replaces by the default sentence. *)
Lemma validate_not_idempotent :
  exists r r',
    validateAndNormalize Sample.empty_array_description Sample.context = Returned r /\
    validateAndNormalize r Sample.context = Returned r' /\
    prop "description" r = VStr [] /\
    prop "description" r' = VStr (str "A software project.") /\
    r' <> r.
Proof.
  do 2 eexists. split; [vm_compute; reflexivity|]. split; [vm_compute; reflexivity|].
  split; [reflexivity|]. split; [reflexivity|]. vm_compute. discriminate.
Qed.

(** C8, amended: stage-5 validation is idempotent on every result whose
    three string fields are non-empty: for every result [r] of
    [validateAndNormalize] with non-empty projectName, description and
    readme, and a fixed context, validating [r] again returns [r]. *)
Theorem validate_idempotent parsed repoInfo r :
  validateAndNormalize parsed repoInfo = Returned r ->
  strings_nonempty r = true ->
  validateAndNormalize r repoInfo = Returned r.
Proof.
  intros H Hne. apply validate_shape in H.
  destruct H as (_ & pn & d & rd & -> & _).
  unfold strings_nonempty in Hne.
  match type of Hne with
  | context [prop _ (object [field _ ?a; field _ ?b; field _ ?c; field _ ?d0; field _ ?e;
                              field _ ?f])] =>
      destruct (lookup_field_result a b c d0 e f) as (E1 & E2 & E3 & E4 & E5 & E6)
  end.
  rewrite E1, E2, E6 in Hne.
  apply andb_prop in Hne. destruct Hne as [Hne H3]. apply andb_prop in Hne.
  destruct Hne as [H1 H2].
  match goal with
  | |- validateAndNormalize ?r _ = _ =>
      rewrite (@validate_self_sufficient r repoInfo eq_refl H1 H2 H3
                 (bounded_strings_bounded (prop "techStack" parsed))
                 (bounded_strings_bounded (prop "features" parsed))
                 (bounded_strings_bounded (prop "structure" parsed)))
  end.
  reflexivity.
Qed.

Lemma validate_idempotent_witness :
  validateAndNormalize Sample.scenario_A_parsed Sample.context
  = Returned Sample.scenario_A_parsed /\
  strings_nonempty Sample.scenario_A_parsed = true /\
  validateAndNormalize Sample.scenario_A_parsed Sample.context
  = Returned Sample.scenario_A_parsed.
Proof.
  assert (H : validateAndNormalize Sample.scenario_A_parsed Sample.context
              = Returned Sample.scenario_A_parsed) by (vm_compute; reflexivity).
  split; [exact H|]. split; [reflexivity|].
  exact (@validate_idempotent _ _ _ H eq_refl).
Defined.

(** ** Stage 1 on a clean completion *)

Lemma lastIndexOf_last c : forall l, lastIndexOf c (l ++ [c]) = Some (length l).
Proof.
  induction l as [|x l IH]; simpl.
  - now rewrite N.eqb_refl.
  - now rewrite IH.
Qed.

Lemma object_boundaries_whole inner :
  object_boundaries (Ch.lbrace :: inner ++ [Ch.rbrace]) = Ch.lbrace :: inner ++ [Ch.rbrace].
Proof.
  unfold object_boundaries.
  change (indexOf Ch.lbrace (Ch.lbrace :: inner ++ [Ch.rbrace])) with (Some 0).
  change (Ch.lbrace :: inner ++ [Ch.rbrace]) with ((Ch.lbrace :: inner) ++ [Ch.rbrace]).
  rewrite lastIndexOf_last. cbn [length Nat.ltb Nat.leb].
  unfold substring. rewrite Nat.sub_0_r. cbn [skipn].
  apply firstn_all2. rewrite length_app. simpl. lia.
Qed.

Lemma analyze_nonempty content repoInfo :
  content <> [] ->
  analyzeWithAI content repoInfo =
  let jsonStr := object_boundaries (strip_fence (trim content)) in
  try_catch (parsed <- JSON_parse jsonStr ;; validateAndNormalize parsed repoInfo)
    (fun _ =>
  try_catch (parsed <- JSON_parse (repairTruncatedJson jsonStr) ;;
             validateAndNormalize parsed repoInfo)
    (fun _ => extractPartialData jsonStr repoInfo)).
Proof. destruct content; [contradiction | reflexivity]. Qed.

Lemma lookup_not_in k props : ~ In k (map fst props) -> lookup k props = None.
Proof.
  induction props as [|[k' v] props IH]; simpl; [reflexivity|]. intros H.
  destruct (jstring_eqb k' k) eqn:E.
  - apply jstring_eqb_eq in E. tauto.
  - apply IH. tauto.
Qed.

Lemma prop_lookup key props x :
  prop key (VObj props) = x -> x <> VUndefined -> lookup (str key) props = Some x.
Proof.
  unfold prop. destruct (lookup (str key) props); intros <- H; [reflexivity | contradiction].
Qed.

Lemma nonempty_string_defined x : nonempty_string x = true -> x <> VUndefined.
Proof. destruct x; simpl; congruence. Qed.

Lemma bounded_array_defined x : bounded_string_array x = true -> x <> VUndefined.
Proof. destruct x; simpl; congruence. Qed.

(** A value that meets the schema is a fixed point of stage 5, up to the
    order of its keys. *)
Lemma validate_schema_roundtrip parsed repoInfo :
  matches_schema parsed = true ->
  exists out, validateAndNormalize parsed repoInfo = Returned out /\ same_object out parsed.
Proof.
  intros H. destruct parsed as [| | | | | |props]; try discriminate.
  unfold matches_schema in H.
  repeat (apply andb_prop in H; let H' := fresh "F" in destruct H as [H H']).
  rename H into Hkeys.
  rewrite (@validate_self_sufficient (VObj props) repoInfo eq_refl F4 F3 F F2 F1 F0).
  eexists. split; [reflexivity|].
  unfold same_object, object. intros k. cbn [lookup field].
  apply nonempty_string_defined in F4, F3, F.
  apply bounded_array_defined in F2, F1, F0.
  repeat match goal with
         | |- (if jstring_eqb ?a k then _ else _) = _ =>
             let E := fresh "E" in
             destruct (jstring_eqb a k) eqn:E;
             [apply jstring_eqb_eq in E; subst k; symmetry; apply prop_lookup;
              [reflexivity | assumption] |]
         end.
  symmetry. apply lookup_not_in. intros Hin.
  cbn [own_keys] in Hkeys. rewrite forallb_forall in Hkeys.
  specialize (Hkeys k Hin). apply existsb_exists in Hkeys.
  destruct Hkeys as (k' & Hk' & Ek). apply jstring_eqb_eq in Ek. subst k'.
  cbn [the_fields map In] in Hk'.
  repeat match goal with
         | H : _ \/ _ |- _ => destruct H as [H|H]
         | H : str _ = k |- _ => subst k; rewrite jstring_eqb_refl in *; discriminate
         end.
  contradiction.
Qed.

(** C5, counterexample: a well-formed completion that matches the schema,
    with a fenced block inside its readme.  [JSON.parse] accepts the
    completion itself, but stage 1 hands the body of the fence to the
    direct parse, which fails, and the result carries the defaults of the
    context instead of the parsed input. *)
Lemma fenced_completion_not_round_tripped :
  JSON_parse Sample.fenced_readme = Returned Sample.fenced_readme_parsed /\
  matches_schema Sample.fenced_readme_parsed = true /\
  JSON_parse (object_boundaries (strip_fence (trim Sample.fenced_readme)))
  = Thrown SyntaxError /\
  exists out,
    analyzeWithAI Sample.fenced_readme Sample.context = Returned out /\
    prop "projectName" out = VStr (str "repo") /\
    out <> Sample.fenced_readme_parsed.
Proof.
  split; [vm_compute; reflexivity|]. split; [vm_compute; reflexivity|].
  split; [vm_compute; reflexivity|].
  eexists. split; [vm_compute; reflexivity|]. split; [reflexivity|].
  vm_compute. discriminate.
Qed.

(** A completion that [JSON.parse] turns into an object is the text of
    the object, from its opening brace to its closing brace, between
    whitespace; the text alone parses to the same object. *)
Lemma parsed_object_text content props :
  JSON_parse content = Returned (VObj props) ->
  exists before inner after,
    content = before ++ (Ch.lbrace :: inner ++ [Ch.rbrace]) ++ after /\
    forallb is_space before = true /\ forallb is_space after = true /\
    JSON_parse (Ch.lbrace :: inner ++ [Ch.rbrace]) = Returned (VObj props).
Proof.
  unfold JSON_parse, Json.parse. cbv zeta. intros H.
  destruct (strip_both_split Json.is_ws content) as (before & after & Ec & Hb & Ha).
  destruct (Json.parse_value _ (strip_both Json.is_ws content)) as [v rest| |] eqn:Ep;
    try discriminate.
  destruct rest; [|discriminate]. injection H as ->.
  destruct (@JsonFacts.object_text _ _ _ _ (le_n _) Ep) as (a & inner & Et & Hws).
  rewrite app_nil_r in Et.
  destruct a as [|w a].
  - cbn [app] in Et. exists before, inner, after. rewrite <- Et.
    split; [exact Ec|]. split; [now apply json_ws_all_space|].
    split; [now apply json_ws_all_space|].
    assert (Es : strip_both Json.is_ws (strip_both Json.is_ws content)
                 = strip_both Json.is_ws content).
    { rewrite Et.
      pose proof (@strip_both_surrounded Json.is_ws [] [] Ch.lbrace inner Ch.rbrace
                    eq_refl eq_refl eq_refl eq_refl) as Hfix.
      cbn [app] in Hfix. rewrite app_nil_r in Hfix. exact Hfix. }
    rewrite Es, Ep. reflexivity.
  - cbn [app] in Et. apply strip_both_head in Et.
    cbn [forallb] in Hws. rewrite Et in Hws. discriminate.
Qed.

(** C5, amended: for every well-formed completion in which the fence
    pattern finds no match and whose parsed object exactly matches the
    indexer schema (the six fields and no other, non-empty strings, arrays
    of at most five strings), the direct parse succeeds and the stage-5
    output has exactly the properties of the parsed input, empty arrays
    included. *)
Theorem round_trip content parsed repoInfo :
  JSON_parse content = Returned parsed ->
  matches_schema parsed = true ->
  exec Re.fence (trim content) = None ->
  JSON_parse (object_boundaries (strip_fence (trim content))) = Returned parsed /\
  exists out, analyzeWithAI content repoInfo = Returned out /\ same_object out parsed.
Proof.
  intros Hp Hs Hf.
  assert (Ho : exists props, parsed = VObj props)
    by (destruct parsed; try discriminate; eauto).
  destruct Ho as (props & ->).
  destruct (@parsed_object_text _ _ Hp) as (before & inner & after & -> & Hb & Ha & Hbody).
  assert (Htrim : trim (before ++ (Ch.lbrace :: inner ++ [Ch.rbrace]) ++ after)
                  = Ch.lbrace :: inner ++ [Ch.rbrace])
    by (apply strip_both_surrounded; assumption || reflexivity).
  assert (Hclean : object_boundaries
                     (strip_fence (trim (before ++ (Ch.lbrace :: inner ++ [Ch.rbrace]) ++ after)))
                   = Ch.lbrace :: inner ++ [Ch.rbrace]).
  { unfold strip_fence. rewrite Hf, Htrim. apply object_boundaries_whole. }
  rewrite Hclean. split; [assumption|].
  rewrite analyze_nonempty by (destruct before; discriminate).
  cbv zeta. rewrite Hclean, Hbody. cbn [bind].
  destruct (@validate_schema_roundtrip (VObj props) repoInfo Hs) as (out & -> & Hsame).
  exists out. split; [reflexivity | assumption].
Qed.

(** Scenario A: the direct parse succeeds and the output is the parsed
    input verbatim. *)
Lemma scenario_A_verbatim :
  JSON_parse Sample.scenario_A = Returned Sample.scenario_A_parsed /\
  analyzeWithAI Sample.scenario_A Sample.context = Returned Sample.scenario_A_parsed.
Proof. split; vm_compute; reflexivity. Qed.

Lemma round_trip_witness :
  JSON_parse Sample.scenario_A = Returned Sample.scenario_A_parsed /\
  matches_schema Sample.scenario_A_parsed = true /\
  exec Re.fence (trim Sample.scenario_A) = None /\
  JSON_parse (object_boundaries (strip_fence (trim Sample.scenario_A)))
  = Returned Sample.scenario_A_parsed /\
  exists out, analyzeWithAI Sample.scenario_A Sample.context = Returned out /\
              same_object out Sample.scenario_A_parsed.
Proof.
  split; [vm_compute; reflexivity|]. split; [vm_compute; reflexivity|].
  split; [vm_compute; reflexivity|].
  apply (@round_trip Sample.scenario_A Sample.scenario_A_parsed Sample.context);
    vm_compute; reflexivity.
Defined.

(** ** Scenario D *)

Lemma scenario_D_stage1 :
  object_boundaries (strip_fence (trim Sample.scenario_D)) = Sample.scenario_D.
Proof. vm_compute. reflexivity. Qed.

Lemma scenario_D_not_json :
  indexOf Ch.lbrace Sample.scenario_D = None /\
  JSON_parse Sample.scenario_D = Thrown SyntaxError /\
  JSON_parse (repairTruncatedJson Sample.scenario_D) = Thrown SyntaxError.
Proof. repeat split; vm_compute; reflexivity. Qed.

Lemma scenario_D_patterns :
  exec (Re.scalar "projectName") Sample.scenario_D = None /\
  exec (Re.scalar "description") Sample.scenario_D = None /\
  exec (Re.array "techStack") Sample.scenario_D = None /\
  extractArray Sample.scenario_D "techStack" = [] /\
  extractArray Sample.scenario_D "features" = [] /\
  extractArray Sample.scenario_D "structure" = [] /\
  exec Re.readme Sample.scenario_D = None.
Proof. repeat split; vm_compute; reflexivity. Qed.

(** C7, counterexample: on the Scenario D text the tech stack of the
    result is not the pair TS, React: with the sample context it is the
    language names of the context. *)
Lemma scenario_D_tech_stack_not_recovered :
  exists out,
    analyzeWithAI Sample.scenario_D Sample.context = Returned out /\
    prop "techStack" out = VArr [VStr (str "TypeScript"); VStr (str "CSS")] /\
    prop "techStack" out <> VArr [VStr (str "TS"); VStr (str "React")].
Proof.
  eexists. split; [vm_compute; reflexivity|]. split; [reflexivity|].
  vm_compute. discriminate.
Qed.

(** C7, amended: on the Scenario D text (no opening brace) both parses
    fail and the funnel reaches the regex-extraction stage, where neither
    the scalar pattern for projectName nor the array pattern for techStack
    matches: for every context that is an object whose name, or path, and
    description can be printed, projectName is defaulted from the context,
    techStack is the first four language names of the context (empty when
    it has none), and every other field is its default. *)
Theorem scenario_D_defaults repoInfo :
  nullish repoInfo = false -> printable_context repoInfo = true ->
  exec (Re.scalar "projectName") Sample.scenario_D = None /\
  extractArray Sample.scenario_D "techStack" = [] /\
  analyzeWithAI Sample.scenario_D repoInfo =
  Returned (object [field "projectName" (default_name repoInfo);
                    field "description" (default_description repoInfo);
                    field "techStack" (VArr (language_names repoInfo));
                    field "features" (VArr []);
                    field "structure" (VArr []);
                    field "readme" (default_readme repoInfo)]).
Proof.
  intros Hr Hp. destruct scenario_D_patterns as (P1 & P2 & _ & P4 & P5 & P6 & P7).
  destruct scenario_D_not_json as (_ & J1 & J2).
  split; [exact P1|]. split; [exact P4|].
  rewrite analyze_nonempty by discriminate. cbv zeta.
  rewrite scenario_D_stage1, J1, J2. cbn [bind try_catch].
  rewrite (@extract_pure _ repoInfo Hr Hp). unfold extracted.
  rewrite P1, P2, P4, P5, P6, P7. reflexivity.
Qed.

Lemma scenario_D_defaults_witness :
  nullish Sample.bare_context = false /\
  printable_context Sample.bare_context = true /\
  analyzeWithAI Sample.scenario_D Sample.bare_context =
  Returned (object [field "projectName" (VStr (str "repo"));
                    field "description" (VStr (str "Repository analysis completed."));
                    field "techStack" (VArr []);
                    field "features" (VArr []);
                    field "structure" (VArr []);
                    field "readme" (default_readme Sample.bare_context)]).
Proof.
  split; [reflexivity|]. split; [reflexivity|].
  exact (proj2 (proj2 (@scenario_D_defaults Sample.bare_context eq_refl eq_refl))).
Defined.

(** ** The review function *)

(** C2, counterexample: the truncated completion of Scenario C, which the
    indexer repairs, makes the review function throw. *)
Lemma review_propagates_parse_failure :
  analyzeCodeWithAI Sample.scenario_C = Thrown (Error invalid_json_message) /\
  exists v, analyzeWithAI Sample.scenario_C Sample.context = Returned v.
Proof. split; [vm_compute; reflexivity | eexists; vm_compute; reflexivity]. Qed.

(** C2, amended: the review function has two stages only, boundary
    extraction and one direct parse: for every non-empty completion it
    returns the parsed value as it is when the extracted text is valid
    JSON, and throws the error [AI returned invalid JSON response. Please
    try again.] when it is not; there is no repair and no regex
    extraction. *)
Theorem review_parse_or_throw content :
  content <> [] ->
  analyzeCodeWithAI content =
  match JSON_parse (review_boundaries (strip_fence (trim content))) with
  | Returned v => Returned v
  | Thrown _ => Thrown (Error invalid_json_message)
  end.
Proof. intros H. destruct content; [contradiction | reflexivity]. Qed.

Lemma review_parse_or_throw_witness :
  Sample.scenario_C <> [] /\
  analyzeCodeWithAI Sample.scenario_C = Thrown (Error invalid_json_message).
Proof.
  split; [discriminate|].
  rewrite (@review_parse_or_throw Sample.scenario_C) by discriminate.
  vm_compute. reflexivity.
Defined.

(** ** Language default *)

(** C6, at the failing input: the completion holds a project name and no
    tech stack, the context knows two languages.  The direct-parse path
    returns an empty tech stack; the regex path, on a completion that is
    not JSON, returns the language names. *)
Theorem validate_skips_language_default :
  JSON_parse (strq "{'projectName':'Foo'}") = Returned Sample.no_tech_stack /\
  (exists out,
      validateAndNormalize Sample.no_tech_stack Sample.context = Returned out /\
      prop "techStack" out = VArr []) /\
  (exists out,
      analyzeWithAI (strq "{'projectName':'Foo'}") Sample.context = Returned out /\
      prop "techStack" out = VArr []) /\
  language_names Sample.context = [VStr (str "TypeScript"); VStr (str "CSS")] /\
  (exists out,
      extractPartialData (strq "'projectName':'Foo'") Sample.context = Returned out /\
      prop "techStack" out = VArr [VStr (str "TypeScript"); VStr (str "CSS")]).
Proof.
  split; [vm_compute; reflexivity|].
  split; [eexists; split; vm_compute; reflexivity|].
  split; [eexists; split; vm_compute; reflexivity|].
  split; [vm_compute; reflexivity|].
  eexists; split; vm_compute; reflexivity.
Qed.

(** Stage 5 never reads the languages of the context: an input without an
    array tech stack gets the empty array. *)
Lemma validate_tech_stack_default parsed repoInfo out :
  validateAndNormalize parsed repoInfo = Returned out ->
  isArray (prop "techStack" parsed) = false ->
  prop "techStack" out = VArr [].
Proof.
  intros H Ha. apply validate_shape in H. destruct H as (_ & pn & d & rd & -> & _).
  change (bounded_strings (prop "techStack" parsed) = VArr []).
  destruct (prop "techStack" parsed); try reflexivity. discriminate.
Qed.

(** ** The fetchers *)

(** C9, at the failing input: every call answers 200 and the manifest is
    not JSON.  [fetchGitHubRepo] throws the SyntaxError of its unguarded
    [JSON.parse]; [fetchGitLabRepo], which guards the same parse, returns
    a context with a null manifest. *)
Theorem github_manifest_aborts_fetch :
  Base64.atob (str "e2JhZA==") = Returned (str "{bad") /\
  fetchGitHubRepo Sample.github_bad_manifest = Thrown SyntaxError /\
  exists ctx,
    fetchGitLabRepo Sample.gitlab_bad_manifest = Returned ctx /\
    prop "packageJson" ctx = VNull.
Proof.
  split; [vm_compute; reflexivity|]. split; [vm_compute; reflexivity|].
  eexists. split; vm_compute; reflexivity.
Qed.

(** X11: A failed metadata call is fatal for both fetchers. *)
Lemma primary_failure_throws p :
  ok (metadata p) = false ->
  fetchGitHubRepo p = Thrown (api_error "GitHub" (metadata p)) /\
  fetchGitLabRepo p = Thrown (api_error "GitLab" (metadata p)).
Proof. intros H. unfold fetchGitHubRepo, fetchGitLabRepo. rewrite H. split; reflexivity. Qed.

(** X12: Failed secondary calls degrade the context and nothing else. *)
Lemma secondary_failures_degrade p data :
  ok (metadata p) = true -> res_json (metadata p) = Returned data ->
  ok (tree p) = false -> ok (languages p) = false -> ok (manifest p) = false ->
  fetchGitHubRepo p =
  Returned (object [field "repoData" data; field "tree" (VArr []);
                    field "languages" (VObj []); field "packageJson" VNull]) /\
  fetchGitLabRepo p =
  Returned (object [field "projectData" data; field "tree" (VArr []);
                    field "languages" (VObj []); field "packageJson" VNull]).
Proof.
  intros H0 Hd H1 H2 H3. unfold fetchGitHubRepo, fetchGitLabRepo.
  rewrite H0, Hd, H1, H2, H3. split; reflexivity.
Qed.

Example metadata_404_is_fatal :
  fetchGitHubRepo Sample.primary_down
  = Thrown (Error (str "GitHub API error: 404 - Not Found")) /\
  fetchGitLabRepo Sample.primary_down
  = Thrown (Error (str "GitLab API error: 404 - Not Found")).
Proof. split; vm_compute; reflexivity. Qed.

Example secondary_404_degrades :
  exists data,
    fetchGitHubRepo Sample.secondary_down
    = Returned (object [field "repoData" data; field "tree" (VArr []);
                        field "languages" (VObj []); field "packageJson" VNull]) /\
    fetchGitLabRepo Sample.secondary_down
    = Returned (object [field "projectData" data; field "tree" (VArr []);
                        field "languages" (VObj []); field "packageJson" VNull]).
Proof. eexists. split; vm_compute; reflexivity. Qed.

(** X13: The guard of [fetchGitLabRepo]: whatever the manifest text, the fetch
    goes on. *)
Lemma gitlab_manifest_guarded p data t l :
  ok (metadata p) = true -> res_json (metadata p) = Returned data ->
  ok (tree p) = true -> res_json (tree p) = Returned t ->
  ok (languages p) = true -> res_json (languages p) = Returned l ->
  exists m, fetchGitLabRepo p =
            Returned (object [field "projectData" data; field "tree" t;
                              field "languages" l; field "packageJson" m]).
Proof.
  intros H0 Hd H1 Ht H2 Hl. unfold fetchGitLabRepo.
  rewrite H0, Hd, H1, Ht, H2, Hl. cbn [negb bind].
  destruct (ok (manifest p)); [|eexists; reflexivity].
  destruct (JSON_parse (res_text (manifest p))); eexists; reflexivity.
Qed.

(** * The URL parsers, the request and the handler *)

(** ** Patterns with several groups *)

Lemma firstn_consumed (w s : jstring) : firstn (length (w ++ s) - length s) (w ++ s) = w.
Proof.
  rewrite length_app. replace (length w + length s - length s) with (length w) by lia.
  rewrite firstn_app, firstn_all, Nat.sub_diag. simpl. apply app_nil_r.
Qed.

Lemma match_pieces_sound R ps : forall s (k : list jstring -> jstring -> option R) x,
    match_pieces ps s k = Some x ->
    exists groups s', pieces_match ps s groups s' /\ k groups s' = Some x.
Proof.
  induction ps as [|[captured r] ps IH]; intros s k x H; cbn [match_pieces] in H.
  - exists [], s. split; [constructor | assumption].
  - apply rmatch_sound in H. destruct H as (s1 & Hr & H).
    apply IH in H. destruct H as (groups & s2 & Hps & H).
    destruct (matches_suffix Hr) as [w ->].
    rewrite firstn_consumed in H.
    exists (if captured then w :: groups else groups), s2.
    split; [econstructor; [reflexivity | assumption | assumption] | assumption].
Qed.

Lemma search_groups_sound ps : forall s groups,
    search_groups ps s = Some groups ->
    exists pre rest s', s = pre ++ rest /\ pieces_match ps rest groups s'.
Proof.
  induction s as [|c s IH]; intros groups H; cbn [search_groups] in H.
  - destruct (match_pieces ps [] _) as [g|] eqn:E; [|discriminate].
    injection H as ->. apply match_pieces_sound in E.
    destruct E as (groups' & s' & Hm & E). injection E as ->.
    exists [], [], s'. split; [reflexivity | assumption].
  - destruct (match_pieces ps (c :: s) _) as [g|] eqn:E.
    + injection H as ->. apply match_pieces_sound in E.
      destruct E as (groups' & s' & Hm & E). injection E as ->.
      exists [], (c :: s), s'. split; [reflexivity | assumption].
    + apply IH in H. destruct H as (pre & rest & s' & -> & Hm).
      exists (c :: pre), rest, s'. split; [reflexivity | assumption].
Qed.

Lemma rmatch_word_app R w s (k : jstring -> option R) : rmatch (word w) (w ++ s) k = k s.
Proof.
  induction w as [|c w IH]; [reflexivity|].
  cbn [word app rmatch lit]. rewrite N.eqb_refl. exact IH.
Qed.

Lemma rmatch_word_head R c w x s (k : jstring -> option R) :
  x <> c -> rmatch (word (c :: w)) (x :: s) k = None.
Proof.
  intros Hx. cbn [word rmatch lit].
  destruct (c =? x)%N eqn:E; [|reflexivity]. apply N.eqb_eq in E. congruence.
Qed.

(** A greedy run of a class takes the whole run first. *)
Lemma star_chr_stop R p w s (k : jstring -> option R) x :
  forallb p w = true -> stops p s -> k s = Some x ->
  rmatch (Star true (Chr p)) (w ++ s) k = Some x.
Proof.
  intros Hw Hs Hk. induction w as [|c w IH].
  - cbn [app]. rewrite rmatch_star_greedy. destruct s as [|c s].
    + cbn [rmatch]. exact Hk.
    + rewrite rmatch_chr. simpl in Hs. rewrite Hs. exact Hk.
  - cbn [forallb] in Hw. apply andb_prop in Hw. destruct Hw as [Hc Hw].
    cbn [app]. rewrite rmatch_star_greedy, rmatch_chr, Hc, length_tail_ltb.
    rewrite (IH Hw). reflexivity.
Qed.

Lemma plus_chr_stop R p w s (k : jstring -> option R) x :
  w <> [] -> forallb p w = true -> stops p s -> k s = Some x ->
  rmatch (plus (Chr p)) (w ++ s) k = Some x.
Proof.
  intros Hne Hw Hs Hk. destruct w as [|c w]; [contradiction|].
  cbn [forallb] in Hw. apply andb_prop in Hw. destruct Hw as [Hc Hw].
  unfold plus. cbn [app]. change (rmatch (Seq (Chr p) (Star true (Chr p))) (c :: w ++ s) k)
    with (rmatch (Chr p) (c :: w ++ s) (fun s' => rmatch (Star true (Chr p)) s' k)).
  rewrite rmatch_chr, Hc. apply star_chr_stop; assumption.
Qed.

(** No match starts inside a text free of the first unit of the pattern. *)
Lemma search_groups_skip captured c w ps pre s :
  free_of [c] pre ->
  search_groups ((captured, word (c :: w)) :: ps) (pre ++ s)
  = search_groups ((captured, word (c :: w)) :: ps) s.
Proof.
  unfold free_of. induction pre as [|x pre IH]; intros H; [reflexivity|].
  cbn [forallb existsb] in H. apply andb_prop in H. destruct H as [Hx H].
  cbn [app search_groups match_pieces].
  rewrite rmatch_word_head.
  - exact (IH H).
  - intros ->. rewrite N.eqb_refl in Hx. discriminate.
Qed.

Lemma search_groups_here ps s groups :
  match_pieces ps s (fun groups _ => Some groups) = Some groups ->
  search_groups ps s = Some groups.
Proof. intros H. destruct s; cbn [search_groups]; rewrite H; reflexivity. Qed.

(** ** A final [.git] *)

Lemma match_here_dot_git s :
  match_here (whole UrlRe.dot_git_end) s =
  if jstring_eqb s (str ".git") then Some (s, [], []) else None.
Proof.
  destruct (jstring_eqb s (str ".git")) eqn:E.
  - apply jstring_eqb_eq in E. subst s. reflexivity.
  - destruct (match_here (whole UrlRe.dot_git_end) s) as [r|] eqn:H; [|reflexivity].
    exfalso. unfold match_here, whole, UrlRe.dot_git_end in H. cbn [p_before p_group p_after] in H.
    change (rmatch Eps s ?k) with (k s) in H. cbv beta in H.
    apply rmatch_sound in H. destruct H as (s2 & Hm & _).
    apply matches_seq_iff in Hm. destruct Hm as (s1 & Hw & He).
    apply matches_word_iff in Hw. apply matches_end_iff in He. destruct He as [-> _].
    rewrite app_nil_r in Hw. subst s. discriminate.
Qed.

Lemma search_dot_git : forall s i,
    match search (whole UrlRe.dot_git_end) i s with
    | Some m => firstn (m_index m - i) s ++ m_rest m = strip_dot_git s /\ i <= m_index m
    | None => strip_dot_git s = s
    end.
Proof.
  induction s as [|c s IH]; intros i; rewrite search_unfold, match_here_dot_git.
  - reflexivity.
  - cbn [strip_dot_git].
    destruct (jstring_eqb (c :: s) (str ".git")).
    + cbn [m_index m_rest]. rewrite Nat.sub_diag. split; [reflexivity | lia].
    + specialize (IH (S i)). destruct (search (whole UrlRe.dot_git_end) (S i) s) as [m|].
      * destruct IH as [IH L]. split; [|lia].
        replace (m_index m - i) with (S (m_index m - S i)) by lia.
        cbn [firstn app]. now rewrite IH.
      * now rewrite IH.
Qed.

Lemma replace_dot_git s : replace_first UrlRe.dot_git_end [] s = strip_dot_git s.
Proof.
  unfold replace_first, exec. pose proof (search_dot_git s 0) as H.
  destruct (search (whole UrlRe.dot_git_end) 0 s) as [m|].
  - destruct H as [H _]. rewrite Nat.sub_0_r in H. exact H.
  - symmetry. exact H.
Qed.

Lemma strip_dot_git_suffix : forall a, strip_dot_git (a ++ str ".git") = a.
Proof.
  induction a as [|c a IH]; [reflexivity|].
  cbn [app strip_dot_git]. rewrite IH.
  destruct (jstring_eqb (c :: a ++ str ".git") (str ".git")) eqn:E; [|reflexivity].
  apply jstring_eqb_eq in E. apply (f_equal (@length N)) in E.
  cbn [length] in E. rewrite length_app in E. simpl in E. lia.
Qed.

Lemma strip_dot_git_keep : forall s, (forall a, s <> a ++ str ".git") -> strip_dot_git s = s.
Proof.
  induction s as [|c s IH]; intros H; [reflexivity|].
  cbn [strip_dot_git].
  destruct (jstring_eqb (c :: s) (str ".git")) eqn:E.
  - apply jstring_eqb_eq in E. exfalso. apply (H []). exact E.
  - f_equal. apply IH. intros a Ha. apply (H (c :: a)). rewrite Ha. reflexivity.
Qed.

Lemma strip_dot_git_prefix : forall s, prefix (strip_dot_git s) s.
Proof.
  induction s as [|c s IH]; [exists []; reflexivity|].
  cbn [strip_dot_git]. destruct (jstring_eqb (c :: s) (str ".git")).
  - exists (c :: s). reflexivity.
  - destruct IH as [d IH]. exists d. cbn [app]. now rewrite <- IH.
Qed.

(** ** [parseRepoUrl] *)

Lemma github_repo_groups pre owner name rest :
  free_of [g_letter] pre ->
  owner <> [] -> free_of [UrlRe.slash] owner ->
  name <> [] -> free_of [UrlRe.slash] name ->
  rest = [] \/ (exists t, rest = UrlRe.slash :: t) ->
  search_groups UrlRe.github_repo
    (pre ++ str "github.com/" ++ owner ++ [UrlRe.slash] ++ name ++ rest)
  = Some [owner; name].
Proof.
  intros Hpre Ho1 Ho2 Hn1 Hn2 Hrest.
  unfold UrlRe.github_repo.
  change (str "github.com/") with (g_letter :: str "ithub.com/") at 1.
  rewrite search_groups_skip by exact Hpre.
  apply search_groups_here.
  cbn [match_pieces]. rewrite rmatch_word_app.
  unfold UrlRe.segment, none_of.
  apply plus_chr_stop; [exact Ho1 | exact Ho2 | reflexivity |].
  cbn [app rmatch lit]. rewrite N.eqb_refl.
  apply plus_chr_stop; [exact Hn1 | exact Hn2 | |].
  - destruct Hrest as [-> | [t ->]]; reflexivity.
  - change (UrlRe.slash :: name ++ rest) with ([UrlRe.slash] ++ name ++ rest).
    rewrite !firstn_consumed. reflexivity.
Qed.

Lemma split_on_cons c x s :
  split_on c (x :: s) =
  if (x =? c)%N then [] :: split_on c s
  else match split_on c s with
       | p :: ps => (x :: p) :: ps
       | [] => [[x]]
       end.
Proof. reflexivity. Qed.

Lemma split_on_nonempty c s : split_on c s <> [].
Proof.
  induction s as [|x s IH]; [discriminate|].
  rewrite split_on_cons. destruct (x =? c)%N; [discriminate|].
  destruct (split_on c s); discriminate.
Qed.

Lemma join_cons2 (sep a b : jstring) l : join sep (a :: b :: l) = a ++ sep ++ join sep (b :: l).
Proof. reflexivity. Qed.

(** Splitting and joining are inverse of each other. *)
Lemma join_split c : forall s, join [c] (split_on c s) = s.
Proof.
  induction s as [|x s IH]; [reflexivity|].
  rewrite split_on_cons. pose proof (@split_on_nonempty c s) as Hne.
  destruct (split_on c s) as [|p ps]; [contradiction|].
  destruct (x =? c)%N eqn:E.
  - apply N.eqb_eq in E. subst x. rewrite join_cons2, IH. reflexivity.
  - destruct ps as [|q ps].
    + cbn [join] in *. now rewrite IH.
    + rewrite <- IH, !join_cons2. reflexivity.
Qed.

Lemma free_of_cons l x w :
  free_of l (x :: w) <-> existsb (N.eqb x) l = false /\ free_of l w.
Proof.
  unfold free_of. cbn [forallb]. rewrite andb_true_iff, negb_true_iff. reflexivity.
Qed.

Lemma free_of_app l a b : free_of l (a ++ b) <-> free_of l a /\ free_of l b.
Proof. unfold free_of. rewrite forallb_app, andb_true_iff. reflexivity. Qed.

Lemma split_on_free c : forall s, Forall (free_of [c]) (split_on c s).
Proof.
  induction s as [|x s IH]; [repeat constructor|].
  rewrite split_on_cons. destruct (x =? c)%N eqn:E.
  - constructor; [reflexivity | exact IH].
  - destruct (split_on c s) as [|p ps].
    + repeat constructor. apply free_of_cons. split; [|reflexivity].
      cbn [existsb]. now rewrite E.
    + inversion IH as [|? ? Hp Hps]. subst. constructor; [|exact Hps].
      apply free_of_cons. split; [|exact Hp]. cbn [existsb]. now rewrite E.
Qed.

Lemma split_join c : forall l,
    l <> [] -> Forall (free_of [c]) l -> split_on c (join [c] l) = l.
Proof.
  induction l as [|a l IH]; intros Hne Hl; [contradiction|].
  inversion Hl as [|? ? Ha Hl']. subst.
  destruct l as [|b l].
  - cbn [join]. clear IH Hl Hl' Hne. induction a as [|x a IHa]; [reflexivity|].
    apply free_of_cons in Ha. destruct Ha as [Hx Ha]. cbn [existsb] in Hx.
    rewrite orb_false_r in Hx. rewrite split_on_cons, Hx, (IHa Ha). reflexivity.
  - assert (IH' : split_on c (join [c] (b :: l)) = b :: l) by (apply IH; [discriminate | exact Hl']).
    change (join [c] (a :: b :: l)) with (a ++ [c] ++ join [c] (b :: l)).
    clear IH Hl Hl' Hne. induction a as [|x a IHa].
    + cbn [app]. rewrite split_on_cons, N.eqb_refl, IH'. reflexivity.
    + apply free_of_cons in Ha. destruct Ha as [Hx Ha]. cbn [existsb] in Hx.
      rewrite orb_false_r in Hx. cbn [app]. rewrite split_on_cons, Hx.
      cbn [app] in IHa. rewrite (IHa Ha). reflexivity.
Qed.

Lemma join_snoc (sep : jstring) : forall l x,
    l <> [] -> join sep (l ++ [x]) = join sep l ++ sep ++ x.
Proof.
  induction l as [|a l IH]; intros x Hne; [contradiction|].
  destruct l as [|b l]; [reflexivity|].
  change (join sep ((a :: b :: l) ++ [x])) with (a ++ sep ++ join sep ((b :: l) ++ [x])).
  rewrite IH by discriminate.
  change (join sep (a :: b :: l)) with (a ++ sep ++ join sep (b :: l)).
  now rewrite <- !app_assoc.
Qed.

Lemma last_removelast (l : list jstring) : l <> [] -> l = removelast l ++ [last l []].
Proof. intros H. apply app_removelast_last. exact H. Qed.

Lemma removelast_snoc (l : list jstring) x : removelast (l ++ [x]) = l.
Proof. apply removelast_last. Qed.


Lemma github_repo_inv rest groups s' :
  pieces_match UrlRe.github_repo rest groups s' ->
  exists owner name,
    groups = [owner; name] /\
    rest = str "github.com/" ++ owner ++ [UrlRe.slash] ++ name ++ s' /\
    owner <> [] /\ free_of [UrlRe.slash] owner /\ name <> [] /\ free_of [UrlRe.slash] name.
Proof.
  intros H. unfold UrlRe.github_repo in H.
  inversion H as [|? ? ? w1 ? s1 g1 ? E1 M1 H1]; subst; clear H.
  inversion H1 as [|? ? ? w2 ? s2 g2 ? E2 M2 H2]; subst; clear H1.
  inversion H2 as [|? ? ? w3 ? s3 g3 ? E3 M3 H3]; subst; clear H2.
  inversion H3 as [|? ? ? w4 ? s4 g4 ? E4 M4 H4]; subst; clear H3.
  inversion H4; subst; clear H4.
  apply (proj1 (@matches_word_iff (str "github.com/") _ _)) in M1.
  apply app_inv_tail in M1. subst w1.
  apply (proj1 (@matches_plus_chr_iff _ _ _)) in M2. destruct M2 as (o & Eo & Hne & Ho).
  apply app_inv_tail in Eo. subst o.
  apply (proj1 (@matches_lit_iff UrlRe.slash _ _)) in M3. change (UrlRe.slash :: ?x) with ([UrlRe.slash] ++ x) in M3.
  apply app_inv_tail in M3. subst w3.
  apply (proj1 (@matches_plus_chr_iff _ _ _)) in M4. destruct M4 as (n & En & Hnn & Hn).
  apply app_inv_tail in En. subst n.
  exists w2, w4. repeat split; assumption.
Qed.

Lemma gitlab_repo_inv rest groups s' :
  pieces_match UrlRe.gitlab_repo rest groups s' ->
  exists path, groups = [path] /\ rest = str "gitlab.com/" ++ path ++ s' /\ path <> [].
Proof.
  intros H. unfold UrlRe.gitlab_repo in H.
  inversion H as [|? ? ? w1 ? s1 g1 ? E1 M1 H1]; subst; clear H.
  inversion H1 as [|? ? ? w2 ? s2 g2 ? E2 M2 H2]; subst; clear H1.
  inversion H2; subst; clear H2.
  apply (proj1 (@matches_word_iff (str "gitlab.com/") _ _)) in M1.
  apply app_inv_tail in M1. subst w1.
  apply (proj1 (@matches_plus_chr_iff _ _ _)) in M2. destruct M2 as (o & Eo & Hne & Ho).
  apply app_inv_tail in Eo. subst o.
  exists w2. repeat split; assumption.
Qed.

Lemma free_of_prefix l p s : prefix p s -> free_of l s -> free_of l p.
Proof. intros [d ->] H. apply free_of_app in H. tauto. Qed.

Lemma last_free c l : Forall (free_of [c]) l -> free_of [c] (last l []).
Proof.
  induction 1 as [|a l Ha Hl IH]; [reflexivity|].
  destruct l; [exact Ha | exact IH].
Qed.

Lemma join_removelast (sep : jstring) (l : list jstring) :
  2 <= length l -> join sep l = join sep (removelast l) ++ sep ++ last l [].
Proof.
  intros H. assert (Hne : l <> []) by (destruct l; [simpl in H; lia | discriminate]).
  rewrite (last_removelast Hne) at 1. apply join_snoc.
  destruct l as [|a [|b l]]; simpl in H; try lia. discriminate.
Qed.

(** X1: What [parseRepoUrl] returns is written in the URL: after the host its
    owner, a slash and its repository name follow, and the name holds no
    slash; on GitHub the owner is one non-empty segment. *)
Theorem parseRepoUrl_sound url info :
  parseRepoUrl url = Some info ->
  (exists pre post,
      url = pre ++ host (r_platform info) ++ r_owner info ++ [UrlRe.slash] ++ r_repo info ++ post)
  /\ free_of [UrlRe.slash] (r_repo info)
  /\ (r_platform info = github -> r_owner info <> [] /\ free_of [UrlRe.slash] (r_owner info)).
Proof.
  unfold parseRepoUrl. intros H.
  destruct (search_groups UrlRe.github_repo url) as [groups|] eqn:E.
  - injection H as <-. cbn [r_platform r_owner r_repo host].
    apply search_groups_sound in E. destruct E as (pre & rest & s' & -> & Hm).
    apply github_repo_inv in Hm.
    destruct Hm as (owner & name & -> & -> & Ho1 & Ho2 & Hn1 & Hn2).
    unfold group. cbn [nth Nat.sub]. rewrite replace_dot_git.
    destruct (strip_dot_git_prefix name) as [d Hd].
    split; [|split].
    + exists pre, (d ++ s'). rewrite Hd at 1. now rewrite <- !app_assoc.
    + apply (@free_of_prefix _ (strip_dot_git name) name); [exists d; exact Hd | exact Hn2].
    + intros _. split; assumption.
  - destruct (search_groups UrlRe.gitlab_repo url) as [groups|] eqn:E'; [|discriminate].
    apply search_groups_sound in E'. destruct E' as (pre & rest & s' & -> & Hm).
    apply gitlab_repo_inv in Hm. destruct Hm as (path & -> & -> & Hne).
    unfold group in H. cbn [nth Nat.sub] in H. rewrite replace_dot_git in H.
    destruct (2 <=? length (split_on UrlRe.slash (strip_dot_git path))) eqn:L; [|discriminate].
    apply Nat.leb_le in L. injection H as <-. cbn [r_platform r_owner r_repo host].
    destruct (strip_dot_git_prefix path) as [d Hd].
    split; [|split].
    + exists pre, (d ++ s').
      pose proof (@join_removelast [UrlRe.slash] _ L) as Hp. rewrite join_split in Hp.
      set (parts := split_on UrlRe.slash (strip_dot_git path)) in *.
      transitivity (pre ++ str "gitlab.com/" ++ (strip_dot_git path ++ d) ++ s');
        [now rewrite <- Hd|].
      rewrite Hp. now rewrite <- !app_assoc.
    + apply last_free, split_on_free.
    + discriminate.
Qed.

(** X2: A GitHub URL round-trips: whatever stands in front of the host (as
    long as it holds no letter g) and whatever path follows the
    repository, the owner is the first segment and the repository the
    second one without a final [.git]. *)
Theorem parseRepoUrl_github pre owner name rest :
  free_of [g_letter] pre ->
  owner <> [] -> free_of [UrlRe.slash] owner ->
  name <> [] -> free_of [UrlRe.slash] name ->
  rest = [] \/ (exists t, rest = UrlRe.slash :: t) ->
  parseRepoUrl (pre ++ str "github.com/" ++ owner ++ [UrlRe.slash] ++ name ++ rest)
  = Some {| r_platform := github; r_owner := owner; r_repo := strip_dot_git name |}.
Proof.
  intros Hpre Ho1 Ho2 Hn1 Hn2 Hrest. unfold parseRepoUrl.
  rewrite (@github_repo_groups pre owner name rest Hpre Ho1 Ho2 Hn1 Hn2 Hrest).
  unfold group. cbn [nth Nat.sub]. rewrite replace_dot_git. reflexivity.
Qed.

Lemma gitlab_repo_groups pre path :
  free_of [g_letter] pre -> path <> [] ->
  forallb (fun c => negb (is_line_terminator c)) path = true ->
  search_groups UrlRe.gitlab_repo (pre ++ str "gitlab.com/" ++ path) = Some [path].
Proof.
  intros Hpre Hne Hp. unfold UrlRe.gitlab_repo.
  change (str "gitlab.com/") with (g_letter :: str "itlab.com/") at 1.
  rewrite search_groups_skip by exact Hpre.
  apply search_groups_here.
  cbn [match_pieces]. rewrite rmatch_word_app. unfold dot_nl.
  rewrite <- (app_nil_r path) at 1.
  apply plus_chr_stop; [exact Hne | exact Hp | exact I |].
  cbn [match_pieces]. rewrite <- (app_nil_r path) at 1 2.
  rewrite firstn_consumed. reflexivity.
Qed.

(** X3: A GitLab URL with nested groups round-trips: the owner is the whole
    group path and the repository the last segment. *)
Theorem parseRepoUrl_gitlab pre groups name suffix :
  free_of [g_letter] pre ->
  groups <> [] -> Forall (free_of [UrlRe.slash]) (groups ++ [name]) ->
  forallb (fun c => negb (is_line_terminator c)) (join [UrlRe.slash] (groups ++ [name])) = true ->
  suffix = str ".git" \/ (suffix = [] /\ forall a, name <> a ++ str ".git") ->
  search_groups UrlRe.github_repo
    (pre ++ str "gitlab.com/" ++ join [UrlRe.slash] (groups ++ [name]) ++ suffix) = None ->
  parseRepoUrl (pre ++ str "gitlab.com/" ++ join [UrlRe.slash] (groups ++ [name]) ++ suffix)
  = Some {| r_platform := gitlab; r_owner := join [UrlRe.slash] groups; r_repo := name |}.
Proof.
  intros Hpre Hg Hfree Hlt Hsuffix Hgh. unfold parseRepoUrl. rewrite Hgh.
  set (path := join [UrlRe.slash] (groups ++ [name])) in *.
  assert (Hpath : path = join [UrlRe.slash] groups ++ [UrlRe.slash] ++ name)
    by (apply join_snoc; exact Hg).
  assert (Hstrip : strip_dot_git (path ++ suffix) = path).
  { destruct Hsuffix as [-> | [-> Hname]]; [apply strip_dot_git_suffix|].
    rewrite app_nil_r. apply strip_dot_git_keep. intros a Ha. rewrite Hpath in Ha.
    assert (Hr : rev name ++ [UrlRe.slash] ++ rev (join [UrlRe.slash] groups)
                 = rev (str ".git") ++ rev a).
    { rewrite <- rev_app_distr, <- Ha, !rev_app_distr. cbn [rev app].
      now rewrite <- !app_assoc. }
    destruct (rev name) as [|n1 [|n2 [|n3 [|n4 r]]]] eqn:En; try discriminate Hr.
    injection Hr as -> -> -> -> _.
    apply (Hname (rev r)). rewrite <- (rev_involutive name), En.
    cbn [rev]. rewrite <- !app_assoc. reflexivity. }
  rewrite gitlab_repo_groups.
  - unfold group. cbn [nth Nat.sub]. rewrite replace_dot_git, Hstrip.
    unfold path. rewrite (@split_join UrlRe.slash (groups ++ [name])); [|now destruct groups | exact Hfree].
    rewrite length_app, removelast_snoc, last_last. cbn [length].
    destruct groups as [|g groups]; [contradiction|]. cbn [length].
    replace (2 <=? S (length groups) + 1) with true by (symmetry; apply Nat.leb_le; lia).
    reflexivity.
  - exact Hpre.
  - rewrite Hpath. destruct (join [UrlRe.slash] groups); discriminate.
  - rewrite forallb_app, Hlt. destruct Hsuffix as [-> | [-> _]]; reflexivity.
Qed.

(** ** [parseMRUrl] *)

Lemma github_pr_groups pre owner name number rest :
  free_of [g_letter] pre ->
  owner <> [] -> free_of [UrlRe.slash] owner ->
  name <> [] -> free_of [UrlRe.slash] name ->
  number <> [] -> all_digits number -> stops is_digit rest ->
  search_groups UrlRe.github_pr
    (pre ++ str "github.com/" ++ owner ++ [UrlRe.slash] ++ name ++ str "/pull/" ++ number ++ rest)
  = Some [owner; name; number].
Proof.
  intros Hpre Ho1 Ho2 Hn1 Hn2 Hd1 Hd2 Hrest.
  unfold UrlRe.github_pr.
  change (str "github.com/") with (g_letter :: str "ithub.com/") at 1.
  rewrite search_groups_skip by exact Hpre.
  apply search_groups_here.
  cbn [match_pieces]. rewrite rmatch_word_app.
  unfold UrlRe.segment, none_of.
  apply plus_chr_stop; [exact Ho1 | exact Ho2 | reflexivity |].
  cbn [app rmatch lit]. rewrite N.eqb_refl.
  apply plus_chr_stop; [exact Hn1 | exact Hn2 | reflexivity |].
  rewrite rmatch_word_app. unfold digit.
  apply plus_chr_stop; [exact Hd1 | exact Hd2 | exact Hrest |].
  change (UrlRe.slash :: name ++ ?x) with ([UrlRe.slash] ++ name ++ x).
  rewrite !firstn_consumed. reflexivity.
Qed.

(** X20: A GitHub pull-request URL round-trips: owner, repository and number
    are the two segments after the host and the digits after [/pull/]. *)
Theorem parseMRUrl_github pre owner name number rest :
  free_of [g_letter] pre ->
  owner <> [] -> free_of [UrlRe.slash] owner ->
  name <> [] -> free_of [UrlRe.slash] name ->
  number <> [] -> all_digits number -> stops is_digit rest ->
  parseMRUrl (pre ++ str "github.com/" ++ owner ++ [UrlRe.slash] ++ name
                  ++ str "/pull/" ++ number ++ rest)
  = Some {| m_platform := github; m_owner := owner; m_repo := name; m_number := number |}.
Proof.
  intros Hpre Ho1 Ho2 Hn1 Hn2 Hd1 Hd2 Hrest. unfold parseMRUrl.
  rewrite (@github_pr_groups pre owner name number rest Hpre Ho1 Ho2 Hn1 Hn2 Hd1 Hd2 Hrest).
  reflexivity.
Qed.

Lemma github_pr_inv rest groups s' :
  pieces_match UrlRe.github_pr rest groups s' ->
  exists owner name number,
    groups = [owner; name; number] /\
    rest = str "github.com/" ++ owner ++ [UrlRe.slash] ++ name ++ str "/pull/" ++ number ++ s' /\
    owner <> [] /\ free_of [UrlRe.slash] owner /\ name <> [] /\ free_of [UrlRe.slash] name /\
    number <> [] /\ all_digits number.
Proof.
  intros H. unfold UrlRe.github_pr in H.
  inversion H as [|? ? ? w1 ? s1 g1 ? E1 M1 H1]; subst; clear H.
  inversion H1 as [|? ? ? w2 ? s2 g2 ? E2 M2 H2]; subst; clear H1.
  inversion H2 as [|? ? ? w3 ? s3 g3 ? E3 M3 H3]; subst; clear H2.
  inversion H3 as [|? ? ? w4 ? s4 g4 ? E4 M4 H4]; subst; clear H3.
  inversion H4 as [|? ? ? w5 ? s5 g5 ? E5 M5 H5]; subst; clear H4.
  inversion H5 as [|? ? ? w6 ? s6 g6 ? E6 M6 H6]; subst; clear H5.
  inversion H6; subst; clear H6.
  apply (proj1 (@matches_word_iff (str "github.com/") _ _)) in M1.
  apply app_inv_tail in M1. subst w1.
  apply (proj1 (@matches_plus_chr_iff _ _ _)) in M2. destruct M2 as (o & Eo & Hne & Ho).
  apply app_inv_tail in Eo. subst o.
  apply (proj1 (@matches_lit_iff UrlRe.slash _ _)) in M3.
  change (UrlRe.slash :: ?x) with ([UrlRe.slash] ++ x) in M3.
  apply app_inv_tail in M3. subst w3.
  apply (proj1 (@matches_plus_chr_iff _ _ _)) in M4. destruct M4 as (n & En & Hnn & Hn).
  apply app_inv_tail in En. subst n.
  apply (proj1 (@matches_word_iff (str "/pull/") _ _)) in M5.
  apply app_inv_tail in M5. subst w5.
  apply (proj1 (@matches_plus_chr_iff _ _ _)) in M6. destruct M6 as (d & Ed & Hdn & Hd).
  apply app_inv_tail in Ed. subst d.
  exists w2, w4, w6. repeat split; assumption.
Qed.

Lemma gitlab_mr_inv rest groups s' :
  pieces_match UrlRe.gitlab_mr rest groups s' ->
  exists path number,
    groups = [path; number] /\
    rest = str "gitlab.com/" ++ path ++ str "/-/merge_requests/" ++ number ++ s' /\
    path <> [] /\ number <> [] /\ all_digits number.
Proof.
  intros H. unfold UrlRe.gitlab_mr in H.
  inversion H as [|? ? ? w1 ? s1 g1 ? E1 M1 H1]; subst; clear H.
  inversion H1 as [|? ? ? w2 ? s2 g2 ? E2 M2 H2]; subst; clear H1.
  inversion H2 as [|? ? ? w3 ? s3 g3 ? E3 M3 H3]; subst; clear H2.
  inversion H3 as [|? ? ? w4 ? s4 g4 ? E4 M4 H4]; subst; clear H3.
  inversion H4; subst; clear H4.
  apply (proj1 (@matches_word_iff (str "gitlab.com/") _ _)) in M1.
  apply app_inv_tail in M1. subst w1.
  apply (proj1 (@matches_plus_chr_iff _ _ _)) in M2. destruct M2 as (o & Eo & Hne & Ho).
  apply app_inv_tail in Eo. subst o.
  apply (proj1 (@matches_word_iff (str "/-/merge_requests/") _ _)) in M3.
  apply app_inv_tail in M3. subst w3.
  apply (proj1 (@matches_plus_chr_iff _ _ _)) in M4. destruct M4 as (d & Ed & Hdn & Hd).
  apply app_inv_tail in Ed. subst d.
  exists w2, w4. repeat split; assumption.
Qed.

(** X21: What [parseMRUrl] returns is written in the URL; the number is a
    non-empty run of digits and the repository name holds no slash.  On
    GitLab the project path is the owner, a slash and the name, or the
    name alone under an empty owner when the path has one segment. *)
Theorem parseMRUrl_sound url info :
  parseMRUrl url = Some info ->
  m_number info <> [] /\ all_digits (m_number info) /\
  free_of [UrlRe.slash] (m_repo info) /\
  exists pre path post,
    url = pre ++ host (m_platform info) ++ path ++ mr_separator (m_platform info)
              ++ m_number info ++ post /\
    (path = m_owner info ++ [UrlRe.slash] ++ m_repo info \/
     (m_platform info = gitlab /\ m_owner info = [] /\ path = m_repo info)).
Proof.
  unfold parseMRUrl. intros H.
  destruct (search_groups UrlRe.github_pr url) as [groups|] eqn:E.
  - injection H as <-. cbn [m_platform m_owner m_repo m_number host mr_separator].
    apply search_groups_sound in E. destruct E as (pre & rest & s' & -> & Hm).
    apply github_pr_inv in Hm.
    destruct Hm as (owner & name & number & -> & -> & Ho1 & Ho2 & Hn1 & Hn2 & Hd1 & Hd2).
    unfold group. cbn [nth Nat.sub].
    repeat split; try assumption.
    exists pre, (owner ++ [UrlRe.slash] ++ name), s'. split; [|left; reflexivity].
    now rewrite <- !app_assoc.
  - destruct (search_groups UrlRe.gitlab_mr url) as [groups|] eqn:E'; [|discriminate].
    apply search_groups_sound in E'. destruct E' as (pre & rest & s' & -> & Hm).
    apply gitlab_mr_inv in Hm. destruct Hm as (path & number & -> & -> & Hne & Hd1 & Hd2).
    injection H as <-. cbn [m_platform m_owner m_repo m_number host mr_separator].
    unfold group. cbn [nth Nat.sub].
    repeat split; try assumption.
    + apply last_free, split_on_free.
    + exists pre, path, s'. split; [reflexivity|].
      pose proof (join_split UrlRe.slash path) as Hj.
      pose proof (@split_on_nonempty UrlRe.slash path) as Hp.
      destruct (split_on UrlRe.slash path) as [|a [|b parts]]; [contradiction | |].
      * right. cbn [removelast join last] in *. repeat split. now symmetry.
      * left. rewrite <- Hj at 1. apply join_removelast. simpl. lia.
Qed.

(** A greedy run of a class gives up units one by one until the
    continuation accepts. *)
Lemma star_chr_none R p (k : jstring -> option R) : forall t,
    (forall a b, t = a ++ b -> k b = None) -> rmatch (Star true (Chr p)) t k = None.
Proof.
  induction t as [|c t IH]; intros H; rewrite rmatch_star_greedy.
  - cbn [rmatch]. apply (H [] []). reflexivity.
  - rewrite rmatch_chr, length_tail_ltb.
    rewrite IH; [|intros a b E; apply (H (c :: a) b); now rewrite E].
    destruct (p c); apply (H [] (c :: t)); reflexivity.
Qed.

Lemma star_chr_backtrack R p w tail (k : jstring -> option R) x :
  forallb p w = true -> k tail = Some x ->
  (forall a b, tail = a ++ b -> a <> [] -> k b = None) ->
  rmatch (Star true (Chr p)) (w ++ tail) k = Some x.
Proof.
  intros Hw Hk Hnone. induction w as [|c w IH].
  - cbn [app]. rewrite rmatch_star_greedy. destruct tail as [|c t].
    + cbn [rmatch]. exact Hk.
    + rewrite rmatch_chr, length_tail_ltb.
      rewrite star_chr_none;
        [|intros a b E; apply (Hnone (c :: a) b); [now rewrite E | discriminate]].
      destruct (p c); exact Hk.
  - cbn [forallb] in Hw. apply andb_prop in Hw. destruct Hw as [Hc Hw].
    cbn [app]. rewrite rmatch_star_greedy, rmatch_chr, Hc, length_tail_ltb.
    rewrite (IH Hw). reflexivity.
Qed.

(** The separator of a merge-request URL cannot start inside itself or
    inside the digits that follow it. *)
Lemma separator_no_overlap a x number :
  all_digits number -> a <> [] ->
  a ++ str "/-/merge_requests/" ++ x = str "/-/merge_requests/" ++ number -> False.
Proof.
  intros Hd Hne H. unfold all_digits in Hd.
  destruct a as [|c a]; [contradiction|]. clear Hne.
  cbn [app str] in H. simpl in H. injection H as -> H.
  do 17 (destruct a as [|c a];
         [ try discriminate H; injection H as <-; discriminate Hd
         | cbn [app] in H; injection H as -> H ]).
  subst number. rewrite forallb_app in Hd. simpl in Hd.
  rewrite andb_false_r in Hd. discriminate.
Qed.

Lemma gitlab_mr_groups pre path number :
  free_of [g_letter] pre -> path <> [] ->
  forallb (fun c => negb (is_line_terminator c)) path = true ->
  number <> [] -> all_digits number ->
  search_groups UrlRe.gitlab_mr
    (pre ++ str "gitlab.com/" ++ path ++ str "/-/merge_requests/" ++ number)
  = Some [path; number].
Proof.
  intros Hpre Hne Hp Hd1 Hd2. unfold UrlRe.gitlab_mr.
  change (str "gitlab.com/") with (g_letter :: str "itlab.com/") at 1.
  rewrite search_groups_skip by exact Hpre.
  apply search_groups_here.
  cbn [match_pieces]. rewrite rmatch_word_app.
  destruct path as [|c path]; [contradiction|].
  cbn [forallb] in Hp. apply andb_prop in Hp. destruct Hp as [Hc Hp].
  unfold plus at 1, dot_nl.
  match goal with
  | |- rmatch (Seq (Chr ?p) (Star true (Chr ?p))) ((c :: path) ++ ?t) ?k = _ =>
      change (rmatch (Seq (Chr p) (Star true (Chr p))) ((c :: path) ++ t) k)
        with (rmatch (Chr p) (c :: path ++ t) (fun s' => rmatch (Star true (Chr p)) s' k))
  end.
  rewrite rmatch_chr, Hc.
  apply star_chr_backtrack; [exact Hp | |].
  - rewrite rmatch_word_app. unfold digit.
    rewrite <- (app_nil_r number) at 1.
    apply plus_chr_stop; [exact Hd1 | exact Hd2 | exact I |].
    change (c :: path ++ ?t) with ((c :: path) ++ t).
    rewrite firstn_consumed. cbn [length]. rewrite Nat.sub_0_r, firstn_all. reflexivity.
  - intros a b E Ha.
    match goal with |- ?lhs = None => destruct lhs as [r|] eqn:Ek; [|reflexivity] end.
    exfalso. apply rmatch_sound in Ek. destruct Ek as (s1 & Hm & _).
    apply matches_word_iff in Hm. subst b.
    exact (@separator_no_overlap a s1 number Hd2 Ha (eq_sym E)).
Qed.

(** X22: A GitLab merge-request URL round-trips: the repository is the last
    segment of the project path and the owner what stands in front of it,
    the empty string for a path of one segment. *)
Theorem parseMRUrl_gitlab pre groups name number :
  free_of [g_letter] pre ->
  Forall (free_of [UrlRe.slash]) (groups ++ [name]) ->
  join [UrlRe.slash] (groups ++ [name]) <> [] ->
  forallb (fun c => negb (is_line_terminator c)) (join [UrlRe.slash] (groups ++ [name])) = true ->
  number <> [] -> all_digits number ->
  search_groups UrlRe.github_pr
    (pre ++ str "gitlab.com/" ++ join [UrlRe.slash] (groups ++ [name])
         ++ str "/-/merge_requests/" ++ number) = None ->
  parseMRUrl (pre ++ str "gitlab.com/" ++ join [UrlRe.slash] (groups ++ [name])
                  ++ str "/-/merge_requests/" ++ number)
  = Some {| m_platform := gitlab; m_owner := join [UrlRe.slash] groups;
            m_repo := name; m_number := number |}.
Proof.
  intros Hpre Hfree Hne Hlt Hd1 Hd2 Hgh. unfold parseMRUrl. rewrite Hgh.
  rewrite (@gitlab_mr_groups pre _ number Hpre Hne Hlt Hd1 Hd2).
  unfold group. cbn [nth Nat.sub].
  rewrite (@split_join UrlRe.slash (groups ++ [name])); [|now destruct groups | exact Hfree].
  rewrite removelast_snoc, last_last. reflexivity.
Qed.

(** ** The repaired text is balanced in count *)

Lemma occurrences_app c a b : occurrences c (a ++ b) = occurrences c a + occurrences c b.
Proof. induction a as [|x a IH]; simpl; [reflexivity | rewrite IH; lia]. Qed.

Lemma occurrences_repeat c d n :
  occurrences c (repeat d n) = if (d =? c)%N then n else 0.
Proof.
  induction n as [|n IH]; simpl; [now destruct (d =? c)%N|].
  rewrite IH. destruct (d =? c)%N; reflexivity.
Qed.

Lemma close_string_even s : Nat.even (occurrences Ch.quote (close_string s)) = true.
Proof.
  unfold close_string. destruct (Nat.odd (occurrences Ch.quote s)) eqn:E.
  - rewrite occurrences_app. simpl. rewrite Nat.add_1_r, Nat.even_succ. exact E.
  - rewrite <- Nat.negb_odd, E. reflexivity.
Qed.

Lemma close_excess_other c opener closer s :
  c <> closer ->
  occurrences c (close_excess opener closer s) = occurrences c s.
Proof.
  intros H. unfold close_excess. rewrite occurrences_app, occurrences_repeat.
  destruct (closer =? c)%N eqn:E; [apply N.eqb_eq in E; congruence | lia].
Qed.

Lemma close_excess_closed opener closer s :
  opener <> closer ->
  occurrences opener (close_excess opener closer s)
  <= occurrences closer (close_excess opener closer s).
Proof.
  intros H. rewrite (@close_excess_other opener opener closer s H).
  unfold close_excess. rewrite occurrences_app, occurrences_repeat, N.eqb_refl. lia.
Qed.

(** X4: Whatever the input, the text [repairTruncatedJson] returns holds an
    even number of quotes, and no more opening brackets or braces than
    closing ones. *)
Theorem repair_balanced s :
  Nat.even (occurrences Ch.quote (repairTruncatedJson s)) = true /\
  occurrences Ch.lbracket (repairTruncatedJson s)
  <= occurrences Ch.rbracket (repairTruncatedJson s) /\
  occurrences Ch.lbrace (repairTruncatedJson s)
  <= occurrences Ch.rbrace (repairTruncatedJson s).
Proof.
  rewrite repair_steps.
  set (p := strip_trailing_comma _).
  split; [|split].
  - rewrite !close_excess_other by discriminate. apply close_string_even.
  - rewrite !(@close_excess_other _ Ch.lbrace Ch.rbrace) by discriminate.
    apply close_excess_closed. discriminate.
  - apply close_excess_closed. discriminate.
Qed.

(** ** What the regex stage extracts *)

Section ScanFacts.
Variable r : regex.
Variable P : jstring -> Prop.
Hypothesis matched : forall s s', matches r s s' -> P (firstn (length s - length s') s).

Lemma scan_matched : forall s skip,
    Forall P (scan r (fun m => [m]) (fun _ => []) skip s).
Proof.
  induction s as [|c t IH]; intros skip.
  - destruct skip; cbn [scan]; [|constructor].
    destruct (rmatch r [] (fun s' => Some s')) as [s'|] eqn:E; [|constructor].
    apply rmatch_sound in E. destruct E as (s2 & Hm & E). injection E as ->.
    rewrite app_nil_r. constructor; [exact (matched Hm) | constructor].
  - destruct skip as [|k]; cbn [scan]; [|apply IH].
    destruct (rmatch r (c :: t) (fun s' => Some s')) as [s'|] eqn:E.
    + apply rmatch_sound in E. destruct E as (s2 & Hm & E). injection E as ->.
      apply Forall_app. split; [constructor; [exact (matched Hm) | constructor]|].
      destruct (length (c :: t) - length s' =? 0); cbn [app]; apply IH.
    + cbn [app]. apply IH.
Qed.
End ScanFacts.

(** Deleting every occurrence of one unit. *)
Lemma replace_all_delete c : forall s,
    replace_all (lit c) [] s = filter (fun x => negb (x =? c)%N) s.
Proof.
  unfold replace_all. induction s as [|x s IH]; [reflexivity|].
  cbn [scan rmatch lit filter]. rewrite (N.eqb_sym c x).
  destruct (x =? c)%N; cbn [negb].
  - replace (length (x :: s) - length s) with 1 by (cbn [length]; lia).
    cbn [Nat.eqb Nat.sub app]. exact IH.
  - cbn [app]. now rewrite IH.
Qed.

Lemma filter_free c body :
  free_of [c] body -> filter (fun x => negb (x =? c)%N) body = body.
Proof.
  induction body as [|x body IH]; intros H; [reflexivity|].
  apply free_of_cons in H. destruct H as [Hx H]. cbn [existsb] in Hx.
  rewrite orb_false_r in Hx. cbn [filter]. rewrite Hx. cbn [negb]. now rewrite IH.
Qed.

Lemma item_matched s s' :
  matches Re.item s s' -> quoted_item (firstn (length s - length s') s).
Proof.
  unfold Re.item. cbn [seqs]. intros H.
  apply matches_seq_iff in H. destruct H as (s1 & H1 & H).
  apply matches_seq_iff in H. destruct H as (s2 & H2 & H3).
  apply matches_lit_iff in H1. apply matches_lit_iff in H3.
  apply matches_plus_chr_iff in H2. destruct H2 as (body & E & Hne & Hb).
  subst s s1 s2. exists body. split; [|split; assumption].
  replace (Ch.quote :: body ++ Ch.quote :: s') with (([Ch.quote] ++ body ++ [Ch.quote]) ++ s')
    by (cbn [app]; now rewrite <- app_assoc).
  apply firstn_consumed.
Qed.

Lemma unquote_item m :
  quoted_item m ->
  exists body, replace_all (lit Ch.quote) [] m = body /\ body <> [] /\ free_of [Ch.quote] body.
Proof.
  intros (body & -> & Hne & Hb). exists body. split; [|split; assumption].
  rewrite replace_all_delete, !filter_app, (filter_free Hb). cbn. apply app_nil_r.
Qed.

Lemma Forall_take A (P : A -> Prop) n : forall l, Forall P l -> Forall P (firstn n l).
Proof.
  induction n as [|n IH]; intros l H; [constructor|].
  destruct H; [constructor | constructor; [assumption | now apply IH]].
Qed.

Lemma extractArray_shape content key :
  length (extractArray content key) <= 5 /\ Forall extracted_item (extractArray content key).
Proof.
  unfold extractArray.
  destruct (exec (Re.array key) content) as [arrayMatch|]; [|split; [simpl; lia | constructor]].
  unfold match_all.
  pose proof (@scan_matched Re.item quoted_item item_matched (m_group arrayMatch) 0) as H.
  destruct (scan Re.item _ _ 0 (m_group arrayMatch)) as [|m l]; [split; [simpl; lia | constructor]|].
  split.
  - rewrite length_firstn. lia.
  - apply Forall_take. apply Forall_map. revert H. apply Forall_impl.
    intros x Hx. destruct (unquote_item Hx) as (body & E & Hne & Hb).
    exists body. rewrite E. repeat split; assumption.
Qed.

(** X5: In what [extractPartialData] returns the features and the structure
    are at most five non-empty strings free of quotes, and so is the tech
    stack unless it is the first four language names of the context. *)
Theorem extract_arrays content repoInfo out :
  extractPartialData content repoInfo = Returned out ->
  exists techStack features structure,
    prop "techStack" out = VArr techStack /\
    prop "features" out = VArr features /\
    prop "structure" out = VArr structure /\
    length features <= 5 /\ Forall extracted_item features /\
    length structure <= 5 /\ Forall extracted_item structure /\
    ((techStack <> [] /\ length techStack <= 5 /\ Forall extracted_item techStack) \/
     techStack = language_names repoInfo).
Proof.
  intros H. apply extract_returned in H. destruct H as (_ & _ & ->).
  exists (match extractArray content "techStack" with
          | [] => language_names repoInfo
          | l => l
          end), (extractArray content "features"), (extractArray content "structure").
  split; [reflexivity|]. split; [reflexivity|]. split; [reflexivity|].
  destruct (extractArray_shape content "features") as [L1 F1].
  destruct (extractArray_shape content "structure") as [L2 F2].
  destruct (extractArray_shape content "techStack") as [L3 F3].
  repeat (split; [assumption|]).
  destruct (extractArray content "techStack") as [|t ts]; [right; reflexivity|].
  left. split; [discriminate|]. split; assumption.
Qed.

(** ** The array bound across the funnel *)

Lemma extracted_item_string v : extracted_item v -> is_string v = true.
Proof. intros (body & -> & _). reflexivity. Qed.

Lemma forallb_Forall A (p : A -> bool) (P : A -> Prop) l :
  (forall x, P x -> p x = true) -> Forall P l -> forallb p l = true.
Proof.
  intros Hp. induction 1 as [|x l Hx Hl IH]; [reflexivity|].
  cbn [forallb]. now rewrite (Hp x Hx), IH.
Qed.

Lemma extractArray_bounded content key :
  bounded_string_array (VArr (extractArray content key)) = true.
Proof.
  destruct (extractArray_shape content key) as [L F]. cbn [bounded_string_array].
  apply andb_true_intro. split; [apply Nat.leb_le; exact L|].
  exact (forallb_Forall _ extracted_item_string F).
Qed.

Lemma map_VStr_strings A (f : A -> jstring) l :
  forallb is_string (map (fun x => VStr (f x)) l) = true.
Proof. induction l as [|x l IH]; [reflexivity | exact IH]. Qed.

Lemma keys_strings v : forallb is_string (keys v) = true.
Proof. destruct v; try reflexivity; cbn [keys]; apply map_VStr_strings. Qed.

Lemma forallb_take A (p : A -> bool) n : forall l,
    forallb p l = true -> forallb p (firstn n l) = true.
Proof.
  induction n as [|n IH]; intros l H; [reflexivity|].
  destruct l as [|x l]; [reflexivity|]. cbn [forallb firstn] in *.
  apply andb_prop in H. destruct H as [Hx H]. now rewrite Hx, IH.
Qed.

Lemma language_names_bounded repoInfo :
  bounded_string_array (VArr (language_names repoInfo)) = true.
Proof.
  unfold language_names. destruct (truthy (prop "languages" repoInfo)); [|reflexivity].
  cbn [bounded_string_array]. apply andb_true_intro. split.
  - apply Nat.leb_le. rewrite length_firstn. lia.
  - apply forallb_take, keys_strings.
Qed.

Lemma extracted_bounded content repoInfo :
  arrays_bounded (extracted content repoInfo) = true.
Proof.
  unfold arrays_bounded.
  change (prop "techStack" (extracted content repoInfo))
    with (VArr (match extractArray content "techStack" with
                | [] => language_names repoInfo
                | l => l
                end)).
  change (prop "features" (extracted content repoInfo))
    with (VArr (extractArray content "features")).
  change (prop "structure" (extracted content repoInfo))
    with (VArr (extractArray content "structure")).
  rewrite !extractArray_bounded, !andb_true_r.
  pose proof (extractArray_bounded content "techStack") as H.
  destruct (extractArray content "techStack"); [apply language_names_bounded | exact H].
Qed.

Lemma validated_bounded parsed repoInfo out :
  validateAndNormalize parsed repoInfo = Returned out -> arrays_bounded out = true.
Proof.
  intros H. apply validate_shape in H. destruct H as (_ & pn & d & rd & -> & _).
  unfold arrays_bounded.
  change (prop "techStack" (object _)) with (bounded_strings (prop "techStack" parsed)).
  change (prop "features" (object _)) with (bounded_strings (prop "features" parsed)).
  change (prop "structure" (object _)) with (bounded_strings (prop "structure" parsed)).
  now rewrite !bounded_strings_bounded.
Qed.

(** One parsing attempt of the funnel keeps the array bound when the
    next stage does. *)
Lemma attempt_bounded text repoInfo (next : outcome value) out :
  (next = Returned out -> arrays_bounded out = true) ->
  try_catch (parsed <- JSON_parse text ;; validateAndNormalize parsed repoInfo)
            (fun _ => next) = Returned out ->
  arrays_bounded out = true.
Proof.
  intros Hnext. destruct (JSON_parse text) as [parsed|e]; cbn [bind try_catch]; [|exact Hnext].
  destruct (validateAndNormalize parsed repoInfo) as [out1|e1] eqn:E; cbn [try_catch];
    [|exact Hnext].
  intros H. injection H as <-. exact (@validated_bounded _ _ _ E).
Qed.

Lemma extract_bounded content repoInfo out :
  extractPartialData content repoInfo = Returned out -> arrays_bounded out = true.
Proof.
  intros H. apply extract_returned in H. destruct H as (_ & _ & ->). apply extracted_bounded.
Qed.

(** X6: Whatever stage of the funnel produces the result, its three array
    fields are arrays of at most five strings. *)
Theorem funnel_arrays_bounded content repoInfo out :
  analyzeWithAI content repoInfo = Returned out ->
  bounded_string_array (prop "techStack" out) = true /\
  bounded_string_array (prop "features" out) = true /\
  bounded_string_array (prop "structure" out) = true.
Proof.
  unfold analyzeWithAI. destruct content as [|c content]; [discriminate|].
  intros H. apply attempt_bounded in H; [|apply attempt_bounded; apply extract_bounded].
  unfold arrays_bounded in H. apply andb_prop in H. destruct H as [H H3].
  apply andb_prop in H. destruct H as [H1 H2]. repeat split; assumption.
Qed.

(** A parsing attempt of the funnel never throws by itself: what it
    throws is what the next stage throws. *)
Lemma attempt_thrown text repoInfo (next : outcome value) e :
  try_catch (parsed <- JSON_parse text ;; validateAndNormalize parsed repoInfo)
            (fun _ => next) = Thrown e ->
  next = Thrown e.
Proof.
  destruct (JSON_parse text) as [parsed|e0]; cbn [bind try_catch]; [|trivial].
  destruct (validateAndNormalize parsed repoInfo) as [out|e1]; cbn [try_catch];
    [discriminate | trivial].
Qed.

(** X7: The funnel throws in two ways only: the completion is empty, or
    the last stage throws a TypeError, because the context is [null] or
    [undefined] or because its name, or path, or its description cannot
    be printed. *)
Theorem funnel_throws_only content repoInfo e :
  analyzeWithAI content repoInfo = Thrown e ->
  (content = [] /\ e = Error (str "No response from AI")) \/
  (e = TypeError /\ (nullish repoInfo = true \/ printable_context repoInfo = false)).
Proof.
  unfold analyzeWithAI. destruct content as [|c content].
  - intros H. injection H as <-. left. split; reflexivity.
  - intros H. right. apply attempt_thrown, attempt_thrown in H.
    exact (@extract_thrown _ _ _ H).
Qed.

(** ** The object boundaries *)

Lemma indexOf_split c : forall s i,
    indexOf c s = Some i ->
    free_of [c] (firstn i s) /\ exists t, skipn i s = c :: t.
Proof.
  induction s as [|x s IH]; intros i H; [discriminate|].
  cbn [indexOf] in H. destruct (x =? c)%N eqn:E.
  - injection H as <-. apply N.eqb_eq in E. subst x. split; [reflexivity | exists s; reflexivity].
  - destruct (indexOf c s) as [j|]; [|discriminate]. injection H as <-.
    destruct (IH j eq_refl) as [Hf Ht]. split; [|exact Ht].
    cbn [firstn]. apply free_of_cons. split; [|exact Hf]. cbn [existsb]. now rewrite E.
Qed.

Lemma lastIndexOf_none c : forall s, lastIndexOf c s = None -> free_of [c] s.
Proof.
  induction s as [|x s IH]; intros H; [reflexivity|].
  cbn [lastIndexOf] in H. destruct (lastIndexOf c s); [discriminate|].
  destruct (x =? c)%N eqn:E; [discriminate|].
  apply free_of_cons. split; [cbn [existsb]; now rewrite E | now apply IH].
Qed.

Lemma lastIndexOf_split c : forall s j,
    lastIndexOf c s = Some j -> free_of [c] (skipn (S j) s).
Proof.
  induction s as [|x s IH]; intros j H; [discriminate|].
  cbn [lastIndexOf] in H. destruct (lastIndexOf c s) as [i|] eqn:E.
  - injection H as <-. cbn [skipn]. now apply IH.
  - destruct (x =? c)%N; [|discriminate]. injection H as <-. cbn [skipn].
    now apply lastIndexOf_none.
Qed.

(** X8: [object_boundaries] cuts a contiguous part out of its input: what it
    drops in front holds no opening brace, what it drops behind holds no
    closing brace, and whenever it drops something the part it keeps
    starts with the first opening brace. *)
Theorem object_boundaries_part s :
  exists a b,
    s = a ++ object_boundaries s ++ b /\
    free_of [Ch.lbrace] a /\ free_of [Ch.rbrace] b /\
    (a <> [] \/ b <> [] -> exists t, object_boundaries s = Ch.lbrace :: t).
Proof.
  unfold object_boundaries.
  destruct (indexOf Ch.lbrace s) as [i|] eqn:Ei.
  - destruct (indexOf_split _ _ Ei) as [Ha [t Ht]].
    assert (Hfrom : exists a b, s = a ++ substring_from i s ++ b /\
              free_of [Ch.lbrace] a /\ free_of [Ch.rbrace] b /\
              (a <> [] \/ b <> [] -> exists t, substring_from i s = Ch.lbrace :: t)).
    { exists (firstn i s), []. unfold substring_from. rewrite app_nil_r, firstn_skipn.
      repeat split; [exact Ha | exists t; exact Ht]. }
    destruct (lastIndexOf Ch.rbrace s) as [j|] eqn:Ej; [|exact Hfrom].
    destruct (i <? j) eqn:L; [|exact Hfrom]. apply Nat.ltb_lt in L.
    exists (firstn i s), (skipn (S j) s). unfold substring. repeat split.
    + replace (skipn (S j) s) with (skipn (j + 1 - i) (skipn i s))
        by (rewrite skipn_skipn; f_equal; lia).
      now rewrite !firstn_skipn.
    + exact Ha.
    + exact (lastIndexOf_split _ _ Ej).
    + intros _. rewrite Ht. replace (j + 1 - i) with (S (j - i)) by lia.
      cbn [firstn]. eexists. reflexivity.
  - exists [], []. rewrite app_nil_r. repeat split. intros [H | H]; contradiction.
Qed.

(** ** [atob] *)

Lemma filter_none A (p : A -> bool) l :
  forallb p l = true -> filter (fun x => negb (p x)) l = [].
Proof.
  induction l as [|x l IH]; [reflexivity|]. cbn [forallb filter]. intros H.
  apply andb_prop in H. destruct H as [Hx H]. rewrite Hx. now apply IH.
Qed.

(** X9: [atob] skips ASCII whitespace wherever it stands, so the line breaks
    GitHub puts into the content of a file do not matter. *)
Theorem atob_skips_whitespace a w b :
  forallb Base64.is_ascii_ws w = true ->
  Base64.atob (a ++ w ++ b) = Base64.atob (a ++ b).
Proof.
  intros H. unfold Base64.atob. rewrite !filter_app.
  rewrite (@filter_none _ Base64.is_ascii_ws w H). reflexivity.
Qed.

Lemma sextet_bound c v : Base64.sextet c = Some v -> (v < 64)%N.
Proof.
  unfold Base64.sextet.
  repeat match goal with
         | |- (if ?b then _ else _) = _ -> _ => destruct b eqn:?
         end; intros H; inversion H; subst; clear H;
    repeat match goal with
           | H : (_ && _)%bool = true |- _ => apply andb_prop in H; destruct H
           | H : (_ <=? _)%N = true |- _ => apply N.leb_le in H
           | H : (_ =? _)%N = true |- _ => apply N.eqb_eq in H
           end; lia.
Qed.

Lemma sextets_bound : forall s l, Base64.sextets s = Some l -> Forall (fun v => (v < 64)%N) l.
Proof.
  induction s as [|c s IH]; intros l H; cbn [Base64.sextets] in H.
  - injection H as <-. constructor.
  - destruct (Base64.sextet c) as [v|] eqn:Ev; [|discriminate].
    destruct (Base64.sextets s) as [l'|]; [|discriminate]. injection H as <-.
    constructor; [exact (sextet_bound _ Ev) | now apply IH].
Qed.

Lemma octet1 a b : (a < 64 -> b < 64 -> a * 4 + b / 16 < 256)%N.
Proof.
  intros Ha Hb. assert (b / 16 < 4)%N by (apply N.Div0.div_lt_upper_bound; lia). lia.
Qed.

Lemma octet2 b c : (c < 64 -> (b mod 16) * 16 + c / 4 < 256)%N.
Proof.
  intros Hc. assert (c / 4 < 16)%N by (apply N.Div0.div_lt_upper_bound; lia).
  pose proof (N.mod_lt b 16). lia.
Qed.

Lemma octet3 c d : (d < 64 -> (c mod 4) * 64 + d < 256)%N.
Proof. intros Hd. pose proof (N.mod_lt c 4). lia. Qed.

Lemma octets_bytes : forall n l,
    length l <= n -> Forall (fun v => (v < 64)%N) l ->
    Forall (fun x => (x < 256)%N) (Base64.octets l).
Proof.
  induction n as [|n IH]; intros l L H.
  - destruct l; [constructor | simpl in L; lia].
  - destruct l as [|a [|b [|c [|d rest]]]]; cbn [Base64.octets app];
      repeat match goal with
             | H : Forall _ (_ :: _) |- _ => inversion H; subst; clear H
             end;
      repeat (constructor; auto using octet1, octet2, octet3).
    apply IH; [simpl in L; lia | assumption].
Qed.

(** X10: What [atob] returns is a string of bytes. *)
Theorem atob_bytes data s :
  Base64.atob data = Returned s -> Forall (fun x => (x < 256)%N) s.
Proof.
  unfold Base64.atob. set (d := Base64.strip_padding _).
  destruct (length d mod 4 =? 1); [discriminate|].
  destruct (Base64.sextets d) as [l|] eqn:E; [|discriminate].
  intros H. injection H as <-.
  apply (@octets_bytes (length l) l (le_n _)). exact (sextets_bound _ E).
Qed.

(** ** The review fetchers *)

Lemma JSON_parse_throws text e : JSON_parse text = Thrown e -> e = SyntaxError.
Proof.
  unfold JSON_parse, Json.parse.
  destruct (Json.parse_value _ _) as [v [|c r]| |]; intros H; congruence.
Qed.

Lemma res_json_throws res e : res_json res = Thrown e -> e = SyntaxError.
Proof. apply JSON_parse_throws. Qed.

Lemma guarded_json_throws res (d : value) e :
  (if ok res then res_json res else Returned d) = Thrown e -> e = SyntaxError.
Proof. destruct (ok res); [apply res_json_throws | discriminate]. Qed.

(** X23: A review fetcher throws the Error it builds itself exactly when its
    first call is not ok: the message then names the fetcher's own
    platform and carries the status and the body of that response, and
    no answer to the two secondary calls makes it throw one. *)
Theorem review_fetch_error_is_primary p message :
  (fetchGitHubPR p = Thrown (Error message) <->
   ok (mr_info p) = false /\ Error message = api_error "GitHub" (mr_info p)) /\
  (fetchGitLabMR p = Thrown (Error message) <->
   ok (mr_info p) = false /\ Error message = api_error "GitLab" (mr_info p)).
Proof.
  unfold fetchGitHubPR, fetchGitLabMR.
  destruct (ok (mr_info p)) eqn:E; cbn [negb].
  - split; (split; [|intros [H _]; discriminate H]); intros H; exfalso;
      (destruct (res_json (mr_info p)) as [data|e0] eqn:Ed; cbn [bind] in H;
       [|injection H as ->; apply res_json_throws in Ed; discriminate Ed]);
      (destruct (if ok (mr_changes p) then _ else _) as [files|e1] eqn:E1; cbn [bind] in H;
       [|injection H as ->; apply guarded_json_throws in E1; discriminate E1]);
      (destruct (if ok (mr_commits p) then _ else _) as [commits|e2] eqn:E2; cbn [bind] in H;
       [discriminate H|injection H as ->; apply guarded_json_throws in E2; discriminate E2]).
  - split; (split; [intros H; split; [reflexivity | symmetry; congruence]
                   |intros [_ H]; now rewrite H]).
Qed.

(** X24: Failed secondary calls of a review fetch degrade the result and
    nothing else: no files or an empty changes object, and no commits. *)
Theorem review_secondary_failures_degrade p data :
  ok (mr_info p) = true -> res_json (mr_info p) = Returned data ->
  ok (mr_changes p) = false -> ok (mr_commits p) = false ->
  fetchGitHubPR p =
  Returned (object [field "prData" data; field "files" (VArr []); field "commits" (VArr [])]) /\
  fetchGitLabMR p =
  Returned (object [field "mrData" data; field "changes" (VObj []); field "commits" (VArr [])]).
Proof.
  intros H0 Hd H1 H2. unfold fetchGitHubPR, fetchGitLabMR.
  rewrite H0, Hd, H1, H2. split; reflexivity.
Qed.

(** A field that cannot be printed: [String] throws inside the first two
    attempts, their [try] blocks catch it, and the regex stage answers
    from the context. *)
Example unprintable_field_falls_through :
  JSON_parse (strq "{'projectName':{'toString':1}}")
  = Returned (object [field "projectName" (prop "name" Cases.unprintable_context)]) /\
  validateAndNormalize (object [field "projectName" (prop "name" Cases.unprintable_context)])
                       Sample.context = Thrown TypeError /\
  exists out,
    analyzeWithAI (strq "{'projectName':{'toString':1}}") Sample.context = Returned out /\
    prop "projectName" out = VStr (str "repo").
Proof.
  split; [vm_compute; reflexivity|]. split; [vm_compute; reflexivity|].
  eexists. split; vm_compute; reflexivity.
Qed.

(** ** The request of the indexer *)

Lemma get_throws key v e : get key v = Thrown e -> e = TypeError.
Proof. destruct v; simpl; intros H; congruence. Qed.

Lemma bind_thrown A B (m : outcome A) (f : A -> outcome B) e :
  bind m f = Thrown e -> m = Thrown e \/ exists x, m = Returned x /\ f x = Thrown e.
Proof. destruct m as [x|e0]; cbn [bind]; intros H; [right; eauto | left; congruence]. Qed.

Lemma or_throws a b e :
  (forall e, a = Thrown e -> e = TypeError) -> (forall e, b = Thrown e -> e = TypeError) ->
  a ||| b = Thrown e -> e = TypeError.
Proof.
  intros Ha Hb H. unfold or_else in H. apply bind_thrown in H.
  destruct H as [H | (x & _ & H)]; [exact (Ha _ H)|].
  destruct (truthy x); [discriminate | exact (Hb _ H)].
Qed.

Lemma map_outcome_throws A B (f : A -> outcome B) :
  (forall x e, f x = Thrown e -> e = TypeError) ->
  forall l e, map_outcome f l = Thrown e -> e = TypeError.
Proof.
  intros Hf. induction l as [|x l IH]; intros e H; [discriminate|].
  cbn [map_outcome] in H. apply bind_thrown in H.
  destruct H as [H | (y & _ & H)]; [exact (Hf _ _ H)|].
  apply bind_thrown in H. destruct H as [H | (ys & _ & H)]; [exact (IH _ H) | discriminate].
Qed.

Lemma slice_throws n x e : slice_to n x = Thrown e -> e = TypeError.
Proof. destruct x; simpl; intros H; congruence. Qed.

Lemma ToString_throws v e : ToString v = Thrown e -> e = TypeError.
Proof. intros H. now apply ToString_thrown in H. Qed.

Lemma join_values_throws sep l e : join_values sep l = Thrown e -> e = TypeError.
Proof.
  unfold join_values. intros H. apply bind_thrown in H.
  destruct H as [H | (texts & _ & H)]; [|discriminate].
  revert H. apply map_outcome_throws. intros x e'.
  destruct (nullish x); [discriminate | apply ToString_throws].
Qed.

Lemma join_values_printable sep : forall l,
    forallb printable l = true -> exists s, join_values sep l = Returned s.
Proof.
  intros l H. unfold join_values.
  assert (Hm : exists texts,
             map_outcome (fun e => if nullish e then Returned [] else ToString e) l
             = Returned texts).
  { induction l as [|x l IH]; [exists []; reflexivity|].
    cbn [forallb] in H. apply andb_prop in H. destruct H as [Hx Hl].
    destruct (IH Hl) as [texts Ht]. cbn [map_outcome]. rewrite Ht.
    destruct (nullish x); [eexists; reflexivity|].
    rewrite (@ToString_printable x Hx). eexists. reflexivity. }
  destruct Hm as [texts ->]. eexists. reflexivity.
Qed.

Lemma keys_printable v : forallb printable (keys v) = true.
Proof.
  destruct v; try reflexivity; cbn [keys].
  - induction (seq 0 (length s)); [reflexivity | assumption].
  - induction (seq 0 (length l)); [reflexivity | assumption].
  - induction props; [reflexivity | assumption].
Qed.

Lemma prompt_throws repoInfo platform e :
  Indexer.prompt repoInfo platform = Thrown e -> e = TypeError.
Proof.
  unfold Indexer.prompt. intros H.
  apply bind_thrown in H. destruct H as [H | (tree & _ & H)]; [exact (get_throws _ _ H)|].
  apply bind_thrown in H. destruct H as [H | (sliced & _ & H)].
  { destruct (nullish tree); [discriminate | exact (slice_throws _ _ H)]. }
  apply bind_thrown in H. destruct H as [H | (name & _ & H)].
  { revert H. apply or_throws; intros e'; apply get_throws. }
  apply bind_thrown in H. destruct H as [H | (name' & _ & H)]; [exact (ToString_throws _ H)|].
  apply bind_thrown in H. destruct H as [H | (description & _ & H)].
  { revert H. apply or_throws; intros e'; [apply get_throws | discriminate]. }
  apply bind_thrown in H.
  destruct H as [H | (description' & _ & H)]; [exact (ToString_throws _ H)|].
  apply bind_thrown in H. destruct H as [H | (languages & _ & H)].
  { revert H. apply or_throws; intros e'; [apply get_throws | discriminate]. }
  apply bind_thrown in H.
  destruct H as [H | (languageNames & _ & H)]; [exact (join_values_throws _ _ H)|].
  apply bind_thrown in H. destruct H as [H | (files & _ & H)].
  { destruct (if truthy sliced then sliced else VArr []); try congruence.
    revert H. apply map_outcome_throws. intros f e'.
    apply or_throws; intros e''; apply get_throws. }
  apply bind_thrown in H. destruct H as [H | (fileNames & _ & H)]; [|discriminate].
  exact (join_values_throws _ _ H).
Qed.

(** A prompt that was built has read the context and printed its name, or
    path, and its description. *)
Lemma prompt_returned repoInfo platform p :
  Indexer.prompt repoInfo platform = Returned p ->
  nullish repoInfo = false /\ printable_context repoInfo = true.
Proof.
  intros H. destruct (nullish repoInfo) eqn:E.
  { unfold Indexer.prompt in H. rewrite (@get_nullish "tree" repoInfo E) in H. discriminate. }
  split; [reflexivity|]. unfold Indexer.prompt in H.
  apply bind_returned in H. destruct H as (tree & _ & H).
  apply bind_returned in H. destruct H as (sliced & _ & H).
  apply bind_returned in H. destruct H as (name & Hn & H).
  apply bind_returned in H. destruct H as (name' & Hn' & H).
  apply bind_returned in H. destruct H as (description & Hd & H).
  apply bind_returned in H. destruct H as (description' & Hd' & _).
  apply ToString_returned in Hn', Hd'. destruct Hn' as [_ Pn]. destruct Hd' as [_ Pd].
  rewrite !(@get_prop _ repoInfo E), or_ret in Hn.
  rewrite !(@get_prop _ repoInfo E), or_ret in Hd.
  unfold printable_context. cbn [first_truthy].
  destruct (truthy (prop "name" repoInfo)); destruct (truthy (prop "description" repoInfo));
    injection Hn as <-; injection Hd as <-; rewrite ?Pn, ?Pd; try reflexivity;
    destruct (truthy (prop "path" repoInfo)); rewrite ?Pn; reflexivity.
Qed.

Lemma entry_name_returned f :
  nullish f = false -> get "path" f ||| get "name" f = Returned (entry_name f).
Proof.
  intros H. rewrite !(@get_prop _ f H), or_ret. unfold entry_name. cbn [first_truthy].
  destruct (truthy (prop "path" f)); reflexivity.
Qed.

Lemma entry_name_thrown f :
  nullish f = true -> get "path" f ||| get "name" f = Thrown TypeError.
Proof. intros H. rewrite (@get_nullish "path" f H). reflexivity. Qed.

Lemma map_entry_names : forall l,
    Forall (fun f => nullish f = false) l ->
    map_outcome (fun f => get "path" f ||| get "name" f) l = Returned (map entry_name l).
Proof.
  induction 1 as [|f l Hf Hl IH]; [reflexivity|].
  cbn [map_outcome map]. now rewrite (@entry_name_returned f Hf), IH.
Qed.

Lemma map_entry_names_inv : forall l ys,
    map_outcome (fun f => get "path" f ||| get "name" f) l = Returned ys ->
    Forall (fun f => nullish f = false) l.
Proof.
  induction l as [|f l IH]; intros ys H; [constructor|].
  cbn [map_outcome] in H. apply bind_returned in H. destruct H as (y & Hy & H).
  apply bind_returned in H. destruct H as (ys' & Hys & _).
  constructor; [|exact (IH _ Hys)].
  destruct (nullish f) eqn:E; [|reflexivity].
  rewrite (@entry_name_thrown f E) in Hy. discriminate.
Qed.

(** X14: With a tree that is an array, the prompt is built when the name, or
    path, and the description of the context can be printed, none of the
    first fifteen entries is [null] or [undefined], and the path, or
    name, of each of the first ten can be printed.  A [null] or
    [undefined] entry among the first fifteen makes it throw a TypeError,
    although only ten entries are printed. *)
Theorem prompt_tree_entries repoInfo platform l :
  nullish repoInfo = false -> prop "tree" repoInfo = VArr l ->
  (printable (first_truthy [prop "name" repoInfo] (prop "path" repoInfo)) = true ->
   printable (first_truthy [prop "description" repoInfo] (VStr (str "No description"))) = true ->
   Forall (fun f => nullish f = false) (firstn 15 l) ->
   Forall (fun f => printable (entry_name f) = true) (firstn 10 l) ->
   exists p, Indexer.prompt repoInfo platform = Returned p) /\
  (Exists (fun f => nullish f = true) (firstn 15 l) ->
   Indexer.prompt repoInfo platform = Thrown TypeError).
Proof.
  intros Hr Ht. split.
  - intros Pn Pd Hl Hp. unfold Indexer.prompt.
    rewrite !(@get_prop _ repoInfo Hr), Ht. cbn [bind nullish slice_to truthy].
    rewrite !or_ret.
    assert (En : (if truthy (prop "name" repoInfo)
                  then Returned (prop "name" repoInfo) else Returned (prop "path" repoInfo))
                 = Returned (first_truthy [prop "name" repoInfo] (prop "path" repoInfo)))
      by (cbn [first_truthy]; destruct (truthy (prop "name" repoInfo)); reflexivity).
    assert (Ed : (if truthy (prop "description" repoInfo)
                  then Returned (prop "description" repoInfo)
                  else Returned (VStr (str "No description")))
                 = Returned (first_truthy [prop "description" repoInfo]
                                          (VStr (str "No description"))))
      by (cbn [first_truthy]; destruct (truthy (prop "description" repoInfo)); reflexivity).
    rewrite En. cbn [bind]. rewrite (@ToString_printable _ Pn). cbn [bind].
    rewrite Ed. cbn [bind]. rewrite (@ToString_printable _ Pd). cbn [bind].
    match goal with
    | |- context [bind (if ?b then ?x else ?y) _] =>
        destruct (if b then x else y) as [languages|e0] eqn:El;
        [|destruct b; discriminate El]
    end. cbn [bind].
    destruct (@join_values_printable (str ", ") (firstn 5 (keys languages))
                (@forallb_take _ printable 5 _ (keys_printable languages))) as [languageNames ->].
    cbn [bind]. rewrite (@map_entry_names _ Hl). cbn [bind].
    destruct (@join_values_printable (str ", ") (firstn 10 (map entry_name (firstn 15 l))))
      as [fileNames ->]; [|eexists; reflexivity].
    rewrite <- firstn_map, firstn_firstn. cbn [Nat.min].
    rewrite firstn_map. clear -Hp. induction Hp as [|f l' Hf Hl' IH]; [reflexivity|].
    cbn [map forallb]. now rewrite Hf, IH.
  - intros Hex. destruct (Indexer.prompt repoInfo platform) as [p|e] eqn:E.
    + exfalso. unfold Indexer.prompt in E.
      rewrite (@get_prop "tree" repoInfo Hr), Ht in E. cbn [bind nullish slice_to truthy] in E.
      apply bind_returned in E. destruct E as (name & _ & E).
      apply bind_returned in E. destruct E as (name' & _ & E).
      apply bind_returned in E. destruct E as (description & _ & E).
      apply bind_returned in E. destruct E as (description' & _ & E).
      apply bind_returned in E. destruct E as (languages & _ & E).
      apply bind_returned in E. destruct E as (languageNames & _ & E).
      apply bind_returned in E. destruct E as (files & Hf & _).
      apply map_entry_names_inv in Hf.
      apply Exists_exists in Hex. destruct Hex as (f & Hin & Hn).
      rewrite Forall_forall in Hf. rewrite (Hf f Hin) in Hn. discriminate.
    + now rewrite (@prompt_throws _ _ _ E).
Qed.

(** What the funnel returns is fully populated, with bounded arrays. *)
Lemma funnel_returned content repoInfo out :
  analyzeWithAI content repoInfo = Returned out ->
  fully_populated out /\ arrays_bounded out = true.
Proof.
  intros H. unfold analyzeWithAI in H. destruct content as [|c content]; [discriminate|].
  split.
  - set (jsonStr := object_boundaries _) in H.
    assert (Hlast : forall next : outcome value,
               (next = Returned out -> fully_populated out) ->
               forall text,
                 try_catch (parsed <- JSON_parse text ;; validateAndNormalize parsed repoInfo)
                           (fun _ => next) = Returned out ->
                 fully_populated out).
    { intros next Hnext text. destruct (JSON_parse text) as [parsed|e]; cbn [bind try_catch];
        [|exact Hnext].
      destruct (validateAndNormalize parsed repoInfo) as [v|e] eqn:E; cbn [try_catch];
        [|exact Hnext].
      intros Hv. injection Hv as <-. exact (@validated_populated _ _ _ E). }
    revert H. apply Hlast. apply Hlast.
    intros H. apply extract_returned in H. destruct H as (_ & _ & ->).
    apply extracted_populated.
  - apply attempt_bounded in H; [exact H|]. apply attempt_bounded. apply extract_bounded.
Qed.

(** X15: The analysis succeeds whenever the key is set, the prompt can be
    built, and the gateway answers ok with a JSON body whose completion is
    a non-empty string: whatever that string holds, the result is a fully
    populated object. *)
Theorem analysis_succeeds key gateway repoInfo platform prompt res data c content :
  key <> [] ->
  Indexer.prompt repoInfo platform = Returned prompt ->
  gateway key prompt = Answer res -> ok res = true ->
  res_json res = Returned data ->
  Indexer.completion data = Returned (VStr (c :: content)) ->
  exists out,
    Indexer.analyzeWithAI (Some key) gateway repoInfo platform = Returned out /\
    fully_populated out.
Proof.
  intros Hk Hp Hg Hok Hd Hc. unfold Indexer.analyzeWithAI.
  destruct key as [|k key]; [contradiction|].
  rewrite Hp. cbn [bind]. rewrite Hg, Hok. cbn [negb]. rewrite Hd. cbn [bind].
  rewrite Hc. cbn [bind truthy negb].
  destruct (@prompt_returned _ _ _ Hp) as [Hr Hpc].
  destruct (analyzeWithAI (c :: content) repoInfo) as [out|e] eqn:E.
  - exists out. split; [reflexivity|].
    exact (proj1 (@funnel_returned (c :: content) repoInfo out E)).
  - exfalso. unfold analyzeWithAI in E. apply attempt_thrown, attempt_thrown in E.
    apply extract_thrown in E. destruct E as [_ [E | E]]; congruence.
Qed.

Lemma completion_throws data e : Indexer.completion data = Thrown e -> e = TypeError.
Proof.
  unfold Indexer.completion, opt_get. intros H.
  apply bind_thrown in H. destruct H as [H | (choices & _ & H)]; [exact (get_throws _ _ H)|].
  apply bind_thrown in H. destruct H as [H | (message & _ & H)].
  - destruct (nullish (opt_first choices)); [discriminate | exact (get_throws _ _ H)].
  - destruct (nullish message); [discriminate | exact (get_throws _ _ H)].
Qed.

(** X16: Every exception of the analysis is one of five the function raises
    by itself, or the one that reports the status of a gateway response
    that is not ok. *)
Theorem analysis_throws_only key gateway repoInfo platform e :
  Indexer.analyzeWithAI key gateway repoInfo platform = Thrown e ->
  In e analysis_errors \/
  exists k prompt res,
    gateway k prompt = Answer res /\ ok res = false /\ e = Indexer.gateway_error (status res).
Proof.
  unfold Indexer.analyzeWithAI, analysis_errors. intros H.
  destruct key as [[|k key]|]; [injection H as <-; left; simpl; tauto | |
                                injection H as <-; left; simpl; tauto].
  apply bind_thrown in H. destruct H as [H | (prompt & Hp & H)].
  { apply prompt_throws in H. subst e. left. simpl. tauto. }
  destruct (gateway (k :: key) prompt) as [res| |] eqn:Eg;
    [| injection H as <-; left; simpl; tauto | injection H as <-; left; simpl; tauto].
  destruct (ok res) eqn:Eok; cbn [negb] in H.
  - apply bind_thrown in H. destruct H as [H | (data & _ & H)].
    { apply res_json_throws in H. subst e. left. simpl. tauto. }
    apply bind_thrown in H. destruct H as [H | (content & _ & H)].
    { apply completion_throws in H. subst e. left. simpl. tauto. }
    destruct (truthy content) eqn:Et; cbn [negb] in H;
      [|injection H as <-; left; simpl; tauto].
    destruct content as [| | | |s| |]; try (injection H as <-; left; simpl; tauto).
    unfold analyzeWithAI in H. destruct s as [|c s]; [discriminate Et|].
    apply attempt_thrown, attempt_thrown, extract_thrown in H. destruct H as [-> _].
    left. simpl. tauto.
  - injection H as <-. right. exists (k :: key), prompt, res. repeat split; assumption.
Qed.

Lemma request_returned key gateway repoInfo platform out :
  Indexer.analyzeWithAI key gateway repoInfo platform = Returned out ->
  fully_populated out /\ arrays_bounded out = true.
Proof.
  unfold Indexer.analyzeWithAI. intros H.
  destruct key as [[|k key]|]; [discriminate | | discriminate].
  apply bind_returned in H. destruct H as (prompt & _ & H).
  destruct (gateway (k :: key) prompt) as [res| |]; [|discriminate|discriminate].
  destruct (ok res); cbn [negb] in H; [|discriminate].
  apply bind_returned in H. destruct H as (data & _ & H).
  apply bind_returned in H. destruct H as (content & _ & H).
  destruct (truthy content) eqn:Et; cbn [negb] in H; [|discriminate].
  destruct content as [| | | |s| |]; try discriminate.
  exact (@funnel_returned s repoInfo out H).
Qed.

(** ** The handler of the indexer *)

(** The answers of the handler before any call goes out. *)
Lemma handle_cases w req :
  (exists e, Indexer.handle w req = Thrown e) \/
  Indexer.handle w req = Returned (Indexer.bad_request "Repository URL is required") \/
  Indexer.handle w req
  = Returned (Indexer.bad_request "Invalid repository URL. Supported: GitHub, GitLab") \/
  exists url repoInfo fetchedData,
    parseRepoUrl url = Some repoInfo /\
    Indexer.handle w req =
    (analysis <- Indexer.analyzeWithAI (Indexer.api_key w) (Indexer.gateway w) fetchedData
                   (Indexer.platform_name (r_platform repoInfo)) ;;
     Returned (Indexer.HttpResponse 200 (Indexer.JsonBody analysis))).
Proof.
  unfold Indexer.handle.
  destruct (JSON_parse (Indexer.payload req)) as [body|e]; cbn [bind]; [|left; eauto].
  destruct (get "repoUrl" body) as [repoUrl|e]; cbn [bind]; [|left; eauto].
  destruct (get "accessToken" body) as [accessToken|e]; cbn [bind]; [|left; eauto].
  destruct (truthy repoUrl); cbn [negb]; [|right; left; reflexivity].
  destruct repoUrl as [| | | |url| |]; try (left; eexists; reflexivity).
  destruct (parseRepoUrl url) as [repoInfo|] eqn:Eu; [|right; right; left; reflexivity].
  match goal with
  | |- context [bind ?m (fun fetchedData => bind _ _)] => destruct m as [fetchedData|e]
  end; cbn [bind]; [|left; eauto].
  right. right. right. exists url, repoInfo, fetchedData. split; [exact Eu | reflexivity].
Qed.

(** X17: A response with status 200 is the empty answer to OPTIONS or carries
    a fully populated analysis whose three arrays hold at most five
    strings. *)
Theorem serve_ok_body w req :
  Indexer.http_status (Indexer.serve w req) = 200%N ->
  (Indexer.method req = str "OPTIONS" /\ Indexer.http_body_of (Indexer.serve w req) = Indexer.NoBody)
  \/ exists analysis,
      Indexer.http_body_of (Indexer.serve w req) = Indexer.JsonBody analysis /\
      fully_populated analysis /\ arrays_bounded analysis = true.
Proof.
  unfold Indexer.serve.
  destruct (jstring_eqb (Indexer.method req) (str "OPTIONS")) eqn:Em.
  - intros _. left. split; [now apply jstring_eqb_eq | reflexivity].
  - destruct (handle_cases w req) as [[e H] | [H | [H | (url & info & fd & _ & H)]]];
      rewrite H; cbn; try discriminate.
    destruct (Indexer.analyzeWithAI _ _ fd _) as [analysis|e] eqn:Ea; cbn; [|discriminate].
    intros _. right. exists analysis. split; [reflexivity|].
    exact (@request_returned _ _ _ _ _ Ea).
Qed.

(** X18: A request is rejected with status 400 before any call goes out: the
    response is the same in every world, and it carries one of the two
    validation messages. *)
Theorem serve_rejects_offline w w' req :
  Indexer.http_status (Indexer.serve w req) = 400%N ->
  Indexer.serve w' req = Indexer.serve w req /\
  (Indexer.serve w req = Indexer.bad_request "Repository URL is required" \/
   Indexer.serve w req = Indexer.bad_request "Invalid repository URL. Supported: GitHub, GitLab").
Proof.
  unfold Indexer.serve.
  destruct (jstring_eqb (Indexer.method req) (str "OPTIONS")); [discriminate|].
  unfold Indexer.handle.
  destruct (JSON_parse (Indexer.payload req)) as [body|e]; cbn [bind]; [|discriminate].
  destruct (get "repoUrl" body) as [repoUrl|e]; cbn [bind]; [|discriminate].
  destruct (get "accessToken" body) as [accessToken|e]; cbn [bind]; [|discriminate].
  destruct (truthy repoUrl); cbn [negb]; [|intros _; split; [reflexivity | left; reflexivity]].
  destruct repoUrl as [| | | |url| |]; try discriminate.
  destruct (parseRepoUrl url) as [repoInfo|];
    [|intros _; split; [reflexivity | right; reflexivity]].
  match goal with
  | |- context [bind ?m (fun fetchedData => bind _ _)] => destruct m as [fetchedData|e]
  end; cbn [bind]; [|discriminate].
  destruct (Indexer.analyzeWithAI _ _ fetchedData _); discriminate.
Qed.

(** X19: The fetch comes before the key: when the first call of the provider
    fails, the response is a 500 that carries the provider's error,
    whatever the key and the gateway. *)
Theorem serve_provider_failure w req body url repoInfo :
  jstring_eqb (Indexer.method req) (str "OPTIONS") = false ->
  JSON_parse (Indexer.payload req) = Returned body -> nullish body = false ->
  prop "repoUrl" body = VStr url ->
  parseRepoUrl url = Some repoInfo ->
  ok (metadata (Indexer.repository w repoInfo (prop "accessToken" body))) = false ->
  Indexer.serve w req =
  Indexer.HttpResponse 500
    (Indexer.ErrorBody
       (api_error (match r_platform repoInfo with github => "GitHub" | gitlab => "GitLab" end)
                  (metadata (Indexer.repository w repoInfo (prop "accessToken" body))))).
Proof.
  intros Hm Hb Hn Hu Hp Hok. unfold Indexer.serve, Indexer.handle.
  rewrite Hm, Hb. cbn [bind]. rewrite !(@get_prop _ body Hn), Hu. cbn [bind].
  destruct url as [|c url]; [discriminate Hp|]. cbn [truthy negb]. rewrite Hp.
  destruct (r_platform repoInfo); unfold fetchGitHubRepo, fetchGitLabRepo;
    rewrite Hok; reflexivity.
Qed.

(** ** [escapeMarkdown] *)

Lemma escapeMarkdown_cons c text :
  escapeMarkdown (c :: text) =
  (if markdown_special c then [Ch.backslash; c] else [c]) ++ escapeMarkdown text.
Proof.
  unfold escapeMarkdown. cbn [scan rmatch].
  destruct (markdown_special c).
  - replace (length (c :: text) - length text) with 1 by (cbn [length]; lia).
    cbn [Nat.eqb Nat.sub app firstn]. reflexivity.
  - reflexivity.
Qed.

(** X25: In the text [escapeMarkdown] returns every reserved unit stands
    behind a backslash. *)
Theorem escapeMarkdown_well_escaped text : well_escaped (escapeMarkdown text).
Proof.
  induction text as [|c text IH]; [constructor|].
  rewrite escapeMarkdown_cons. destruct (markdown_special c) eqn:E; cbn [app].
  - apply WE_escaped. exact IH.
  - apply WE_plain; assumption.
Qed.

(** X26: Escaping loses nothing: two texts with the same escaped form are the
    same text. *)
Theorem escapeMarkdown_injective a b :
  escapeMarkdown a = escapeMarkdown b -> a = b.
Proof.
  revert b. induction a as [|x a IH]; intros b H.
  - destruct b as [|y b]; [reflexivity|]. rewrite escapeMarkdown_cons in H.
    destruct (markdown_special y); discriminate.
  - destruct b as [|y b].
    + rewrite escapeMarkdown_cons in H. destruct (markdown_special x); discriminate.
    + rewrite !escapeMarkdown_cons in H.
      destruct (markdown_special x) eqn:Ex, (markdown_special y) eqn:Ey; cbn [app] in H.
      * injection H as -> H. f_equal. now apply IH.
      * injection H as <- H. discriminate Ey.
      * injection H as -> H. discriminate Ex.
      * injection H as -> H. f_equal. now apply IH.
Qed.

(** ** The review history *)

Lemma NoDup_take A n : forall l : list A, NoDup l -> NoDup (firstn n l).
Proof.
  induction n as [|n IH]; intros l H; [constructor|].
  destruct H as [|x l Hx Hl]; [constructor|]. cbn [firstn]. constructor; [|now apply IH].
  intros Hin. apply Hx. rewrite <- (firstn_skipn n l). apply in_or_app. now left.
Qed.

Lemma filter_ids_NoDup k : forall prev,
    NoDup (map id prev) ->
    NoDup (map id (filter (fun r => negb (jstring_eqb (id r) k)) prev)) /\
    ~ In k (map id (filter (fun r => negb (jstring_eqb (id r) k)) prev)) /\
    forall x, In x (map id (filter (fun r => negb (jstring_eqb (id r) k)) prev)) ->
              In x (map id prev).
Proof.
  induction prev as [|r prev IH]; intros H; cbn [filter map].
  - repeat split; [constructor | intros [] | intros x []].
  - inversion H as [|? ? Hr Hp]; subst. destruct (IH Hp) as (N1 & N2 & N3).
    destruct (jstring_eqb (id r) k) eqn:E; cbn [negb map].
    + repeat split; [exact N1 | exact N2 | intros x Hx; right; now apply N3].
    + repeat split.
      * constructor; [intros Hin; apply Hr; now apply N3 | exact N1].
      * intros [Hk | Hk]; [|now apply N2].
        rewrite Hk, jstring_eqb_refl in E. discriminate.
      * intros x [Hx | Hx]; [left; exact Hx | right; now apply N3].
Qed.

(** X27: The history keeps its shape: after [addReviewToHistory] it holds
    at most fifty reviews and starts with the new one, whatever it held
    before; and no id occurs twice when none occurred twice before. *)
Theorem history_invariant review prev :
  length (addReviewToHistory review prev) <= 50 /\
  hd_error (addReviewToHistory review prev) = Some review /\
  (NoDup (map id prev) -> NoDup (map id (addReviewToHistory review prev))).
Proof.
  unfold addReviewToHistory. split; [|split].
  - rewrite length_firstn. lia.
  - reflexivity.
  - intros H. rewrite <- firstn_map. apply NoDup_take. cbn [map].
    destruct (@filter_ids_NoDup (id review) prev H) as (N1 & N2 & _).
    constructor; assumption.
Qed.

(** ** The properties at concrete inputs *)

Lemma parseRepoUrl_sound_witness :
  parseRepoUrl (str "https://gitlab.com/group/sub/repo.git")
  = Some {| r_platform := gitlab; r_owner := str "group/sub"; r_repo := str "repo" |} /\
  (exists pre post,
      str "https://gitlab.com/group/sub/repo.git"
      = pre ++ host gitlab ++ str "group/sub" ++ [UrlRe.slash] ++ str "repo" ++ post).
Proof.
  split; [vm_compute; reflexivity|].
  exact (proj1 (@parseRepoUrl_sound (str "https://gitlab.com/group/sub/repo.git")
                  {| r_platform := gitlab; r_owner := str "group/sub"; r_repo := str "repo" |}
                  eq_refl)).
Defined.

Lemma parseRepoUrl_github_witness :
  parseRepoUrl (Cases.scheme ++ str "github.com/" ++ str "owner" ++ [UrlRe.slash]
                             ++ str "repo.git" ++ str "/tree/main")
  = Some {| r_platform := github; r_owner := str "owner"; r_repo := str "repo" |}.
Proof.
  apply (@parseRepoUrl_github Cases.scheme (str "owner") (str "repo.git") (str "/tree/main"));
    [reflexivity | discriminate | reflexivity | discriminate | reflexivity |].
  right. eexists. reflexivity.
Defined.

Lemma parseRepoUrl_gitlab_witness :
  parseRepoUrl (Cases.scheme ++ str "gitlab.com/"
                  ++ join [UrlRe.slash] ([str "group"; str "sub"] ++ [str "repo"]) ++ str ".git")
  = Some {| r_platform := gitlab; r_owner := str "group/sub"; r_repo := str "repo" |}.
Proof.
  apply (@parseRepoUrl_gitlab Cases.scheme [str "group"; str "sub"] (str "repo") (str ".git"));
    [reflexivity | discriminate | repeat constructor | reflexivity | left; reflexivity
    | vm_compute; reflexivity].
Defined.

Lemma parseMRUrl_github_witness :
  parseMRUrl (Cases.scheme ++ str "github.com/" ++ str "owner" ++ [UrlRe.slash] ++ str "repo"
                           ++ str "/pull/" ++ str "123" ++ str "/files")
  = Some {| m_platform := github; m_owner := str "owner"; m_repo := str "repo";
            m_number := str "123" |}.
Proof.
  apply (@parseMRUrl_github Cases.scheme (str "owner") (str "repo") (str "123") (str "/files"));
    [reflexivity | discriminate | reflexivity | discriminate | reflexivity | discriminate
    | reflexivity | reflexivity].
Defined.

Lemma parseMRUrl_sound_witness :
  parseMRUrl (str "https://gitlab.com/repo/-/merge_requests/45")
  = Some {| m_platform := gitlab; m_owner := []; m_repo := str "repo"; m_number := str "45" |} /\
  all_digits (str "45").
Proof.
  split; [vm_compute; reflexivity|].
  exact (proj1 (proj2 (@parseMRUrl_sound (str "https://gitlab.com/repo/-/merge_requests/45")
                  {| m_platform := gitlab; m_owner := []; m_repo := str "repo";
                     m_number := str "45" |} eq_refl))).
Defined.

Lemma parseMRUrl_gitlab_witness :
  parseMRUrl (Cases.scheme ++ str "gitlab.com/" ++ join [UrlRe.slash] ([] ++ [str "repo"])
                           ++ str "/-/merge_requests/" ++ str "45")
  = Some {| m_platform := gitlab; m_owner := []; m_repo := str "repo"; m_number := str "45" |}.
Proof.
  apply (@parseMRUrl_gitlab Cases.scheme [] (str "repo") (str "45"));
    [reflexivity | repeat constructor | discriminate | reflexivity | discriminate | reflexivity
    | vm_compute; reflexivity].
Defined.

Lemma extract_arrays_witness :
  extractPartialData Cases.partial_completion Sample.context
  = Returned (extracted Cases.partial_completion Sample.context) /\
  exists techStack features structure,
    prop "techStack" (extracted Cases.partial_completion Sample.context) = VArr techStack /\
    prop "features" (extracted Cases.partial_completion Sample.context) = VArr features /\
    prop "structure" (extracted Cases.partial_completion Sample.context) = VArr structure /\
    length features <= 5 /\ Forall extracted_item features /\
    length structure <= 5 /\ Forall extracted_item structure /\
    ((techStack <> [] /\ length techStack <= 5 /\ Forall extracted_item techStack) \/
     techStack = language_names Sample.context).
Proof.
  split; [vm_compute; reflexivity|].
  apply (@extract_arrays Cases.partial_completion Sample.context). vm_compute. reflexivity.
Defined.

Lemma funnel_arrays_bounded_witness :
  exists out,
    analyzeWithAI Sample.scenario_C Sample.context = Returned out /\
    bounded_string_array (prop "techStack" out) = true /\
    bounded_string_array (prop "features" out) = true /\
    bounded_string_array (prop "structure" out) = true.
Proof.
  eexists. split; [vm_compute; reflexivity|].
  apply (@funnel_arrays_bounded Sample.scenario_C Sample.context). vm_compute. reflexivity.
Defined.

Lemma funnel_throws_only_witness :
  analyzeWithAI (str "not json") Cases.unprintable_context = Thrown TypeError /\
  printable_context Cases.unprintable_context = false.
Proof.
  assert (H : analyzeWithAI (str "not json") Cases.unprintable_context = Thrown TypeError)
    by (vm_compute; reflexivity).
  split; [exact H|].
  destruct (@funnel_throws_only (str "not json") Cases.unprintable_context TypeError H)
    as [[E _] | [_ [E | E]]]; [discriminate E | discriminate E | exact E].
Defined.

Lemma atob_skips_whitespace_witness :
  forallb Base64.is_ascii_ws [Ch.lf] = true /\
  Base64.atob (str "e2Jh" ++ [Ch.lf] ++ str "ZA==") = Base64.atob (str "e2Jh" ++ str "ZA==").
Proof.
  split; [reflexivity|].
  apply (@atob_skips_whitespace (str "e2Jh") [Ch.lf] (str "ZA==")). reflexivity.
Defined.

Lemma atob_bytes_witness :
  Base64.atob (str "e2JhZA==") = Returned (str "{bad") /\
  Forall (fun x => (x < 256)%N) (str "{bad").
Proof.
  split; [vm_compute; reflexivity|].
  apply (@atob_bytes (str "e2JhZA==")). vm_compute. reflexivity.
Defined.

Lemma primary_failure_throws_witness :
  ok (metadata Sample.primary_down) = false /\
  fetchGitHubRepo Sample.primary_down
  = Thrown (api_error "GitHub" (metadata Sample.primary_down)) /\
  fetchGitLabRepo Sample.primary_down
  = Thrown (api_error "GitLab" (metadata Sample.primary_down)).
Proof.
  split; [reflexivity|]. apply (@primary_failure_throws Sample.primary_down). reflexivity.
Defined.

Lemma secondary_failures_degrade_witness :
  res_json (metadata Sample.secondary_down)
  = Returned (object [field "name" (VStr (str "repo"))]) /\
  fetchGitHubRepo Sample.secondary_down =
  Returned (object [field "repoData" (object [field "name" (VStr (str "repo"))]);
                    field "tree" (VArr []);
                    field "languages" (VObj []); field "packageJson" VNull]) /\
  fetchGitLabRepo Sample.secondary_down =
  Returned (object [field "projectData" (object [field "name" (VStr (str "repo"))]);
                    field "tree" (VArr []);
                    field "languages" (VObj []); field "packageJson" VNull]).
Proof.
  split; [vm_compute; reflexivity|].
  apply (@secondary_failures_degrade Sample.secondary_down
           (object [field "name" (VStr (str "repo"))]));
    [reflexivity | vm_compute; reflexivity | reflexivity | reflexivity | reflexivity].
Defined.

Lemma gitlab_manifest_guarded_witness :
  res_json (manifest Sample.gitlab_bad_manifest) = Thrown SyntaxError /\
  exists m, fetchGitLabRepo Sample.gitlab_bad_manifest =
            Returned (object [field "projectData"
                                (object [field "name" (VStr (str "repo"));
                                         field "path_with_namespace" (VStr (str "group/repo"))]);
                              field "tree" (VArr []);
                              field "languages" (object [field "TypeScript"
                                                           (VNum (Number false [1%N] 3))]);
                              field "packageJson" m]).
Proof.
  split; [vm_compute; reflexivity|].
  apply (@gitlab_manifest_guarded Sample.gitlab_bad_manifest);
    [reflexivity | vm_compute; reflexivity | reflexivity | vm_compute; reflexivity
    | reflexivity | vm_compute; reflexivity].
Defined.

Lemma review_fetch_error_is_primary_witness :
  fetchGitHubPR Cases.review_down
  = Thrown (Error (str "GitHub API error: 404 - Not Found")) /\
  ok (mr_info Cases.review_down) = false /\
  Error (str "GitHub API error: 404 - Not Found")
  = api_error "GitHub" (mr_info Cases.review_down).
Proof.
  assert (H : fetchGitHubPR Cases.review_down
              = Thrown (Error (str "GitHub API error: 404 - Not Found")))
    by (vm_compute; reflexivity).
  split; [exact H|].
  exact (proj1 (proj1 (@review_fetch_error_is_primary Cases.review_down
                         (str "GitHub API error: 404 - Not Found"))) H).
Defined.

Lemma review_secondary_failures_degrade_witness :
  fetchGitHubPR Cases.review_secondary_down =
  Returned (object [field "prData" (object [field "title" (VStr (str "T"))]);
                    field "files" (VArr []); field "commits" (VArr [])]) /\
  fetchGitLabMR Cases.review_secondary_down =
  Returned (object [field "mrData" (object [field "title" (VStr (str "T"))]);
                    field "changes" (VObj []); field "commits" (VArr [])]).
Proof.
  apply (@review_secondary_failures_degrade Cases.review_secondary_down
           (object [field "title" (VStr (str "T"))]));
    [reflexivity | vm_compute; reflexivity | reflexivity | reflexivity].
Defined.

Lemma prompt_tree_entries_witness :
  Exists (fun f => nullish f = true)
         (firstn 15 [object [field "path" (VStr (str "src"))]; VNull]) /\
  Indexer.prompt Cases.tree_with_null (str "github") = Thrown TypeError.
Proof.
  assert (H : Exists (fun f => nullish f = true)
                     (firstn 15 [object [field "path" (VStr (str "src"))]; VNull]))
    by (right; left; reflexivity).
  split; [exact H|].
  exact (proj2 (@prompt_tree_entries Cases.tree_with_null (str "github")
                  [object [field "path" (VStr (str "src"))]; VNull] eq_refl eq_refl) H).
Defined.

Lemma analysis_succeeds_witness :
  exists out,
    Indexer.analyzeWithAI (Some (str "key")) Cases.gateway_up Sample.context (str "github")
    = Returned out /\ fully_populated out.
Proof.
  let p := eval vm_compute in (Indexer.prompt Sample.context (str "github")) in
  match p with
  | Returned ?prompt =>
      apply (@analysis_succeeds (str "key") Cases.gateway_up Sample.context (str "github") prompt
               Cases.completion_response
               (object [field "choices"
                          (VArr [object [field "message"
                                           (object [field "content"
                                                      (VStr (strq "{'projectName':'Foo'}"))])]])])
               123%N (strq "'projectName':'Foo'}"))
  end;
    [discriminate | vm_compute; reflexivity | reflexivity | reflexivity | vm_compute; reflexivity
    | vm_compute; reflexivity].
Defined.

Lemma analysis_throws_only_witness :
  Indexer.analyzeWithAI (Some (str "key")) Cases.gateway_busy Sample.context (str "github")
  = Thrown (Error (str "Rate limit exceeded. Please try again later.")) /\
  (In (Error (str "Rate limit exceeded. Please try again later.")) analysis_errors \/
   exists k prompt res,
     Cases.gateway_busy k prompt = Answer res /\ ok res = false /\
     Error (str "Rate limit exceeded. Please try again later.")
     = Indexer.gateway_error (status res)).
Proof.
  split; [vm_compute; reflexivity|].
  apply (@analysis_throws_only (Some (str "key")) Cases.gateway_busy Sample.context
           (str "github")).
  vm_compute. reflexivity.
Defined.

Lemma serve_ok_body_witness :
  Indexer.http_status (Indexer.serve Cases.world_up Cases.index_request) = 200%N /\
  ((Indexer.method Cases.index_request = str "OPTIONS" /\
    Indexer.http_body_of (Indexer.serve Cases.world_up Cases.index_request) = Indexer.NoBody)
   \/ exists analysis,
       Indexer.http_body_of (Indexer.serve Cases.world_up Cases.index_request)
       = Indexer.JsonBody analysis /\
       fully_populated analysis /\ arrays_bounded analysis = true).
Proof.
  split; [vm_compute; reflexivity|].
  apply (@serve_ok_body Cases.world_up Cases.index_request). vm_compute. reflexivity.
Defined.

Lemma serve_rejects_offline_witness :
  Indexer.http_status (Indexer.serve Cases.world_up Cases.empty_request) = 400%N /\
  Indexer.serve Cases.world_down Cases.empty_request
  = Indexer.serve Cases.world_up Cases.empty_request.
Proof.
  split; [vm_compute; reflexivity|].
  apply (@serve_rejects_offline Cases.world_up Cases.world_down Cases.empty_request).
  vm_compute. reflexivity.
Defined.

Lemma serve_provider_failure_witness :
  Indexer.serve Cases.world_down Cases.index_request
  = Indexer.HttpResponse 500
      (Indexer.ErrorBody (Error (str "GitHub API error: 404 - Not Found"))).
Proof.
  exact (@serve_provider_failure Cases.world_down Cases.index_request Cases.index_request_body
           (str "https://github.com/owner/repo")
           {| r_platform := github; r_owner := str "owner"; r_repo := str "repo" |}
           eq_refl eq_refl eq_refl eq_refl eq_refl eq_refl).
Defined.

Lemma history_invariant_witness :
  NoDup (map id [Cases.review_of "r1" "first"]) /\
  addReviewToHistory (Cases.review_of "r1" "second") [Cases.review_of "r1" "first"]
  = [Cases.review_of "r1" "second"] /\
  NoDup (map id (addReviewToHistory (Cases.review_of "r1" "second")
                                    [Cases.review_of "r1" "first"])).
Proof.
  assert (H : NoDup (map id [Cases.review_of "r1" "first"]))
    by (constructor; [intros [] | constructor]).
  split; [exact H|]. split; [reflexivity|].
  exact (proj2 (proj2 (@history_invariant (Cases.review_of "r1" "second")
                         [Cases.review_of "r1" "first"])) H).
Defined.

Lemma escapeMarkdown_injective_witness :
  escapeMarkdown (str "a.b") = escapeMarkdown (str "a" ++ str ".b") /\ str "a.b" = str "a" ++ str ".b".
Proof.
  split; [reflexivity|].
  apply (@escapeMarkdown_injective (str "a.b") (str "a" ++ str ".b")). reflexivity.
Defined.
